(** * A shallow embedding of the file-type detector (src/dist/index.js)

    The development models the buffer-backed entry point of the detector:
    the [BufferTokenizer] of strtok3 (position, [fileInfo.size], the backing
    [Uint8Array]), the [FileTypeParser] with its 4100-byte sample buffer
    [this.buffer], the dispatcher [parse] with all its sub-walkers, and the
    exported entry points [fileTypeFromTokenizer], [fileTypeFromBuffer] and
    [fileTypeFromFile].

    Modelling conventions.
    - Bytes of a [Uint8Array]/[Buffer] are [byte]s; a JS number holding an
      integer is a [Z].  Integers produced by the code stay far below 2^53 for
      any buffer a program can allocate, so JS number arithmetic on them is
      exact and is written as [Z] arithmetic.
    - An indexed read [buf[i]] yields [option Z]: [None] is [undefined].
    - JS strings are lists of code points ([list Z]); every string the code
      inspects is compared with ASCII literals, trimmed, or cut at ['/'], so
      code points and UTF-16 code units give the same answers.
    - [async]/[await] on a [BufferTokenizer] is sequential: every promise the
      dispatcher awaits is already settled when its body returns, and the two
      un-awaited [ignore] calls update the position synchronously (the body of
      [AbstractTokenizer.ignore] contains no [await]).  The dispatcher is a
      state and error monad [M] over the tokenizer and parser state, with a
      fuel counter for its loops and recursive calls, since it need not
      terminate (see the ASF walk). *)

From Stdlib Require Import String Ascii ZArith List Bool Lia.
From Stdlib Require Import Strings.Byte.
Import ListNotations.
Open Scope Z_scope.
Open Scope list_scope.
Set Warnings "-register-all".

(* ------------------------------------------------------------------------- *)
(** ** JS numbers, bytes and 32-bit operators *)

Definition bz (b : byte) : Z := Z.of_N (Byte.to_N b).

(** [ToUint8]: what a store into a [Uint8Array] element keeps. *)
Definition byte_of_Z (z : Z) : byte :=
  match Byte.of_N (Z.to_N (z mod 256)) with Some b => b | None => x00 end.

(** [ToInt32] on an integral number. *)
Definition to_int32 (z : Z) : Z :=
  let m := z mod 2 ^ 32 in if 2 ^ 31 <=? m then m - 2 ^ 32 else m.

(** An operand of a bitwise operator: [undefined] converts to [NaN], which
    [ToInt32] sends to 0. *)
Definition js_num (v : option Z) : Z := match v with Some z => z | None => 0 end.

Definition js_and (a b : Z) : Z := to_int32 (Z.land (to_int32 a) (to_int32 b)).
Definition js_or (a b : Z) : Z := to_int32 (Z.lor (to_int32 a) (to_int32 b)).
Definition js_shl (a b : Z) : Z := to_int32 (Z.shiftl (to_int32 a) (b mod 32)).
Definition js_shr (a b : Z) : Z := Z.shiftr (to_int32 a) (b mod 32).
Definition js_xor (a b : Z) : Z := to_int32 (Z.lxor (to_int32 a) (to_int32 b)).

(** [buf[i]] on a typed array: [undefined] outside [0, length). *)
Definition idx (buf : list byte) (i : Z) : option Z :=
  if i <? 0 then None else option_map bz (nth_error buf (Z.to_nat i)).

(** [a[i]] on a JS array of numbers. *)
Definition idx_num (a : list Z) (i : Z) : option Z :=
  if i <? 0 then None else nth_error a (Z.to_nat i).

(** [Buffer.alloc(n)]: [n] zero bytes. *)
Definition alloc (n : Z) : list byte := repeat x00 (Z.to_nat n).

(** [header !== v] for a number [header] and a value [v]. *)
Definition js_neq (header : Z) (v : option Z) : bool :=
  match v with Some z => negb (header =? z) | None => true end.

(* ------------------------------------------------------------------------- *)
(** ** The sync-safe token (index.js, uint32SyncSafeToken) *)

(** [get: (buffer, offset) => (buffer[offset + 3] & 0x7F) | ((buffer[offset + 2]) << 7)
     | ((buffer[offset + 1]) << 14) | ((buffer[offset]) << 21)] *)
Definition uint32SyncSafeToken_get (buffer : list byte) (offset : Z) : Z :=
  js_or
    (js_or
       (js_or (js_and (js_num (idx buffer (offset + 3))) 127)
              (js_shl (js_num (idx buffer (offset + 2))) 7))
       (js_shl (js_num (idx buffer (offset + 1))) 14))
    (js_shl (js_num (idx buffer offset)) 21).

Definition uint32SyncSafeToken_len : Z := 4.

(** The 28-bit value of a sync-safe integer: the low seven bits of each of the
    four bytes, most significant byte first. *)
Definition syncsafe_value (b0 b1 b2 b3 : byte) : Z :=
  Z.land (bz b0) 127 * 2 ^ 21 + Z.land (bz b1) 127 * 2 ^ 14
  + Z.land (bz b2) 127 * 2 ^ 7 + Z.land (bz b3) 127.

(* ------------------------------------------------------------------------- *)
(** ** JS strings *)

(** A JS string as the list of its code points. *)
Definition jstr := list Z.

(** A JS string literal of the source (all of them are ASCII). *)
Definition lit (s : string) : jstr :=
  map (fun c => Z.of_nat (nat_of_ascii c)) (list_ascii_of_string s).

(** [stringToBytes(string)]: [[...string].map(c => c.charCodeAt(0))]. *)
Definition stringToBytes (s : string) : list Z := lit s.

Fixpoint jstr_eqb (a b : jstr) : bool :=
  match a, b with
  | [], [] => true
  | x :: a', y :: b' => (x =? y) && jstr_eqb a' b'
  | _, _ => false
  end.

(** [s === 'literal'] *)
Definition str_is (a : jstr) (s : string) : bool := jstr_eqb a (lit s).

Fixpoint prefixb (p a : jstr) : bool :=
  match p, a with
  | [], _ => true
  | x :: p', y :: a' => (x =? y) && prefixb p' a'
  | _ :: _, [] => false
  end.

(** [a.startsWith('p')] and [a.endsWith('p')] *)
Definition startsWith (a : jstr) (p : string) : bool := prefixb (lit p) a.
Definition endsWith (a : jstr) (p : string) : bool := prefixb (rev (lit p)) (rev a).

(** [a.split('/')[0]]: the part before the first ['/']. *)
Fixpoint split_slash_0 (a : jstr) : jstr :=
  match a with
  | [] => []
  | c :: a' => if c =? 47 then [] else c :: split_slash_0 a'
  end.

(** WhiteSpace and LineTerminator code points of ECMAScript, the set removed
    by [String.prototype.trim] and skipped by [parseInt]. *)
Definition js_ws (c : Z) : bool :=
  (c =? 9) || (c =? 10) || (c =? 11) || (c =? 12) || (c =? 13) || (c =? 32)
  || (c =? 160) || (c =? 5760) || ((8192 <=? c) && (c <=? 8202))
  || (c =? 8232) || (c =? 8233) || (c =? 8239) || (c =? 8287)
  || (c =? 12288) || (c =? 65279).

Fixpoint trim_start (a : jstr) : jstr :=
  match a with
  | [] => []
  | c :: a' => if js_ws c then trim_start a' else a
  end.

(** [a.trim()] *)
Definition trim (a : jstr) : jstr := rev (trim_start (rev (trim_start a))).

(** LineTerminator code points: what [.] in a regular expression does not
    match. *)
Definition js_lt (c : Z) : bool := (c =? 10) || (c =? 13) || (c =? 8232) || (c =? 8233).

(** [a.replace(/\0.*$/, '')] (and [/\00.*$/g], the same pattern: [\00] is a
    legacy octal escape for NUL): the leftmost NUL from which no line
    terminator follows is cut off together with the rest of the string. *)
Fixpoint strip_nul_tail (a : jstr) : jstr :=
  match a with
  | [] => []
  | c :: a' =>
      if (c =? 0) && negb (existsb js_lt a') then [] else c :: strip_nul_tail a'
  end.

(** [a.replace('\0', ' ')]: the first NUL becomes a space. *)
Fixpoint replace_first_nul (a : jstr) : jstr :=
  match a with
  | [] => []
  | c :: a' => if c =? 0 then 32 :: a' else c :: replace_first_nul a'
  end.

(** [Number.parseInt(a, 8)]: [None] is [NaN].  A negative zero is written 0,
    which [===] does not distinguish from it. *)
Fixpoint octal_digits (a : jstr) (acc : Z) (seen : bool) : option Z :=
  match a with
  | c :: a' =>
      if (48 <=? c) && (c <=? 55) then octal_digits a' (acc * 8 + (c - 48)) true
      else if seen then Some acc else None
  | [] => if seen then Some acc else None
  end.

Definition parseInt8 (a : jstr) : option Z :=
  match trim_start a with
  | c :: a' =>
      if c =? 45 then option_map Z.opp (octal_digits a' 0 false)
      else if c =? 43 then octal_digits a' 0 false
      else octal_digits (c :: a') 0 false
  | [] => None
  end.

(** [buf.toString('binary')] (latin1) and [buf.toString('ascii')], which
    clears the high bit of each byte. *)
Definition decode_latin1 (bs : list byte) : jstr := map bz bs.
Definition decode_ascii (bs : list byte) : jstr := map (fun b => Z.land (bz b) 127) bs.

(** [buf.toString('utf8')]: the UTF-8 decoder of the Encoding Standard, which
    replaces each maximal ill-formed subsequence by U+FFFD.  [need] is the
    number of continuation bytes still expected, [cp] the code point so far,
    [lo] and [hi] the bounds for the next continuation byte. *)
Definition utf8_start (b : Z) : option (Z * Z * Z * Z) :=
  (* returns (need, cp, lo, hi) for a lead byte *)
  if (194 <=? b) && (b <=? 223) then Some (1, Z.land b 31, 128, 191)
  else if (224 <=? b) && (b <=? 239) then
    Some (2, Z.land b 15, (if b =? 224 then 160 else 128), (if b =? 237 then 159 else 191))
  else if (240 <=? b) && (b <=? 244) then
    Some (3, Z.land b 7, (if b =? 240 then 144 else 128), (if b =? 244 then 143 else 191))
  else None.

Fixpoint utf8_go (bs : list Z) (need cp lo hi : Z) : jstr :=
  match bs with
  | [] => if need =? 0 then [] else [65533]
  | b :: bs' =>
      let lead := fun (k : unit) =>
        if b <=? 127 then b :: utf8_go bs' 0 0 128 191
        else match utf8_start b with
             | Some (n, c, l, h) => utf8_go bs' n c l h
             | None => 65533 :: utf8_go bs' 0 0 128 191
             end in
      if need =? 0 then lead tt
      else if (lo <=? b) && (b <=? hi) then
        let cp' := cp * 64 + Z.land b 63 in
        if need =? 1 then cp' :: utf8_go bs' 0 0 128 191
        else utf8_go bs' (need - 1) cp' 128 191
      else 65533 :: lead tt
  end.

Definition decode_utf8 (bs : list byte) : jstr := utf8_go (map bz bs) 0 0 128 191.

(** [buf.slice(start, end)] / [buf.subarray(start, end)] for
    [0 <= start <= end]. *)
Definition slice (bs : list byte) (start stop : Z) : list byte :=
  firstn (Z.to_nat (stop - start)) (skipn (Z.to_nat start) bs).

(** [haystack.includes(needle)] and [haystack.indexOf(needle)] on buffers. *)
Fixpoint prefix_bytes (p a : list byte) : bool :=
  match p, a with
  | [], _ => true
  | x :: p', y :: a' => Byte.eqb x y && prefix_bytes p' a'
  | _ :: _, [] => false
  end.

Fixpoint index_of_from (hay needle : list byte) (i : Z) : Z :=
  match hay with
  | [] => if prefix_bytes needle [] then i else -1
  | _ :: hay' => if prefix_bytes needle hay then i else index_of_from hay' needle (i + 1)
  end.

Definition buf_indexOf (hay needle : list byte) : Z := index_of_from hay needle 0.
Definition buf_includes (hay needle : list byte) : bool := 0 <=? buf_indexOf hay needle.

(* ------------------------------------------------------------------------- *)
(** ** [JSON.parse] and the [json.files] test of the ASAR probe *)

Inductive json : Type :=
| JNull
| JBool (b : bool)
| JNum (is_zero : bool)          (** a number, by whether its double is 0 *)
| JStr (s : jstr)
| JArr (l : list json)
| JObj (l : list (jstr * json)).

Definition is_digit (c : Z) : bool := (48 <=? c) && (c <=? 57).

Fixpoint skip_ws (s : jstr) : jstr :=
  match s with
  | c :: s' => if (c =? 32) || (c =? 9) || (c =? 10) || (c =? 13) then skip_ws s' else s
  | [] => []
  end.

Fixpoint take_digits (s : jstr) : list Z * jstr :=
  match s with
  | c :: s' => if is_digit c then let (d, r) := take_digits s' in (c :: d, r) else ([], s)
  | [] => ([], [])
  end.

Definition digits_value (d : list Z) : Z := fold_left (fun acc c => acc * 10 + (c - 48)) d 0.

(** A decimal [m * 10^e] (with [m >= 0]) rounds to the double 0 exactly when
    [m = 0] or [m * 10^e <= 2^-1075] (round half to even at the smallest
    subnormal).  Numbers below [10^-(k+324)], [k] the digit count of [m], are
    below [2^-1075] without computing the power. *)
Definition decimal_is_zero (m : Z) (k : Z) (e : Z) : bool :=
  if m =? 0 then true
  else if 0 <=? e then false
  else if k + 324 <? - e then true
  else m * 2 ^ 1075 <=? 10 ^ (- e).

(** The JSON number grammar: [-? (0 | [1-9][0-9]* ) (. [0-9]+)? ([eE] [+-]? [0-9]+)?]. *)
Definition parse_number (s : jstr) : option (json * jstr) :=
  let s1 := match s with 45 :: r => r | _ => s end in
  let (ip, r1) := take_digits s1 in
  let int_ok := match ip with [] => false | 48 :: _ :: _ => false | _ => true end in
  if negb int_ok then None else
  let frac := match r1 with
              | 46 :: r => let (fp, r2) := take_digits r in
                           match fp with [] => None | _ => Some (fp, r2) end
              | _ => Some ([], r1)
              end in
  match frac with
  | None => None
  | Some (fp, r2) =>
      let expo := match r2 with
                  | c :: r => if (c =? 101) || (c =? 69) then
                                let '(sg, r') := match r with
                                                 | 43 :: r' => (1, r')
                                                 | 45 :: r' => (-1, r')
                                                 | _ => (1, r) end in
                                let (ep, r3) := take_digits r' in
                                match ep with [] => None | _ => Some (sg * digits_value ep, r3) end
                              else Some (0, r2)
                  | [] => Some (0, [])
                  end in
      match expo with
      | None => None
      | Some (e, r3) =>
          let m := digits_value (ip ++ fp) in
          Some (JNum (decimal_is_zero m (Z.of_nat (length (ip ++ fp))) (e - Z.of_nat (length fp))), r3)
      end
  end.

Definition hex_value (c : Z) : option Z :=
  if is_digit c then Some (c - 48)
  else if (97 <=? c) && (c <=? 102) then Some (c - 87)
  else if (65 <=? c) && (c <=? 70) then Some (c - 55)
  else None.

(** The body of a JSON string after its opening quote. *)
Fixpoint parse_string_body (s : jstr) (acc : jstr) : option (jstr * jstr) :=
  match s with
  | [] => None
  | 34 :: r => Some (rev acc, r)
  | 92 :: r =>
      match r with
      | 34 :: r' => parse_string_body r' (34 :: acc)
      | 92 :: r' => parse_string_body r' (92 :: acc)
      | 47 :: r' => parse_string_body r' (47 :: acc)
      | 98 :: r' => parse_string_body r' (8 :: acc)
      | 102 :: r' => parse_string_body r' (12 :: acc)
      | 110 :: r' => parse_string_body r' (10 :: acc)
      | 114 :: r' => parse_string_body r' (13 :: acc)
      | 116 :: r' => parse_string_body r' (9 :: acc)
      | 117 :: a :: b :: c :: d :: r' =>
          match hex_value a, hex_value b, hex_value c, hex_value d with
          | Some a', Some b', Some c', Some d' =>
              parse_string_body r' ((((a' * 16 + b') * 16 + c') * 16 + d') :: acc)
          | _, _, _, _ => None
          end
      | _ => None
      end
  | c :: r => if c <? 32 then None else parse_string_body r (c :: acc)
  end.

Definition parse_key (s : jstr) : option (jstr * jstr) :=
  match skip_ws s with 34 :: r => parse_string_body r [] | _ => None end.

(** JSON text grammar; [fuel] bounds the nesting depth and the number of
    members, each of which consumes input. *)
Fixpoint parse_value (fuel : nat) (s : jstr) : option (json * jstr) :=
  match fuel with
  | O => None
  | S f =>
      let fix items (g : nat) (t : jstr) (acc : list json) : option (json * jstr) :=
        match g with
        | O => None
        | S g' =>
            match parse_value f t with
            | None => None
            | Some (v, t1) =>
                match skip_ws t1 with
                | 44 :: t2 => items g' t2 (v :: acc)
                | 93 :: t2 => Some (JArr (rev (v :: acc)), t2)
                | _ => None
                end
            end
        end in
      let fix members (g : nat) (t : jstr) (acc : list (jstr * json)) : option (json * jstr) :=
        match g with
        | O => None
        | S g' =>
            match parse_key t with
            | None => None
            | Some (k, t1) =>
                match skip_ws t1 with
                | 58 :: t2 =>
                    match parse_value f t2 with
                    | None => None
                    | Some (v, t3) =>
                        match skip_ws t3 with
                        | 44 :: t4 => members g' t4 ((k, v) :: acc)
                        | 125 :: t4 => Some (JObj (rev ((k, v) :: acc)), t4)
                        | _ => None
                        end
                    end
                | _ => None
                end
            end
        end in
      match skip_ws s with
      | 123 :: r => match skip_ws r with
                    | 125 :: r' => Some (JObj [], r')
                    | _ => members f r []
                    end
      | 91 :: r => match skip_ws r with
                   | 93 :: r' => Some (JArr [], r')
                   | _ => items f r []
                   end
      | 34 :: r => option_map (fun '(str, r') => (JStr str, r')) (parse_string_body r [])
      | 116 :: 114 :: 117 :: 101 :: r => Some (JBool true, r)
      | 102 :: 97 :: 108 :: 115 :: 101 :: r => Some (JBool false, r)
      | 110 :: 117 :: 108 :: 108 :: r => Some (JNull, r)
      | t => parse_number t
      end
  end.

(** [JSON.parse(text)]: [None] when it throws a [SyntaxError]. *)
Definition JSON_parse (text : jstr) : option json :=
  match parse_value (S (length text)) text with
  | Some (v, r) => match skip_ws r with [] => Some v | _ => None end
  | None => None
  end.

(** ToBoolean *)
Definition truthy (v : json) : bool :=
  match v with
  | JNull => false
  | JBool b => b
  | JNum z => negb z
  | JStr s => match s with [] => false | _ => true end
  | JArr _ | JObj _ => true
  end.

(** The own property [key] of an object built by [JSON.parse]: the last
    member with that key. *)
Definition last_member (key : jstr) (l : list (jstr * json)) : option json :=
  fold_left (fun acc '(k, v) => if jstr_eqb k key then Some v else acc) l None.

(** [try { const json = JSON.parse(header); if (json.files) ... } catch {}]:
    whether the branch is taken.  [null.files] throws a [TypeError], which the
    empty [catch] swallows; other primitives and arrays have no [files]. *)
Definition json_files_truthy (header : jstr) : bool :=
  match JSON_parse header with
  | Some (JObj l) => match last_member (lit "files") l with Some v => truthy v | None => false end
  | _ => false
  end.

(* ------------------------------------------------------------------------- *)
(** ** Reading integers out of buffers (Buffer methods and strtok3 tokens) *)

Definition buf_len (bs : list byte) : Z := Z.of_nat (length bs).

(** The [n] bytes at [off], or [None] when they are not all in range (the
    Buffer and DataView readers throw a [RangeError] there). *)
Definition bytes_at (bs : list byte) (off n : Z) : option (list byte) :=
  if (off <? 0) || (buf_len bs <? off + n) then None else Some (slice bs off (off + n)).

Definition le_value (bs : list byte) : Z := fold_right (fun b acc => bz b + 256 * acc) 0 bs.
Definition be_value (bs : list byte) : Z := fold_left (fun acc b => acc * 256 + bz b) bs 0.

Definition read_le (bs : list byte) (off n : Z) : option Z := option_map le_value (bytes_at bs off n).
Definition read_be (bs : list byte) (off n : Z) : option Z := option_map be_value (bytes_at bs off n).

(** [buf.readUIntBE(offset, byteLength)]: a [RangeError] unless
    [1 <= byteLength <= 6] and the bytes are in range. *)
Definition readUIntBE (bs : list byte) (off n : Z) : option Z :=
  if (1 <=? n) && (n <=? 6) then read_be bs off n else None.

(** The getters of the numeric tokens, applied by [readToken] to a buffer of
    exactly [token.len] bytes at offset 0, where they are in range. *)
Definition UINT16_LE_get (bs : list byte) : Z := le_value (firstn 2 bs).
Definition UINT16_BE_get (bs : list byte) : Z := be_value (firstn 2 bs).
Definition UINT32_LE_get (bs : list byte) : Z := le_value (firstn 4 bs).
Definition UINT32_BE_get (bs : list byte) : Z := be_value (firstn 4 bs).
Definition INT32_BE_get (bs : list byte) : Z :=
  let u := be_value (firstn 4 bs) in if 2 ^ 31 <=? u then u - 2 ^ 32 else u.
(** [Number(UINT64_LE.get(...))]: exact below 2^53, which is where the ASF
    walk compares it with buffer positions. *)
Definition UINT64_LE_get (bs : list byte) : Z := le_value (firstn 8 bs).

(* ------------------------------------------------------------------------- *)
(** ** The probe primitive [_check] (index.js, lines 974-993) *)

(** [options = {offset: 0, ...options}]; the loop over [headers.entries()]
    returns [false] at the first index where [header !== (mask[index] &
    buffer[index + offset])] (with a mask) or [header !== buffer[index +
    offset]] (without). *)
Fixpoint check_from (buffer : list byte) (headers : list Z) (offset : Z)
    (mask : option (list Z)) (index : Z) : bool :=
  match headers with
  | [] => true
  | header :: rest =>
      let differs :=
        match mask with
        | Some m => negb (header =? js_and (js_num (idx_num m index)) (js_num (idx buffer (index + offset))))
        | None => js_neq header (idx buffer (index + offset))
        end in
      if differs then false else check_from buffer rest offset mask (index + 1)
  end.

Definition _check (buffer : list byte) (headers : list Z) (offset : Z) (mask : option (list Z)) : bool :=
  check_from buffer headers offset mask 0.

(* ------------------------------------------------------------------------- *)
(** ** The buffer tokenizer (strtok3 BufferTokenizer / AbstractTokenizer) *)

Inductive js_error :=
| EndOfStreamError
| RangeError
| TypeError
| PositionError.   (** ['`options.position` must be equal or greater than `tokenizer.position`'] *)

Definition is_EndOfStreamError (e : js_error) : bool :=
  match e with EndOfStreamError => true | _ => false end.

(** [this.uint8Array], [this.position] and [this.fileInfo.size]. *)
Record tokenizer := mkTok { tk_data : list byte; tk_position : Z; tk_size : Z }.

(** [fromBuffer(uint8Array)]: [fileInfo.size] is set to the length. *)
Definition fromBuffer (u : list byte) : tokenizer := mkTok u 0 (buf_len u).

(** The read options [{position, length, offset, mayBeLess}]; [None] fields
    are absent. *)
Record read_opts := mkOpts {
  ro_position : option Z; ro_length : option Z; ro_offset : option Z; ro_mayBeLess : bool }.

Definition opts_len (n : Z) (mbl : bool) : option read_opts := Some (mkOpts None (Some n) None mbl).
Definition opts_mbl : option read_opts := Some (mkOpts None None None true).
Definition opts_pos (p : Z) : option read_opts := Some (mkOpts (Some p) None None false).

Record norm_opts := mkNorm { no_mayBeLess : bool; no_offset : Z; no_length : Z; no_position : Z }.

(** [x ? x : d] for an optional number. *)
Definition or_else (x : option Z) (d : Z) : Z :=
  match x with Some z => if z =? 0 then d else z | None => d end.

(** [AbstractTokenizer.normalizeOptions(uint8Array, options)] *)
Definition normalizeOptions (t : tokenizer) (buflen : Z) (options : option read_opts)
    : js_error + norm_opts :=
  match options with
  | Some o =>
      let off := or_else (ro_offset o) 0 in
      let norm := mkNorm (ro_mayBeLess o) off (or_else (ro_length o) (buflen - off))
                         (or_else (ro_position o) (tk_position t)) in
      match ro_position o with
      | Some p => if p <? tk_position t then inl PositionError else inr norm
      | None => inr norm
      end
  | None => inr (mkNorm false 0 buflen (tk_position t))
  end.

(** [u.subarray(begin, end)]: negative indices count from the end; both are
    clamped to [0, length]. *)
Definition subarray (u : list byte) (b e : Z) : list byte :=
  let len := buf_len u in
  let rel := fun x => if x <? 0 then Z.max (len + x) 0 else Z.min x len in
  slice u (rel b) (Z.max (rel b) (rel e)).

(** [target.set(src, offset)]: a [RangeError] when [src] does not fit. *)
Definition typed_set (target src : list byte) (offset : Z) : option (list byte) :=
  if (offset <? 0) || (buf_len target <? offset + buf_len src) then None
  else Some (firstn (Z.to_nat offset) target ++ src
             ++ skipn (Z.to_nat (offset + buf_len src)) target).

(** [BufferTokenizer.peekBuffer(uint8Array, options)]: the number of bytes
    peeked and the new contents of [uint8Array]. *)
Definition tk_peekBuffer (t : tokenizer) (target : list byte) (options : option read_opts)
    : js_error + (Z * list byte) :=
  match normalizeOptions t (buf_len target) options with
  | inl e => inl e
  | inr n =>
      let bytes2read := Z.min (buf_len (tk_data t) - no_position n) (no_length n) in
      if negb (no_mayBeLess n) && (bytes2read <? no_length n) then inl EndOfStreamError
      else match typed_set target (subarray (tk_data t) (no_position n) (no_position n + bytes2read))
                           (no_offset n) with
           | Some target' => inr (bytes2read, target')
           | None => inl RangeError
           end
  end.

Definition set_position (t : tokenizer) (p : Z) : tokenizer := mkTok (tk_data t) p (tk_size t).

(** [BufferTokenizer.readBuffer(uint8Array, options)]: the tokenizer is
    returned with the error too, since [this.position] may already have been
    assigned when [peekBuffer] throws. *)
Definition tk_readBuffer (t : tokenizer) (target : list byte) (options : option read_opts)
    : (js_error * tokenizer) + (Z * list byte * tokenizer) :=
  let t1 :=
    match options with
    | Some o =>
        match ro_position o with
        | Some p => if p =? 0 then inr t
                    else if p <? tk_position t then inl (PositionError, t)
                    else inr (set_position t p)
        | None => inr t
        end
    | None => inr t
    end in
  match t1 with
  | inl err => inl err
  | inr t1 =>
      match tk_peekBuffer t1 target options with
      | inl e => inl (e, t1)
      | inr (bytesRead, target') => inr (bytesRead, target', set_position t1 (tk_position t1 + bytesRead))
      end
  end.

(** [AbstractTokenizer.ignore(length)]; [fileInfo.size] is always defined for
    a buffer tokenizer. *)
Definition tk_ignore (t : tokenizer) (length : Z) : Z * tokenizer :=
  let bytesLeft := tk_size t - tk_position t in
  if bytesLeft <? length then (bytesLeft, set_position t (tk_position t + bytesLeft))
  else (length, set_position t (tk_position t + length)).

(* ------------------------------------------------------------------------- *)
(** ** The dispatcher's state and monad *)

(** The state of a detection: the tokenizer, the parser's sample buffer
    [this.buffer], and a ghost flag [p_walked] (not part of the program) that
    records whether a container walk was entered; nothing in the program
    reads it. *)
Record pstate := mkP { p_tok : tokenizer; p_buffer : list byte; p_walked : bool }.

Inductive res (A : Type) :=
| Ok (a : A) (s : pstate)
| Err (e : js_error) (s : pstate)
| NoFuel.
Arguments Ok {A} a s.
Arguments Err {A} e s.
Arguments NoFuel {A}.

Definition M (A : Type) : Type := pstate -> res A.

Definition ret {A} (a : A) : M A := fun s => Ok a s.
Definition bind {A B} (m : M A) (k : A -> M B) : M B :=
  fun s => match m s with
           | Ok a s' => k a s'
           | Err e s' => Err e s'
           | NoFuel => NoFuel
           end.
Definition throw {A} (e : js_error) : M A := fun s => Err e s.
Definition nofuel {A} : M A := fun _ => NoFuel.
(** [try { m } catch (e) { h(e) }] *)
Definition catch {A} (m : M A) (h : js_error -> M A) : M A :=
  fun s => match m s with
           | Err e s' => h e s'
           | r => r
           end.

Notation "x <- m ;; k" := (bind m (fun x => k)) (at level 61, m at next level, right associativity).
Notation "m ;;; k" := (bind m (fun _ => k)) (at level 61, right associativity).

(** Tokenizer operations on the dispatcher state. *)
Definition get_position : M Z := fun s => Ok (tk_position (p_tok s)) s.
Definition get_size : M Z := fun s => Ok (tk_size (p_tok s)) s.
Definition get_buffer : M (list byte) := fun s => Ok (p_buffer s) s.
Definition set_buffer (b : list byte) : M unit := fun s => Ok tt (mkP (p_tok s) b (p_walked s)).
Definition enter_walk : M unit := fun s => Ok tt (mkP (p_tok s) (p_buffer s) true).

(** [await tokenizer.ignore(n)] *)
Definition ignore (n : Z) : M Z :=
  fun s => let (r, t) := tk_ignore (p_tok s) n in Ok r (mkP t (p_buffer s) (p_walked s)).

(** [await tokenizer.peekBuffer(this.buffer, options)] *)
Definition peek_sample (o : option read_opts) : M Z :=
  fun s => match tk_peekBuffer (p_tok s) (p_buffer s) o with
           | inl e => Err e s
           | inr (n, b) => Ok n (mkP (p_tok s) b (p_walked s))
           end.

(** [await tokenizer.readBuffer(this.buffer, options)] *)
Definition read_sample (o : option read_opts) : M Z :=
  fun s => match tk_readBuffer (p_tok s) (p_buffer s) o with
           | inl (e, t) => Err e (mkP t (p_buffer s) (p_walked s))
           | inr (n, b, t) => Ok n (mkP t b (p_walked s))
           end.

(** [const b = Buffer.alloc(len); await tokenizer.readBuffer(b, options)]:
    the count and the contents of [b]. *)
Definition read_new (len : Z) (o : option read_opts) : M (Z * list byte) :=
  fun s => match tk_readBuffer (p_tok s) (alloc len) o with
           | inl (e, t) => Err e (mkP t (p_buffer s) (p_walked s))
           | inr (n, b, t) => Ok (n, b) (mkP t (p_buffer s) (p_walked s))
           end.

(** [const b = Buffer.alloc(len); await tokenizer.peekBuffer(b, options)] *)
Definition peek_new (len : Z) (o : option read_opts) : M (Z * list byte) :=
  fun s => match tk_peekBuffer (p_tok s) (alloc len) o with
           | inl e => Err e s
           | inr (n, b) => Ok (n, b) s
           end.

(** [AbstractTokenizer.readToken(token, position = this.position)]: the
    [token.len] bytes read (the caller applies [token.get] to them). *)
Definition readToken (len : Z) : M (list byte) :=
  p <- get_position ;;
  r <- read_new len (opts_pos p) ;;
  if fst r <? len then throw EndOfStreamError else ret (snd r).

(** [AbstractTokenizer.peekNumber(UINT8)]: [peekBuffer(this.numBuffer,
    {length: 1})] and [numBuffer[0]]; only that element is written and read,
    so the 8-byte [numBuffer] is a fresh buffer here. *)
Definition peekNumber_UINT8 : M Z :=
  r <- peek_new 8 (opts_len 1 false) ;;
  if fst r <? 1 then throw EndOfStreamError else ret (js_num (idx (snd r) 0)).

(** [tokenizer.position + k < tokenizer.fileInfo.size] and
    [tokenizer.position + k > tokenizer.fileInfo.size] *)
Definition pos_plus_lt_size (k : Z) : M bool :=
  p <- get_position ;; sz <- get_size ;; ret (p + k <? sz).
Definition pos_plus_gt_size (k : Z) : M bool :=
  p <- get_position ;; sz <- get_size ;; ret (sz <? p + k).

(** [this.check(header, {offset, mask})] and [this.checkString(header, {offset})] *)
Definition check_m (header : list Z) (offset : Z) (mask : option (list Z)) : M bool :=
  b <- get_buffer ;; ret (_check b header offset mask).
Definition check (header : list Z) : M bool := check_m header 0 None.
Definition check_at (header : list Z) (offset : Z) : M bool := check_m header offset None.
Definition checkString (header : string) : M bool := check_m (stringToBytes header) 0 None.
Definition checkString_at (header : string) (offset : Z) : M bool :=
  check_m (stringToBytes header) offset None.

(** [a || b] and [a && b] on probes, evaluated left to right with short
    circuit. *)
Definition orM (a b : M bool) : M bool := x <- a ;; if x then ret true else b.
Definition andM (a b : M bool) : M bool := x <- a ;; if x then b else ret false.

(** [this.buffer[i]] *)
Definition buffer_at (i : Z) : M (option Z) := b <- get_buffer ;; ret (idx b i).

(* ------------------------------------------------------------------------- *)
(** ** Detection results and the exported catalogs *)

Record ftype := ft { ext : string; mime : string }.
Arguments ft ext%_string mime%_string.
Arguments lit s%_string.
Arguments str_is a s%_string.
Arguments startsWith a p%_string.
Arguments endsWith a p%_string.
Arguments checkString header%_string.
Arguments checkString_at header%_string offset.

(** [if (c) { return {ext, mime}; } k] *)
Definition probe (c : M bool) (r : ftype) (k : M (option ftype)) : M (option ftype) :=
  x <- c ;; if x then ret (Some r) else k.

Definition found (r : ftype) : M (option ftype) := ret (Some r).
Definition none : M (option ftype) := ret None.

(** [const extensions = [...]] and [const mimeTypes = [...]] (index.js,
    lines 670-947); [supportedExtensions = new Set(extensions)] and
    [supportedMimeTypes = new Set(mimeTypes)]. *)
Definition extensions : list string := [
  "jpg"; "png"; "apng"; "gif"; "webp"; "flif"; "xcf"; "cr2"; "cr3"; "orf"; "arw"; "dng";
  "nef"; "rw2"; "raf"; "tif"; "bmp"; "icns"; "jxr"; "psd"; "indd"; "zip"; "tar"; "rar";
  "gz"; "bz2"; "7z"; "dmg"; "mp4"; "mid"; "mkv"; "webm"; "mov"; "avi"; "mpg"; "mp2";
  "mp3"; "m4a"; "oga"; "ogg"; "ogv"; "opus"; "flac"; "wav"; "spx"; "amr"; "pdf"; "epub";
  "elf"; "exe"; "swf"; "rtf"; "wasm"; "woff"; "woff2"; "eot"; "ttf"; "otf"; "ico"; "flv";
  "ps"; "xz"; "sqlite"; "nes"; "crx"; "xpi"; "cab"; "deb"; "ar"; "rpm"; "Z"; "lz"; "cfb";
  "mxf"; "mts"; "blend"; "bpg"; "docx"; "pptx"; "xlsx"; "3gp"; "3g2"; "jp2"; "jpm";
  "jpx"; "mj2"; "aif"; "qcp"; "odt"; "ods"; "odp"; "xml"; "mobi"; "heic"; "cur"; "ktx";
  "ape"; "wv"; "dcm"; "ics"; "glb"; "pcap"; "dsf"; "lnk"; "alias"; "voc"; "ac3"; "m4v";
  "m4p"; "m4b"; "f4v"; "f4p"; "f4b"; "f4a"; "mie"; "asf"; "ogm"; "ogx"; "mpc"; "arrow";
  "shp"; "aac"; "mp1"; "it"; "s3m"; "xm"; "ai"; "skp"; "avif"; "eps"; "lzh"; "pgp";
  "asar"; "stl"; "chm"; "3mf"; "zst"; "jxl"; "vcf"]%string.

Definition mimeTypes : list string := [
  "image/jpeg"; "image/png"; "image/gif"; "image/webp"; "image/flif"; "image/x-xcf";
  "image/x-canon-cr2"; "image/x-canon-cr3"; "image/tiff"; "image/bmp";
  "image/vnd.ms-photo"; "image/vnd.adobe.photoshop"; "application/x-indesign";
  "application/epub+zip"; "application/x-xpinstall";
  "application/vnd.oasis.opendocument.text";
  "application/vnd.oasis.opendocument.spreadsheet";
  "application/vnd.oasis.opendocument.presentation";
  "application/vnd.openxmlformats-officedocument.wordprocessingml.document";
  "application/vnd.openxmlformats-officedocument.presentationml.presentation";
  "application/vnd.openxmlformats-officedocument.spreadsheetml.sheet"; "application/zip";
  "application/x-tar"; "application/x-rar-compressed"; "application/gzip";
  "application/x-bzip2"; "application/x-7z-compressed"; "application/x-apple-diskimage";
  "application/x-apache-arrow"; "video/mp4"; "audio/midi"; "video/x-matroska";
  "video/webm"; "video/quicktime"; "video/vnd.avi"; "audio/vnd.wave"; "audio/qcelp";
  "audio/x-ms-asf"; "video/x-ms-asf"; "application/vnd.ms-asf"; "video/mpeg";
  "video/3gpp"; "audio/mpeg"; "audio/mp4"; "audio/opus"; "video/ogg"; "audio/ogg";
  "application/ogg"; "audio/x-flac"; "audio/ape"; "audio/wavpack"; "audio/amr";
  "application/pdf"; "application/x-elf"; "application/x-msdownload";
  "application/x-shockwave-flash"; "application/rtf"; "application/wasm"; "font/woff";
  "font/woff2"; "application/vnd.ms-fontobject"; "font/ttf"; "font/otf"; "image/x-icon";
  "video/x-flv"; "application/postscript"; "application/eps"; "application/x-xz";
  "application/x-sqlite3"; "application/x-nintendo-nes-rom";
  "application/x-google-chrome-extension"; "application/vnd.ms-cab-compressed";
  "application/x-deb"; "application/x-unix-archive"; "application/x-rpm";
  "application/x-compress"; "application/x-lzip"; "application/x-cfb";
  "application/x-mie"; "application/mxf"; "video/mp2t"; "application/x-blender";
  "image/bpg"; "image/jp2"; "image/jpx"; "image/jpm"; "image/mj2"; "audio/aiff";
  "application/xml"; "application/x-mobipocket-ebook"; "image/heif";
  "image/heif-sequence"; "image/heic"; "image/heic-sequence"; "image/icns"; "image/ktx";
  "application/dicom"; "audio/x-musepack"; "text/calendar"; "text/vcard";
  "model/gltf-binary"; "application/vnd.tcpdump.pcap"; "audio/x-dsf";
  "application/x.ms.shortcut"; "application/x.apple.alias"; "audio/x-voc";
  "audio/vnd.dolby.dd-raw"; "audio/x-m4a"; "image/apng"; "image/x-olympus-orf";
  "image/x-sony-arw"; "image/x-adobe-dng"; "image/x-nikon-nef"; "image/x-panasonic-rw2";
  "image/x-fujifilm-raf"; "video/x-m4v"; "video/3gpp2"; "application/x-esri-shape";
  "audio/aac"; "audio/x-it"; "audio/x-s3m"; "audio/x-xm"; "video/MP1S"; "video/MP2P";
  "application/vnd.sketchup.skp"; "image/avif"; "application/x-lzh-compressed";
  "application/pgp-encrypted"; "application/x-asar"; "model/stl";
  "application/vnd.ms-htmlhelp"; "model/3mf"; "image/jxl"; "application/zstd"]%string.

Definition supportedExtensions (e : string) : bool := existsb (String.eqb e) extensions.
Definition supportedMimeTypes (m : string) : bool := existsb (String.eqb m) mimeTypes.

(* ------------------------------------------------------------------------- *)
(** ** Sub-walkers of the dispatcher *)

(** [FileTypeParser.readTiffTag(bigEndian)]; its [this.tokenizer.ignore(10)]
    is not awaited, and takes effect at once. *)
Definition readTiffTag (bigEndian : bool) : M (option ftype) :=
  tagId <- readToken 2 ;;
  let tagId := (if bigEndian then UINT16_BE_get else UINT16_LE_get) tagId in
  ignore 10 ;;;
  if tagId =? 50341 then found (ft "arw" "image/x-sony-arw")
  else if tagId =? 50706 then found (ft "dng" "image/x-adobe-dng")
  else none.

(** [for (let n = 0; n < numberOfTags; ++n) { ... }], [k] iterations left. *)
Fixpoint tiff_tags (k : nat) (bigEndian : bool) : M (option ftype) :=
  match k with
  | O => none
  | S k' =>
      fileType <- readTiffTag bigEndian ;;
      match fileType with
      | Some _ => ret fileType
      | None => tiff_tags k' bigEndian
      end
  end.

(** [FileTypeParser.readTiffIFD(bigEndian)] *)
Definition readTiffIFD (bigEndian : bool) : M (option ftype) :=
  n <- readToken 2 ;;
  let numberOfTags := (if bigEndian then UINT16_BE_get else UINT16_LE_get) n in
  tiff_tags (Z.to_nat numberOfTags) bigEndian.

(** [FileTypeParser.readTiffHeader(bigEndian)]; the two getters read
    [this.buffer] (4100 bytes) in range. *)
Definition readTiffHeader (bigEndian : bool) : M (option ftype) :=
  b <- get_buffer ;;
  let version := js_num ((if bigEndian then read_be else read_le) b 2 2) in
  let ifdOffset := js_num ((if bigEndian then read_be else read_le) b 4 4) in
  if version =? 42 then
    let rest :=
      enter_walk ;;;
      ignore ifdOffset ;;;
      fileType <- readTiffIFD false ;;
      match fileType with
      | Some _ => ret fileType
      | None => found (ft "tif" "image/tiff")
      end in
    if 6 <=? ifdOffset then
      probe (checkString_at "CR" 8) (ft "cr2" "image/x-canon-cr2")
      (probe (andM (ret (8 <=? ifdOffset))
                   (orM (check_at [28; 0; 254; 0] 8) (check_at [31; 0; 11; 0] 8)))
             (ft "nef" "image/x-nikon-nef") rest)
    else rest
  else if version =? 43 then found (ft "tif" "image/tiff")
  else none.

(** The PNG chunk walk, lines 1890-1934: [do { ... } while (tokenizer.position
    + 8 < tokenizer.fileInfo.size)]. *)
Fixpoint png_loop (fuel : nat) : M (option ftype) :=
  match fuel with
  | O => nofuel
  | S f =>
      l <- readToken 4 ;;
      let length := INT32_BE_get l in
      ty <- readToken 4 ;;
      let type := decode_latin1 ty in
      if length <? 0 then none
      else if str_is type "IDAT" then found (ft "png" "image/png")
      else if str_is type "acTL" then found (ft "apng" "image/apng")
      else
        ignore (length + 4) ;;;
        c <- pos_plus_lt_size 8 ;;
        if c then png_loop f else found (ft "png" "image/png")
  end.

Definition png_walk (fuel : nat) : M (option ftype) :=
  ignore 8 ;;; png_loop fuel.

(** The resynchronisation loop of the ZIP walk: [while (nextHeaderIndex < 0
    && (tokenizer.position < tokenizer.fileInfo.size)) { ... }]. *)
Fixpoint zip_seek (fuel : nat) (nextHeaderIndex : Z) : M unit :=
  match fuel with
  | O => nofuel
  | S f =>
      if nextHeaderIndex <? 0 then
        c <- pos_plus_lt_size 0 ;;
        if c then
          peek_sample opts_mbl ;;;
          b <- get_buffer ;;
          let i := buf_indexOf b [x50; x4b; x03; x04] in
          ignore (if 0 <=? i then i else buf_len b) ;;;
          zip_seek f i
        else ret tt
      else ret tt
  end.

(** The local file headers walk of the ZIP branch, lines 1210-1325:
    [Some r] is a [return r] from inside the loop, [None] the loop's exit. *)
Fixpoint zip_loop (fuel : nat) : M (option ftype) :=
  match fuel with
  | O => nofuel
  | S f =>
      c <- pos_plus_lt_size 30 ;;
      if negb c then ret None else
      read_sample (opts_len 30 false) ;;;
      b <- get_buffer ;;
      let compressedSize := js_num (read_le b 18 4) in
      let uncompressedSize := js_num (read_le b 22 4) in
      let filenameLength := js_num (read_le b 26 2) in
      let extraFieldLength := js_num (read_le b 28 2) in
      fn <- readToken filenameLength ;;
      let filename := decode_utf8 fn in
      ignore extraFieldLength ;;;
      if str_is filename "META-INF/mozilla.rsa" then found (ft "xpi" "application/x-xpinstall") else
      let type := split_slash_0 filename in
      if (endsWith filename ".rels" || endsWith filename ".xml")
         && str_is type "word" then
        found (ft "docx" "application/vnd.openxmlformats-officedocument.wordprocessingml.document") else
      if (endsWith filename ".rels" || endsWith filename ".xml")
         && str_is type "ppt" then
        found (ft "pptx" "application/vnd.openxmlformats-officedocument.presentationml.presentation") else
      if (endsWith filename ".rels" || endsWith filename ".xml")
         && str_is type "xl" then
        found (ft "xlsx" "application/vnd.openxmlformats-officedocument.spreadsheetml.sheet") else
      if startsWith filename "xl/" then
        found (ft "xlsx" "application/vnd.openxmlformats-officedocument.spreadsheetml.sheet") else
      if startsWith filename "3D/" && endsWith filename ".model" then
        found (ft "3mf" "model/3mf") else
      let rest :=
        (if compressedSize =? 0 then zip_seek f (-1) else ignore compressedSize ;;; ret tt) ;;;
        zip_loop f in
      if str_is filename "mimetype" && (compressedSize =? uncompressedSize) then
        mt <- readToken compressedSize ;;
        let mimeType := trim (decode_utf8 mt) in
        if str_is mimeType "application/epub+zip" then found (ft "epub" "application/epub+zip")
        else if str_is mimeType "application/vnd.oasis.opendocument.text" then
          found (ft "odt" "application/vnd.oasis.opendocument.text")
        else if str_is mimeType "application/vnd.oasis.opendocument.spreadsheet" then
          found (ft "ods" "application/vnd.oasis.opendocument.spreadsheet")
        else if str_is mimeType "application/vnd.oasis.opendocument.presentation" then
          found (ft "odp" "application/vnd.oasis.opendocument.presentation")
        else rest
      else rest
  end.

(** [try { while (...) { ... } } catch (error) { if (!(error instanceof
    EndOfStreamError)) throw error; } return {ext: 'zip', ...}] *)
Definition zip_walk (fuel : nat) : M (option ftype) :=
  r <- catch (zip_loop fuel)
             (fun e => if is_EndOfStreamError e then ret None else throw e) ;;
  match r with
  | Some _ => ret r
  | None => found (ft "zip" "application/zip")
  end.

(** The EBML walk, lines 1594-1653. *)

(** [while ((msb & mask) === 0 && mask !== 0) { ++ic; mask >>= 1; }]: at
    most 8 iterations, so 9 rounds of the test. *)
Fixpoint ebml_width (k : nat) (msb mask ic : Z) : Z :=
  match k with
  | O => ic
  | S k' =>
      if (js_and msb mask =? 0) && negb (mask =? 0)
      then ebml_width k' msb (js_shr mask 1) (ic + 1)
      else ic
  end.

(** [readField()]: [id = Buffer.alloc(ic + 1); await tokenizer.readBuffer(id)] *)
Definition readField : M (list byte) :=
  msb <- peekNumber_UINT8 ;;
  let ic := ebml_width 9 msb 128 0 in
  r <- read_new (ic + 1) None ;;
  ret (snd r).

(** [lengthField[0] ^= 0x80 >> (lengthField.length - 1)]: a Uint8Array
    store, so the value is taken modulo 256. *)
Definition xor_first (lf : list byte) (v : Z) : list byte :=
  match lf with
  | [] => []
  | b :: t => byte_of_Z (js_xor (bz b) v) :: t
  end.

(** [readElement()]: [{id, len}]; [readUIntBE] throws a [RangeError] for a
    field longer than 6 bytes. *)
Definition readElement : M (Z * Z) :=
  id <- readField ;;
  lengthField <- readField ;;
  let lengthField := xor_first lengthField (js_shr 128 (buf_len lengthField - 1)) in
  let nrLength := Z.min 6 (buf_len lengthField) in
  match readUIntBE id 0 (buf_len id) with
  | None => throw RangeError
  | Some i =>
      match readUIntBE lengthField (buf_len lengthField - nrLength) nrLength with
      | None => throw RangeError
      | Some l => ret (i, l)
      end
  end.

(** [readChildren(children)]: [None] is the [undefined] of a loop that ends
    without meeting the DocType element (id 0x4282). *)
Fixpoint readChildren (fuel : nat) (children : Z) : M (option jstr) :=
  match fuel with
  | O => nofuel
  | S f =>
      if 0 <? children then
        element <- readElement ;;
        if fst element =? 17026 then
          rawValue <- readToken (snd element) ;;
          ret (Some (strip_nul_tail (decode_utf8 rawValue)))
        else
          ignore (snd element) ;;;
          readChildren f (children - 1)
      else ret None
  end.

Definition ebml_walk (fuel : nat) : M (option ftype) :=
  re <- readElement ;;
  docType <- readChildren fuel (snd re) ;;
  match docType with
  | Some d =>
      if str_is d "webm" then found (ft "webm" "video/webm")
      else if str_is d "matroska" then found (ft "mkv" "video/x-matroska")
      else none
  | None => none
  end.

(** The ASF header walk, lines 1989-2034: [Some r] is a [return r] from
    inside the loop, [None] its [break] or its exit. *)
Fixpoint asf_loop (fuel : nat) : M (option ftype) :=
  match fuel with
  | O => nofuel
  | S f =>
      c <- pos_plus_lt_size 24 ;;
      if negb c then ret None else
      g <- read_new 16 None ;;
      let id := snd g in
      sz <- readToken 8 ;;
      let payload := UINT64_LE_get sz - 24 in
      if _check id [145; 7; 220; 183; 183; 169; 207; 17; 142; 230; 0; 192; 12; 32; 83; 101] 0 None then
        t <- read_new 16 None ;;
        let typeId := snd t in
        if _check typeId [64; 158; 105; 248; 77; 91; 207; 17; 168; 253; 0; 128; 95; 92; 68; 43] 0 None then
          found (ft "asf" "audio/x-ms-asf")
        else if _check typeId [192; 239; 25; 188; 77; 91; 207; 17; 168; 253; 0; 128; 95; 92; 68; 43] 0 None then
          found (ft "asf" "video/x-ms-asf")
        else ret None
      else
        ignore payload ;;;
        asf_loop f
  end.

Definition asf_walk (fuel : nat) : M (option ftype) :=
  ignore 30 ;;;
  r <- asf_loop fuel ;;
  match r with
  | Some _ => ret r
  | None => found (ft "asf" "application/vnd.ms-asf")
  end.

(* ------------------------------------------------------------------------- *)
(** ** [FileTypeParser.parse(tokenizer)], in source order

    The body of [parse] is cut into consecutive pieces, each ending in the
    next one.  [rec] stands for a fresh [parse] of the same tokenizer: both
    [this.parse(tokenizer)] (UTF-8 BOM) and [fileTypeFromTokenizer(tokenizer)]
    (ID3) start one, and [parse] allocates a new [this.buffer] either way.  The
    promise returned by [fileTypeFromTokenizer] is the inner [parse] promise,
    whose rejection its [try] does not see, so [rec] stands for it too.  The
    ghost [enter_walk] marks the entries of container walks. *)

(** Lines 1026-1205: two-, three- and four-byte signatures up to [icns]. *)
Definition parse_head (rec : M (option ftype)) (k : M (option ftype)) : M (option ftype) :=
  probe (check [66; 77]) (ft "bmp" "image/bmp") (
  probe (check [11; 119]) (ft "ac3" "audio/vnd.dolby.dd-raw") (
  probe (check [120; 1]) (ft "dmg" "application/x-apple-diskimage") (
  probe (check [77; 90]) (ft "exe" "application/x-msdownload") (
  c <- check [37; 33] ;;
  if c then
    peek_sample (opts_len 24 true) ;;;
    probe (andM (checkString_at "PS-Adobe-" 2) (checkString_at " EPSF-" 14))
          (ft "eps" "application/eps")
          (found (ft "ps" "application/postscript"))
  else
  probe (orM (check [31; 160]) (check [31; 157])) (ft "Z" "application/x-compress") (
  c <- check [239; 187; 191] ;;
  if c then
    enter_walk ;;;
    ignore 3 ;;;
    rec
  else
  probe (check [71; 73; 70]) (ft "gif" "image/gif") (
  probe (check [255; 216; 255]) (ft "jpg" "image/jpeg") (
  probe (check [73; 73; 188]) (ft "jxr" "image/vnd.ms-photo") (
  probe (check [31; 139; 8]) (ft "gz" "application/gzip") (
  probe (check [66; 90; 104]) (ft "bz2" "application/x-bzip2") (
  c <- checkString "ID3" ;;
  if c then
    enter_walk ;;;
    ignore 6 ;;;
    t <- readToken uint32SyncSafeToken_len ;;
    let id3HeaderLength := uint32SyncSafeToken_get t 0 in
    g <- pos_plus_gt_size id3HeaderLength ;;
    if g then found (ft "mp3" "audio/mpeg")
    else
      ignore id3HeaderLength ;;;
      rec
  else
  probe (checkString "MP+") (ft "mpc" "audio/x-musepack") (
  b0 <- buffer_at 0 ;;
  probe (andM (ret (negb (js_neq 67 b0) || negb (js_neq 70 b0))) (check_at [87; 83] 1))
        (ft "swf" "application/x-shockwave-flash") (
  probe (checkString "FLIF") (ft "flif" "image/flif") (
  probe (checkString "8BPS") (ft "psd" "image/vnd.adobe.photoshop") (
  probe (checkString_at "WEBP" 8) (ft "webp" "image/webp") (
  probe (checkString "MPCK") (ft "mpc" "audio/x-musepack") (
  probe (checkString "FORM") (ft "aif" "audio/aiff") (
  probe (checkString "icns") (ft "icns" "image/icns") k))))))))))))))))).

(** [switch (brandMajor)] of the [ftyp] branch, lines 1395-1447. *)
Definition ftyp_brand (brandMajor : jstr) : ftype :=
  if str_is brandMajor "avif" || str_is brandMajor "avis" then ft "avif" "image/avif"
  else if str_is brandMajor "mif1" then ft "heic" "image/heif"
  else if str_is brandMajor "msf1" then ft "heic" "image/heif-sequence"
  else if str_is brandMajor "heic" || str_is brandMajor "heix" then ft "heic" "image/heic"
  else if str_is brandMajor "hevc" || str_is brandMajor "hevx" then ft "heic" "image/heic-sequence"
  else if str_is brandMajor "qt" then ft "mov" "video/quicktime"
  else if str_is brandMajor "M4V" || str_is brandMajor "M4VH" || str_is brandMajor "M4VP" then ft "m4v" "video/x-m4v"
  else if str_is brandMajor "M4P" then ft "m4p" "video/mp4"
  else if str_is brandMajor "M4B" then ft "m4b" "audio/mp4"
  else if str_is brandMajor "M4A" then ft "m4a" "audio/x-m4a"
  else if str_is brandMajor "F4V" then ft "f4v" "video/mp4"
  else if str_is brandMajor "F4P" then ft "f4p" "video/mp4"
  else if str_is brandMajor "F4A" then ft "f4a" "audio/mp4"
  else if str_is brandMajor "F4B" then ft "f4b" "audio/mp4"
  else if str_is brandMajor "crx" then ft "cr3" "image/x-canon-cr3"
  else if startsWith brandMajor "3g" then
    (if startsWith brandMajor "3g2" then ft "3g2" "video/3gpp2" else ft "3gp" "video/3gpp")
  else ft "mp4" "video/mp4".

(** [const type = Buffer.alloc(8); await tokenizer.readBuffer(type)] and the
    OGG codec probes, lines 1331-1386. *)
Definition ogg_walk : M (option ftype) :=
  ignore 28 ;;;
  r <- read_new 8 None ;;
  let type := snd r in
  if _check type [79; 112; 117; 115; 72; 101; 97; 100] 0 None then found (ft "opus" "audio/opus")
  else if _check type [128; 116; 104; 101; 111; 114; 97] 0 None then found (ft "ogv" "video/ogg")
  else if _check type [1; 118; 105; 100; 101; 111; 0] 0 None then found (ft "ogm" "video/ogg")
  else if _check type [127; 70; 76; 65; 67] 0 None then found (ft "oga" "audio/ogg")
  else if _check type [83; 112; 101; 101; 120; 32; 32] 0 None then found (ft "spx" "audio/ogg")
  else if _check type [1; 118; 111; 114; 98; 105; 115] 0 None then found (ft "ogg" "audio/ogg")
  else found (ft "ogx" "application/ogg").

(** [this.buffer[i] === v1 || this.buffer[i] === v2 || ...] *)
Definition buffer_in (i : Z) (vs : list Z) : M bool :=
  b <- buffer_at i ;; ret (existsb (fun v => negb (js_neq v b)) vs).

(** Lines 1206-1393: the ZIP walk, OGG, the other PK signatures and [ftyp]. *)
Definition parse_zip_ftyp (fuel : nat) (k : M (option ftype)) : M (option ftype) :=
  c <- check [80; 75; 3; 4] ;;
  if c then enter_walk ;;; zip_walk fuel else
  c <- checkString "OggS" ;;
  if c then ogg_walk else
  probe (andM (check [80; 75]) (andM (buffer_in 2 [3; 5; 7]) (buffer_in 3 [4; 6; 8])))
        (ft "zip" "application/zip") (
  c <- andM (checkString_at "ftyp" 4)
            (b8 <- buffer_at 8 ;; ret (negb (js_and (js_num b8) 96 =? 0))) ;;
  if c then
    b <- get_buffer ;;
    found (ftyp_brand (trim (replace_first_nul (decode_latin1 (slice b 8 12)))))
  else k).

(** The PDF branch, lines 1527-1547: [Buffer.alloc(Math.min(maxBufferSize,
    tokenizer.fileInfo.size))] filled by [readBuffer(buffer, {mayBeLess:
    true})], then [buffer.includes(Buffer.from('AIPrivateData'))]. *)
Definition pdf_walk : M (option ftype) :=
  ignore 1350 ;;;
  sz <- get_size ;;
  r <- read_new (Z.min (10 * 1024 * 1024) sz) opts_mbl ;;
  if buf_includes (snd r) (map byte_of_Z (lit "AIPrivateData"))
  then found (ft "ai" "application/postscript")
  else found (ft "pdf" "application/pdf").

(** [const fileType = await this.readTiffHeader(bigEndian); if (fileType)
    return fileType;] *)
Definition tiff_probe (c : M bool) (bigEndian : bool) (k : M (option ftype)) : M (option ftype) :=
  x <- c ;;
  if x then
    fileType <- readTiffHeader bigEndian ;;
    match fileType with Some _ => ret fileType | None => k end
  else k.

(** Lines 1466-1653: MIDI, fonts, pcap, ... [%PDF], [wasm], TIFF, [MAC ] and the
    EBML walk. *)
Definition parse_fonts_ebml (fuel : nat) (k : M (option ftype)) : M (option ftype) :=
  probe (checkString "MThd") (ft "mid" "audio/midi") (
  probe (andM (checkString "wOFF") (orM (check_at [0; 1; 0; 0] 4) (checkString_at "OTTO" 4)))
        (ft "woff" "font/woff") (
  probe (andM (checkString "wOF2") (orM (check_at [0; 1; 0; 0] 4) (checkString_at "OTTO" 4)))
        (ft "woff2" "font/woff2") (
  probe (orM (check [212; 195; 178; 161]) (check [161; 178; 195; 212]))
        (ft "pcap" "application/vnd.tcpdump.pcap") (
  probe (checkString "DSD ") (ft "dsf" "audio/x-dsf") (
  probe (checkString "LZIP") (ft "lz" "application/x-lzip") (
  probe (checkString "fLaC") (ft "flac" "audio/x-flac") (
  probe (check [66; 80; 71; 251]) (ft "bpg" "image/bpg") (
  probe (checkString "wvpk") (ft "wv" "audio/wavpack") (
  c <- checkString "%PDF" ;;
  if c then enter_walk ;;; pdf_walk else
  probe (check [0; 97; 115; 109]) (ft "wasm" "application/wasm") (
  tiff_probe (check [73; 73]) false (
  tiff_probe (check [77; 77]) true (
  probe (checkString "MAC ") (ft "ape" "audio/ape") (
  c <- check [26; 69; 223; 163] ;;
  if c then enter_walk ;;; ebml_walk fuel else k))))))))))))).

(** A probe group with no final [return]: its result if it returned one,
    else the code that follows it. *)
Definition unless_found (m : M (option ftype)) (k : M (option ftype)) : M (option ftype) :=
  r <- m ;; match r with Some _ => ret r | None => k end.

(** [await tokenizer.ignore(8); readToken(new StringType(13, 'ascii'))],
    lines 1858-1872. *)
Definition ar_walk : M (option ftype) :=
  ignore 8 ;;;
  s <- readToken 13 ;;
  if str_is (decode_ascii s) "debian-binary" then found (ft "deb" "application/x-deb")
  else found (ft "ar" "application/x-unix-archive").

(** Lines 1655-1872: RIFF up to the [!<arch>] archives. *)
Definition parse_riff_ar (k : M (option ftype)) : M (option ftype) :=
  unless_found (c <- check [82; 73; 70; 70] ;;
  if c then
     probe (check_at [65; 86; 73] 8) (ft "avi" "video/vnd.avi")
     (probe (check_at [87; 65; 86; 69] 8) (ft "wav" "audio/vnd.wave")
     (probe (check_at [81; 76; 67; 77] 8) (ft "qcp" "audio/qcelp") (ret None)))
   else ret None) (
  probe (checkString "SQLi") (ft "sqlite" "application/x-sqlite3") (
  probe (check [78; 69; 83; 26]) (ft "nes" "application/x-nintendo-nes-rom") (
  probe (checkString "Cr24") (ft "crx" "application/x-google-chrome-extension") (
  probe (orM (checkString "MSCF") (checkString "ISc(")) (ft "cab" "application/vnd.ms-cab-compressed") (
  probe (check [237; 171; 238; 219]) (ft "rpm" "application/x-rpm") (
  probe (check [197; 208; 211; 198]) (ft "eps" "application/eps") (
  probe (check [40; 181; 47; 253]) (ft "zst" "application/zstd") (
  probe (check [127; 69; 76; 70]) (ft "elf" "application/x-elf") (
  probe (check [79; 84; 84; 79; 0]) (ft "otf" "font/otf") (
  probe (checkString "#!AMR") (ft "amr" "audio/amr") (
  probe (checkString "{\rtf") (ft "rtf" "application/rtf") (
  probe (check [70; 76; 86; 1]) (ft "flv" "video/x-flv") (
  probe (checkString "IMPM") (ft "it" "audio/x-it") (
  probe (fold_right (fun s acc => orM (checkString_at s 2) acc) (ret false)
           ["-lh0-"; "-lh1-"; "-lh2-"; "-lh3-"; "-lh4-"; "-lh5-"; "-lh6-"; "-lh7-";
            "-lzs-"; "-lz4-"; "-lz5-"; "-lhd-"]%string)
        (ft "lzh" "application/x-lzh-compressed") (
  unless_found (c <- check [0; 0; 1; 186] ;;
  if c then
     probe (check_m [33] 4 (Some [241])) (ft "mpg" "video/MP1S")
     (probe (check_m [68] 4 (Some [196])) (ft "mpg" "video/MP2P") (ret None))
   else ret None) (
  probe (checkString "ITSF") (ft "chm" "application/vnd.ms-htmlhelp") (
  probe (check [253; 55; 122; 88; 90; 0]) (ft "xz" "application/x-xz") (
  probe (checkString "<?xml ") (ft "xml" "application/xml") (
  probe (check [55; 122; 188; 175; 39; 28]) (ft "7z" "application/x-7z-compressed") (
  probe (andM (check [82; 97; 114; 33; 26; 7]) (buffer_in 6 [0; 1]))
        (ft "rar" "application/x-rar-compressed") (
  probe (checkString "solid ") (ft "stl" "model/stl") (
  probe (checkString "BLENDER") (ft "blend" "application/x-blender") (
  c <- checkString "!<arch>" ;;
  if c then ar_walk else k))))))))))))))))))))))).

(** JPEG-2000: [await tokenizer.ignore(20); readToken(new StringType(4,
    'ascii'))], lines 2062-2092. *)
Definition jp2_walk : M (option ftype) :=
  ignore 20 ;;;
  s <- readToken 4 ;;
  let type := decode_ascii s in
  if str_is type "jp2 " then found (ft "jp2" "image/jp2")
  else if str_is type "jpx " then found (ft "jpx" "image/jpx")
  else if str_is type "jpm " then found (ft "jpm" "image/jpm")
  else if str_is type "mjp2" then found (ft "mj2" "image/mj2")
  else none.

(** Lines 1890-2145: the PNG walk up to [cfb]. *)
Definition parse_png_cfb (fuel : nat) (k : M (option ftype)) : M (option ftype) :=
  c <- check [137; 80; 78; 71; 13; 10; 26; 10] ;;
  if c then enter_walk ;;; png_walk fuel else
  probe (check [65; 82; 82; 79; 87; 49; 0; 0]) (ft "arrow" "application/x-apache-arrow") (
  probe (check [103; 108; 84; 70; 2; 0; 0; 0]) (ft "glb" "model/gltf-binary") (
  probe (orM (check_at [102; 114; 101; 101] 4) (orM (check_at [109; 100; 97; 116] 4)
          (orM (check_at [109; 111; 111; 118] 4) (check_at [119; 105; 100; 101] 4))))
        (ft "mov" "video/quicktime") (
  probe (check [73; 73; 82; 79; 8; 0; 0; 0; 24]) (ft "orf" "image/x-olympus-orf") (
  probe (checkString "gimp xcf ") (ft "xcf" "image/x-xcf") (
  probe (check [73; 73; 85; 0; 24; 0; 0; 0; 136; 231; 116; 216]) (ft "rw2" "image/x-panasonic-rw2") (
  c <- check [48; 38; 178; 117; 142; 102; 207; 17; 166; 217] ;;
  if c then enter_walk ;;; asf_walk fuel else
  probe (check [171; 75; 84; 88; 32; 49; 49; 187; 13; 10; 26; 10]) (ft "ktx" "image/ktx") (
  probe (andM (orM (check [126; 16; 4]) (check [126; 24; 4])) (check_at [48; 77; 73; 69] 4))
        (ft "mie" "application/x-mie") (
  probe (check_at [39; 10; 0; 0; 0; 0; 0; 0; 0; 0; 0; 0] 2) (ft "shp" "application/x-esri-shape") (
  c <- check [0; 0; 0; 12; 106; 80; 32; 32; 13; 10; 135; 10] ;;
  if c then jp2_walk else
  probe (orM (check [255; 10]) (check [0; 0; 0; 12; 74; 88; 76; 32; 13; 10; 135; 10]))
        (ft "jxl" "image/jxl") (
  c <- check [254; 255] ;;
  if c then
    probe (check_at [0; 60; 0; 63; 0; 120; 0; 109; 0; 108] 2) (ft "xml" "application/xml") none
  else
  probe (orM (check [0; 0; 1; 186]) (check [0; 0; 1; 179])) (ft "mpg" "video/mpeg") (
  probe (check [0; 1; 0; 0; 0]) (ft "ttf" "font/ttf") (
  probe (check [0; 0; 1; 0]) (ft "ico" "image/x-icon") (
  probe (check [0; 0; 2; 0]) (ft "cur" "image/x-icon") (
  probe (check [208; 207; 17; 224; 161; 177; 26; 225]) (ft "cfb" "application/x-cfb") k)))))))))))))).

(** [tarHeaderChecksumMatches(buffer, offset = 0)], lines 642-659: the sums
    [sum += buffer[i]] become [NaN] ([None]) at an index out of range. *)
Fixpoint sum_bytes (buffer : list byte) (i : Z) (n : nat) (acc : option Z) : option Z :=
  match n with
  | O => acc
  | S n' =>
      let acc' := match acc, idx buffer i with Some a, Some v => Some (a + v) | _, _ => None end in
      sum_bytes buffer (i + 1) n' acc'
  end.

Definition tarHeaderChecksumMatches (buffer : list byte) (offset : Z) : bool :=
  match parseInt8 (trim (strip_nul_tail (decode_utf8 (slice buffer 148 154)))) with
  | None => false
  | Some readSum =>
      let sum := sum_bytes buffer offset 148 (Some (8 * 32)) in
      let sum := sum_bytes buffer (offset + 156) 356 sum in
      match sum with Some s => readSum =? s | None => false end
  end.

(** The TAR header checksum as the spec words it: the octal number of the
    field at bytes 148..154 (read as the code reads it: decoded, cut at the
    trailing NUL, trimmed, parsed in base 8), against [8 * 0x20] plus the
    unsigned sum of bytes 0..148 and 156..512. *)
Definition byte_sum (l : list byte) : Z := fold_right (fun b acc => bz b + acc) 0 l.

Definition tar_checksum_field (buffer : list byte) : option Z :=
  parseInt8 (trim (strip_nul_tail (decode_utf8 (slice buffer 148 154)))).

Definition tar_checksum_spec (buffer : list byte) : bool :=
  match tar_checksum_field buffer with
  | None => false
  | Some readSum =>
      readSum =? 8 * 32 + byte_sum (slice buffer 0 148) + byte_sum (slice buffer 156 512)
  end.

(** A ustar header of [512] bytes whose checksum field holds the octal value
    of its own sum. *)
Definition tar_sample : list byte :=
  repeat x61 100 ++ repeat x00 48 ++ map byte_of_Z (lit "023344") ++ [x00; x20]
  ++ repeat x00 356.

(** The Pickle/ASAR probe, lines 2181-2200: [this.buffer] always has 4100
    bytes; a [JSON.parse] failure or a [null] header is caught by the empty
    [catch], and falls through. *)
Definition asar_probe : M bool :=
  c <- check [4; 0; 0; 0] ;;
  b <- get_buffer ;;
  if c && (16 <=? buf_len b) then
    let jsonSize := js_num (read_le b 12 4) in
    if (12 <? jsonSize) && (jsonSize + 16 <=? buf_len b) then
      ret (json_files_truthy (decode_utf8 (slice b 16 (jsonSize + 16))))
    else ret false
  else ret false.

(** Lines 2147-2369: the 256-byte sample, the 512-byte sample with the TAR
    checksum, UTF-16, PGP and the MPEG audio frame headers. *)
Definition parse_tail : M (option ftype) :=
  sz <- get_size ;;
  peek_sample (opts_len (Z.min 256 sz) true) ;;;
  unless_found (
    c <- checkString "BEGIN:" ;;
    if c then
      probe (checkString_at "VCARD" 6) (ft "vcf" "text/vcard")
      (probe (checkString_at "VCALENDAR" 6) (ft "ics" "text/calendar") none)
    else none) (
  probe (checkString "FUJIFILMCCD-RAW") (ft "raf" "image/x-fujifilm-raf") (
  probe (checkString "Extended Module:") (ft "xm" "audio/x-xm") (
  probe (checkString "Creative Voice File") (ft "voc" "audio/x-voc") (
  probe asar_probe (ft "asar" "application/x-asar") (
  probe (check [6; 14; 43; 52; 2; 5; 1; 1; 13; 1; 2; 1; 1; 2]) (ft "mxf" "application/mxf") (
  probe (checkString_at "SCRM" 44) (ft "s3m" "audio/x-s3m") (
  probe (andM (check [71]) (check_at [71] 188)) (ft "mts" "video/mp2t") (
  probe (andM (check_at [71] 4) (check_at [71] 196)) (ft "mts" "video/mp2t") (
  probe (check_at [66; 79; 79; 75; 77; 79; 66; 73] 60) (ft "mobi" "application/x-mobipocket-ebook") (
  probe (check_at [68; 73; 67; 77] 128) (ft "dcm" "application/dicom") (
  probe (check [76; 0; 0; 0; 1; 20; 2; 0; 0; 0; 0; 0; 192; 0; 0; 0; 0; 0; 0; 70])
        (ft "lnk" "application/x.ms.shortcut") (
  probe (check [98; 111; 111; 107; 0; 0; 0; 0; 109; 97; 114; 107; 0; 0; 0; 0])
        (ft "alias" "application/x.apple.alias") (
  probe (andM (check_at [76; 80] 34)
              (orM (check_at [0; 0; 1] 8) (orM (check_at [1; 0; 2] 8) (check_at [2; 0; 2] 8))))
        (ft "eot" "application/vnd.ms-fontobject") (
  probe (check [6; 6; 237; 245; 216; 29; 70; 229; 189; 49; 239; 231; 254; 116; 183; 29])
        (ft "indd" "application/x-indesign") (
  sz <- get_size ;;
  peek_sample (opts_len (Z.min 512 sz) true) ;;;
  b <- get_buffer ;;
  probe (ret (tarHeaderChecksumMatches b 0)) (ft "tar" "application/x-tar") (
  c <- check [255; 254] ;;
  if c then
    probe (check_at [60; 0; 63; 0; 120; 0; 109; 0; 108; 0] 2) (ft "xml" "application/xml")
    (probe (check_at [255; 14; 83; 0; 107; 0; 101; 0; 116; 0; 99; 0; 104; 0; 85; 0; 112; 0;
                      32; 0; 77; 0; 111; 0; 100; 0; 101; 0; 108; 0] 2)
           (ft "skp" "application/vnd.sketchup.skp") none)
  else
  probe (checkString "-----BEGIN PGP MESSAGE-----") (ft "pgp" "application/pgp-encrypted") (
  b <- get_buffer ;;
  c <- andM (ret (2 <=? buf_len b)) (check_m [255; 224] 0 (Some [255; 224])) ;;
  if c then
    c1 <- check_m [16] 1 (Some [22]) ;;
    if c1 then
      probe (check_m [8] 1 (Some [8])) (ft "aac" "audio/aac") (found (ft "aac" "audio/aac"))
    else
    probe (check_m [2] 1 (Some [6])) (ft "mp3" "audio/mpeg") (
    probe (check_m [4] 1 (Some [6])) (ft "mp2" "audio/mpeg") (
    probe (check_m [6] 1 (Some [6])) (ft "mp1" "audio/mpeg") none))
  else none))))))))))))))))).

(** [const minimumBytes = 4100] *)
Definition minimumBytes : Z := 4100.

(** [this.buffer = Buffer.alloc(minimumBytes); ... await
    tokenizer.peekBuffer(this.buffer, {length: 12, mayBeLess: true});]: the
    sample the first probes read ([fileInfo.size] is always set for a buffer
    tokenizer). *)
Definition parse_prologue : M Z :=
  set_buffer (alloc minimumBytes) ;;;
  peek_sample (opts_len 12 true).

(** [FileTypeParser.parse(tokenizer)]; [fuel] bounds the recursion through
    the BOM and ID3 branches and the loops of the container walks. *)
Fixpoint parse (fuel : nat) : M (option ftype) :=
  match fuel with
  | O => nofuel
  | S f =>
      parse_prologue ;;;
      parse_head (parse f) (
      parse_zip_ftyp f (
      parse_fonts_ebml f (
      parse_riff_ar (
      parse_png_cfb f parse_tail))))
  end.

(* ------------------------------------------------------------------------- *)
(** ** Results in the catalogs *)

(** A detection result lies in [supportedExtensions] x [supportedMimeTypes],
    or is [undefined]. *)
Definition in_catalogs (r : option ftype) : Prop :=
  match r with
  | None => True
  | Some t => supportedExtensions (ext t) = true /\ supportedMimeTypes (mime t) = true
  end.

(** [P] holds of every value the computation returns normally. *)
Definition Post {A} (P : A -> Prop) (m : M A) : Prop :=
  forall s, match m s with Ok a _ => P a | _ => True end.

(* ------------------------------------------------------------------------- *)
(** ** The exported entry points *)

(** How the promise of an async call settles: fulfilled with a value, or
    rejected with an error; [Pending] is a run that used up its fuel. *)
Inductive outcome :=
| Fulfilled (v : option ftype)
| Rejected (e : js_error)
| Pending.

(** The completion of evaluating a call expression: it either yields a value
    or throws synchronously. *)
Inductive completion (A : Type) :=
| Normal (a : A)
| Abrupt (e : js_error).
Arguments Normal {A} a.
Arguments Abrupt {A} e.

(** The promise of [parse] run on tokenizer [t] with a fresh parser. *)
Definition run_parse (fuel : nat) (t : tokenizer) : outcome :=
  match parse fuel (mkP t [] false) with
  | Ok v _ => Fulfilled v
  | Err e _ => Rejected e
  | NoFuel => Pending
  end.

(** Calling an async function never completes abruptly: whatever its body
    throws rejects the promise the call returns. *)
Definition call_async (p : outcome) : completion outcome := Normal p.

(** [try { return <call>; } catch (error) { if (!(error instanceof
    EndOfStreamError)) throw error; }] in an async function: the [catch]
    runs only on an abrupt completion of [<call>]; a returned promise is
    adopted by the function's own promise. *)
Definition try_return_catch_eos (c : completion outcome) : outcome :=
  match c with
  | Normal p => p
  | Abrupt e => if is_EndOfStreamError e then Fulfilled None else Rejected e
  end.

(** [fileTypeFromTokenizer(tokenizer)], lines 995-1003. *)
Definition fileTypeFromTokenizer (fuel : nat) (t : tokenizer) : outcome :=
  try_return_catch_eos (call_async (run_parse fuel t)).

(** [fileTypeFromBuffer(input)], lines 960-972, for a [Uint8Array] input:
    [if (!(buffer && buffer.length > 1)) return;] then the promise of
    [fileTypeFromTokenizer(fromBuffer(buffer))]. *)
Definition fileTypeFromBuffer (fuel : nat) (input : list byte) : outcome :=
  if negb (1 <? buf_len input) then Fulfilled None
  else fileTypeFromTokenizer fuel (fromBuffer input).

(** The values a call expression can have as its callee. *)
Inductive js_callee :=
| JsUndefined
| JsFunction (f : jstr -> completion tokenizer).

(** [callee(arg)]: calling a value that is not callable throws a
    [TypeError]. *)
Definition js_call (callee : js_callee) (arg : jstr) : completion tokenizer :=
  match callee with
  | JsUndefined => Abrupt TypeError
  | JsFunction f => f arg
  end.

(** The tokenizer opener of [fileTypeFromFile]: the bundle calls
    [undefined(path)] (line 2478), the [fromFile] import of strtok3 having
    been replaced by [undefined]. *)
Definition fromFile_opener : js_callee := JsUndefined.

(** [fileTypeFromFile(path)], lines 2477-2484: [const tokenizer = await
    undefined(path); try { return await fileTypeFromTokenizer(tokenizer); }
    finally { await tokenizer.close(); }] (the [close] of a buffer tokenizer
    does nothing). *)
Definition fileTypeFromFile (fuel : nat) (path : jstr) : outcome :=
  match js_call fromFile_opener path with
  | Abrupt e => Rejected e
  | Normal t => fileTypeFromTokenizer fuel t
  end.

(* ------------------------------------------------------------------------- *)
(** ** The PNG walk as the specification words it *)

(** The 8-byte PNG signature [89 50 4E 47 0D 0A 1A 0A]. *)
Definition png_magic : list byte := [x89; x50; x4e; x47; x0d; x0a; x1a; x0a].

(** A signed 32-bit big-endian integer of four bytes. *)
Definition i32be (bs : list byte) : Z :=
  match bs with
  | [b0; b1; b2; b3] =>
      let u := bz b0 * 2 ^ 24 + bz b1 * 2 ^ 16 + bz b2 * 2 ^ 8 + bz b3 in
      if 128 <=? bz b0 then u - 2 ^ 32 else u
  | _ => 0
  end.

Definition bytes_eqb (a b : list byte) : bool :=
  if list_eq_dec Byte.byte_eq_dec a b then true else false.

(** The chunk walk from position [pos] of [data], as the claim states it:
    read the chunk header [{length: i32be, type: 4 bytes}]; a negative length
    aborts to "unknown"; [IDAT] gives png and [acTL] apng; any other chunk is
    skipped with its [length + 4] bytes of payload and CRC, and the walk goes
    on while position + 8 < size, and answers png when it stops.  [None]: a
    chunk header cut short by the end of the data, the end-of-stream case
    that C1 covers and that this walk leaves out. *)
Fixpoint png_chunks_spec (fuel : nat) (data : list byte) (pos : Z) : option outcome :=
  match fuel with
  | O => Some Pending
  | S f =>
      if buf_len data <? pos + 8 then None
      else
        let length := i32be (slice data pos (pos + 4)) in
        let type := slice data (pos + 4) (pos + 8) in
        if length <? 0 then Some (Fulfilled None)
        else if bytes_eqb type (list_byte_of_string "IDAT") then
          Some (Fulfilled (Some (ft "png" "image/png")))
        else if bytes_eqb type (list_byte_of_string "acTL") then
          Some (Fulfilled (Some (ft "apng" "image/apng")))
        else
          let pos' := pos + 8 + length + 4 in
          if pos' + 8 <? buf_len data then png_chunks_spec f data pos'
          else Some (Fulfilled (Some (ft "png" "image/png")))
  end.

(** A PNG chunk sequence: an [IHDR] chunk of 13 bytes with its CRC, then an
    [IDAT] header. *)
Definition png_ihdr_idat : list byte :=
  [x00; x00; x00; x0d] ++ list_byte_of_string "IHDR" ++ repeat x00 17
  ++ [x00; x00; x00; x00] ++ list_byte_of_string "IDAT".

(** The settled promise of a run of the dispatcher monad. *)
Definition outcome_of (r : res (option ftype)) : outcome :=
  match r with
  | Ok v _ => Fulfilled v
  | Err e _ => Rejected e
  | NoFuel => Pending
  end.

(** ** Runs on a shifted input (C6)

    [shifted pre s1 s2]: the state [s1] reads [pre ++ D] at the position
    [p + |pre|] where [s2] reads [D] at [p]; both sample buffers are equal. *)
Definition shifted_tok (pre : list byte) (t1 t2 : tokenizer) : Prop :=
  tk_data t1 = pre ++ tk_data t2 /\
  tk_position t1 = tk_position t2 + buf_len pre /\
  tk_size t1 = buf_len (tk_data t1) /\
  tk_size t2 = buf_len (tk_data t2) /\
  0 <= tk_position t2 <= buf_len (tk_data t2).

Definition shifted (pre : list byte) (s1 s2 : pstate) : Prop :=
  p_buffer s1 = p_buffer s2 /\ shifted_tok pre (p_tok s1) (p_tok s2).

Definition res_shifted (pre : list byte) {A} (r1 r2 : res A) : Prop :=
  match r1, r2 with
  | Ok a1 s1, Ok a2 s2 => a1 = a2 /\ shifted pre s1 s2
  | Err e1 s1, Err e2 s2 => e1 = e2 /\ shifted pre s1 s2
  | NoFuel, NoFuel => True
  | _, _ => False
  end.

Definition Shift (pre : list byte) {A} (m : M A) : Prop :=
  forall s1 s2, shifted pre s1 s2 -> res_shifted pre (m s1) (m s2).

(** The UTF-8 byte-order mark [EF BB BF]. *)
Definition bom : list byte := [xef; xbb; xbf].

(** ** Appending to the input (C4)

    [Keeps_walked m]: once a container walk has been entered, [m] does not
    clear the ghost flag. *)
Definition Keeps_walked {A} (m : M A) : Prop :=
  forall s, p_walked s = true ->
  match m s with
  | Ok _ s' | Err _ s' => p_walked s' = true
  | NoFuel => True
  end.

(** [ext_state Y s1 s2]: [s1] reads [D ++ Y] where [s2] reads [D], both at
    position [0] with the same sample buffer, outside any container walk, and
    [D] holds at least the [512] bytes of the largest sample peek. *)
Definition ext_state (Y : list byte) (s1 s2 : pstate) : Prop :=
  p_buffer s1 = p_buffer s2 /\ p_walked s1 = false /\ p_walked s2 = false /\
  tk_data (p_tok s1) = tk_data (p_tok s2) ++ Y /\
  tk_position (p_tok s1) = 0 /\ tk_position (p_tok s2) = 0 /\
  tk_size (p_tok s1) = buf_len (tk_data (p_tok s1)) /\
  tk_size (p_tok s2) = buf_len (tk_data (p_tok s2)) /\
  512 <= buf_len (tk_data (p_tok s2)).

(** [Extends Y m]: a run of [m] on the shorter input that ends outside the
    container walks is matched by a run on the longer one, with the same
    value and related states; [Extends_final] drops the relation on the final
    states (the OGG, [!<arch>] and JPEG-2000 reads move the position). *)
Definition Extends (Y : list byte) {A} (m : M A) : Prop :=
  forall s1 s2 a s2', ext_state Y s1 s2 -> m s2 = Ok a s2' -> p_walked s2' = false ->
  exists s1', m s1 = Ok a s1' /\ ext_state Y s1' s2'.

Definition Extends_final (Y : list byte) {A} (m : M A) : Prop :=
  forall s1 s2 a s2', ext_state Y s1 s2 -> m s2 = Ok a s2' -> p_walked s2' = false ->
  exists s1', m s1 = Ok a s1'.

(** ["%!"] (PostScript), a continuation that makes it EPS, and a 512-byte
    PostScript input. *)
Definition ps_short : list byte := list_byte_of_string "%!".
Definition epsf_rest : list byte := list_byte_of_string "PS-Adobe-3.0 EPSF-3.0".
Definition ps_sample : list byte := ps_short ++ repeat x20 510.

(* ------------------------------------------------------------------------- *)
(** ** More of the tokenizer and of the numeric tokens (strtok3, token-types) *)

(** [AbstractTokenizer.peekToken(token, position = this.position)], lines
    204-210: [peekBuffer(uint8Array, {position})], then the end-of-stream
    error when fewer than [token.len] bytes came; the [token.len] bytes
    peeked (the caller applies [token.get] to them, as for [readToken]). *)
Definition peekToken (len : Z) : M (list byte) :=
  p <- get_position ;;
  r <- peek_new len (opts_pos p) ;;
  if fst r <? len then throw EndOfStreamError else ret (snd r).

(** [dv(array).getUintN(offset, littleEndian)] on an array that owns its
    [ArrayBuffer] (a [Buffer.alloc] or a [new Uint8Array(n)]), lines
    524-526: [None] is the [RangeError] of an access outside the view. *)
Definition dv_getUint (array : list byte) (offset size : Z) (littleEndian : bool) : option Z :=
  if littleEndian then read_le array offset size else read_be array offset size.

(** [dv(array).getInt32(offset)]: big-endian, two's complement. *)
Definition dv_getInt32 (array : list byte) (offset : Z) : option Z :=
  option_map (fun u => if 2 ^ 31 <=? u then u - 2 ^ 32 else u) (read_be array offset 4).

(** The [n] bytes of [v], least significant first. *)
Fixpoint le_bytes (n : nat) (v : Z) : list byte :=
  match n with
  | O => []
  | S n' => byte_of_Z v :: le_bytes n' (v / 256)
  end.

(** [dv(array).setUintN(offset, v, littleEndian)] of an already converted
    [v], on an array that owns its [ArrayBuffer] as for [dv_getUint]: the
    bytes [offset .. offset + size - 1] replaced; [None] is the [RangeError]
    of a store outside the view.  The view of line 525 runs from
    [array.byteOffset] to the end of [array.buffer], so on an array over a
    larger buffer (a pooled [Buffer]) a store past the array's end lands in
    the buffer instead; that case is outside this model, and the lemmas
    below use it only at offsets inside the array. *)
Definition dv_set (array : list byte) (offset size v : Z) (littleEndian : bool) : option (list byte) :=
  if (offset <? 0) || (buf_len array <? offset + size) then None
  else
    let raw := le_bytes (Z.to_nat size) v in
    Some (firstn (Z.to_nat offset) array ++ (if littleEndian then raw else rev raw)
          ++ skipn (Z.to_nat (offset + size)) array).

(** The tokens [UINT8], [UINT16_LE], [UINT16_BE], [UINT32_LE], [UINT32_BE],
    [INT32_BE] and [UINT64_LE], lines 530-617: [get(array, offset)] and
    [put(array, offset, value)], the latter returning the new array and
    [offset + len]. The setters convert [value] as [ToUint8], [ToUint16],
    [ToUint32], [ToInt32] and [ToBigUint64] do. *)
Definition UINT8_get_at (array : list byte) (offset : Z) : option Z := dv_getUint array offset 1 false.
Definition UINT8_put (array : list byte) (offset value : Z) : option (list byte * Z) :=
  option_map (fun a => (a, offset + 1)) (dv_set array offset 1 (value mod 2 ^ 8) false).

Definition UINT16_LE_get_at (array : list byte) (offset : Z) : option Z := dv_getUint array offset 2 true.
Definition UINT16_LE_put (array : list byte) (offset value : Z) : option (list byte * Z) :=
  option_map (fun a => (a, offset + 2)) (dv_set array offset 2 (value mod 2 ^ 16) true).

Definition UINT16_BE_get_at (array : list byte) (offset : Z) : option Z := dv_getUint array offset 2 false.
Definition UINT16_BE_put (array : list byte) (offset value : Z) : option (list byte * Z) :=
  option_map (fun a => (a, offset + 2)) (dv_set array offset 2 (value mod 2 ^ 16) false).

Definition UINT32_LE_get_at (array : list byte) (offset : Z) : option Z := dv_getUint array offset 4 true.
Definition UINT32_LE_put (array : list byte) (offset value : Z) : option (list byte * Z) :=
  option_map (fun a => (a, offset + 4)) (dv_set array offset 4 (value mod 2 ^ 32) true).

Definition UINT32_BE_get_at (array : list byte) (offset : Z) : option Z := dv_getUint array offset 4 false.
Definition UINT32_BE_put (array : list byte) (offset value : Z) : option (list byte * Z) :=
  option_map (fun a => (a, offset + 4)) (dv_set array offset 4 (value mod 2 ^ 32) false).

Definition INT32_BE_get_at (array : list byte) (offset : Z) : option Z := dv_getInt32 array offset.
Definition INT32_BE_put (array : list byte) (offset value : Z) : option (list byte * Z) :=
  option_map (fun a => (a, offset + 4)) (dv_set array offset 4 (to_int32 value) false).

Definition UINT64_LE_get_at (array : list byte) (offset : Z) : option Z := dv_getUint array offset 8 true.
Definition UINT64_LE_put (array : list byte) (offset value : Z) : option (list byte * Z) :=
  option_map (fun a => (a, offset + 8)) (dv_set array offset 8 (value mod 2 ^ 64) true).

(** The width [ic + 1] that [readField] computes from its first byte [b]:
    one more than the number of leading zero bits of [b], nine for [0]. *)
Definition ebml_field_length (b : byte) : Z :=
  if bz b =? 0 then 9 else 8 - Z.log2 (bz b).

(** Signatures of the ASF, ZIP and PDF branches, the ASF stream-properties
    object GUID (line 2004), and a PDF input that carries [AIPrivateData]. *)
Definition asf_magic : list byte := [x30; x26; xb2; x75; x8e; x66; xcf; x11; xa6; xd9].
Definition asf_stream_properties_guid : list Z :=
  [145; 7; 220; 183; 183; 169; 207; 17; 142; 230; 0; 192; 12; 32; 83; 101].
Definition zip_magic : list byte := [x50; x4b; x03; x04].
Definition pdf_magic : list byte := [x25; x50; x44; x46].
Definition pdf_ai_sample : list byte :=
  list_byte_of_string "-1.4" ++ repeat x20 1342 ++ list_byte_of_string "AIPrivateData".

(* ========================================================================= *)
(** * Lemmas and theorems *)

(** ** Arithmetic on bytes and 32-bit operators *)

Lemma bz_range (b : byte) : 0 <= bz b < 256.
Proof. unfold bz. pose proof (Byte.to_N_bounded b). lia. Qed.

Lemma to_int32_small (z : Z) : 0 <= z < 2 ^ 31 -> to_int32 z = z.
Proof.
  intros H. unfold to_int32. rewrite Z.mod_small by lia.
  destruct (Z.leb_spec (2 ^ 31) z); lia.
Qed.

Lemma land_127 (z : Z) : Z.land z 127 = z mod 2 ^ 7.
Proof. change 127 with (Z.ones 7). apply Z.land_ones. lia. Qed.

(** A value below [2^k] and a multiple of [2^k] have no bit in common, so
    their [|] is their sum. *)
Lemma lor_low_high (a b k : Z) :
  0 <= k -> 0 <= a < 2 ^ k -> 0 <= b -> Z.lor a (b * 2 ^ k) = a + b * 2 ^ k.
Proof.
  intros Hk Ha Hb.
  assert (Hd : Z.land a (b * 2 ^ k) = 0).
  { apply Z.bits_inj'. intros i Hi. rewrite Z.land_spec, Z.testbit_0_l.
    rewrite <- Z.shiftl_mul_pow2 by lia. rewrite Z.shiftl_spec by lia.
    destruct (Z.lt_ge_cases i k) as [Hik | Hik].
    - rewrite (Z.testbit_neg_r b (i - k)) by lia. apply andb_false_r.
    - destruct (Z.eq_dec a 0) as [-> | Hnz]; [rewrite Z.testbit_0_l; reflexivity |].
      rewrite Z.bits_above_log2; [reflexivity | lia |].
      apply Z.log2_lt_pow2; [lia |].
      apply Z.lt_le_trans with (2 ^ k); [lia | apply Z.pow_le_mono_r; lia]. }
  rewrite <- Z.lxor_lor by exact Hd. symmetry. apply Z.add_nocarry_lxor. exact Hd.
Qed.

Lemma idx_app (pre l : list byte) (i : Z) :
  0 <= i -> idx (pre ++ l) (Z.of_nat (length pre) + i) = idx l i.
Proof.
  intros Hi. unfold idx.
  destruct (Z.ltb_spec (Z.of_nat (length pre) + i) 0); [lia |].
  destruct (Z.ltb_spec i 0); [lia |].
  rewrite Z2Nat.inj_add, Nat2Z.id by lia. rewrite nth_error_app2 by lia.
  f_equal. f_equal. lia.
Qed.

Lemma js_and_byte_127 (b : byte) : js_and (bz b) 127 = bz b mod 2 ^ 7.
Proof.
  pose proof (bz_range b). unfold js_and.
  rewrite (to_int32_small (bz b)) by lia. change (to_int32 127) with 127.
  rewrite land_127. apply to_int32_small.
  pose proof (Z.mod_pos_bound (bz b) (2 ^ 7)). lia.
Qed.

Lemma js_shl_byte (b : byte) (k : Z) :
  0 <= k <= 21 -> js_shl (bz b) k = bz b * 2 ^ k.
Proof.
  intros Hk. pose proof (bz_range b). unfold js_shl.
  rewrite (to_int32_small (bz b)) by lia. rewrite Z.mod_small by lia.
  rewrite Z.shiftl_mul_pow2 by lia. apply to_int32_small.
  assert (2 ^ k <= 2 ^ 21) by (apply Z.pow_le_mono_r; lia). nia.
Qed.

Lemma js_or_small (a b : Z) :
  0 <= a < 2 ^ 31 -> 0 <= b < 2 ^ 31 -> js_or a b = to_int32 (Z.lor a b).
Proof. intros Ha Hb. unfold js_or. rewrite (to_int32_small a), (to_int32_small b) by lia. reflexivity. Qed.

Lemma idx_app_0 (pre l : list byte) : idx (pre ++ l) (Z.of_nat (length pre)) = idx l 0.
Proof. rewrite <- (idx_app pre l 0) by lia. f_equal. lia. Qed.

(** ** C2: the sync-safe token *)

(** When bit 7 of the first three bytes is clear, as the ID3v2 convention
    requires, [uint32SyncSafeToken.get] is the 28-bit value made of the low
    seven bits of each byte, most significant byte first. *)
Lemma uint32SyncSafeToken_get_syncsafe (pre rest : list byte) (b0 b1 b2 b3 : byte) :
  bz b0 < 128 -> bz b1 < 128 -> bz b2 < 128 ->
  uint32SyncSafeToken_get (pre ++ [b0; b1; b2; b3] ++ rest) (Z.of_nat (length pre))
  = syncsafe_value b0 b1 b2 b3
  /\ syncsafe_value b0 b1 b2 b3 < 2 ^ 28.
Proof.
  intros H0 H1 H2.
  pose proof (bz_range b0). pose proof (bz_range b1).
  pose proof (bz_range b2). pose proof (bz_range b3).
  unfold uint32SyncSafeToken_get.
  rewrite !idx_app, idx_app_0 by lia.
  change (idx ([b0; b1; b2; b3] ++ rest) 0) with (Some (bz b0)).
  change (idx ([b0; b1; b2; b3] ++ rest) 1) with (Some (bz b1)).
  change (idx ([b0; b1; b2; b3] ++ rest) 2) with (Some (bz b2)).
  change (idx ([b0; b1; b2; b3] ++ rest) 3) with (Some (bz b3)).
  cbn [js_num].
  rewrite js_and_byte_127, !js_shl_byte by lia.
  pose proof (Z.mod_pos_bound (bz b3) (2 ^ 7)) as Hm.
  change (2 ^ 7) with 128 in *. change (2 ^ 14) with 16384. change (2 ^ 21) with 2097152.
  rewrite (js_or_small (bz b3 mod 128) (bz b2 * 128)) by lia.
  rewrite (lor_low_high _ _ 7) by (cbn; lia). change (2 ^ 7) with 128.
  rewrite to_int32_small by lia.
  rewrite (js_or_small (bz b3 mod 128 + bz b2 * 128) (bz b1 * 16384)) by lia.
  rewrite (lor_low_high _ _ 14) by (cbn; lia). change (2 ^ 14) with 16384.
  rewrite to_int32_small by lia.
  rewrite (js_or_small (bz b3 mod 128 + bz b2 * 128 + bz b1 * 16384) (bz b0 * 2097152)) by lia.
  rewrite (lor_low_high _ _ 21) by (cbn; lia). change (2 ^ 21) with 2097152.
  rewrite to_int32_small by lia.
  unfold syncsafe_value. rewrite !land_127. change (2 ^ 7) with 128.
  rewrite (Z.mod_small (bz b0)), (Z.mod_small (bz b1)), (Z.mod_small (bz b2)) by lia.
  split; [lia |]. change (2 ^ 28) with 268435456. change (2 ^ 14) with 16384.
  change (2 ^ 21) with 2097152. lia.
Qed.

(** C2 (failing input).  For the bytes [FF 00 00 00], [uint32SyncSafeToken.get]
    gives [0xFF << 21 = 534773760], which is not below 2^28 (the documented
    "28 bits (representing up to 256MB)") and differs from the 28-bit value
    [0x7F << 21] that ignoring bit 7 of every byte gives. *)
Lemma uint32SyncSafeToken_get_high_bit :
  uint32SyncSafeToken_get [xff; x00; x00; x00] 0 = 534773760
  /\ 2 ^ 28 <= uint32SyncSafeToken_get [xff; x00; x00; x00] 0
  /\ syncsafe_value xff x00 x00 x00 = 266338304.
Proof. vm_compute. repeat split; discriminate. Qed.

(** ** Reading buffers by index *)

Lemma buf_len_app (l1 l2 : list byte) : buf_len (l1 ++ l2) = buf_len l1 + buf_len l2.
Proof. unfold buf_len. rewrite length_app. lia. Qed.

Lemma buf_len_nonneg (l : list byte) : 0 <= buf_len l.
Proof. unfold buf_len. lia. Qed.

Lemma idx_app_l (l1 l2 : list byte) (i : Z) :
  i < buf_len l1 -> idx (l1 ++ l2) i = idx l1 i.
Proof.
  unfold idx, buf_len. intros H. destruct (Z.ltb_spec i 0); [reflexivity |].
  rewrite nth_error_app1 by lia. reflexivity.
Qed.

Lemma idx_app_r (l1 l2 : list byte) (i : Z) :
  buf_len l1 <= i -> idx (l1 ++ l2) i = idx l2 (i - buf_len l1).
Proof.
  unfold buf_len. intros H. pose proof (idx_app l1 l2 (i - Z.of_nat (length l1))) as E.
  replace (Z.of_nat (length l1) + (i - Z.of_nat (length l1))) with i in E by lia.
  apply E. lia.
Qed.

Lemma idx_firstn (n : nat) (l : list byte) (i : Z) :
  i < Z.of_nat n -> idx (firstn n l) i = idx l i.
Proof.
  unfold idx. intros H. destruct (Z.ltb_spec i 0); [reflexivity |].
  rewrite nth_error_firstn. destruct (Nat.ltb_spec (Z.to_nat i) n); [reflexivity | lia].
Qed.

Lemma idx_skipn (n : nat) (l : list byte) (i : Z) :
  0 <= i -> idx (skipn n l) i = idx l (i + Z.of_nat n).
Proof.
  unfold idx. intros H. destruct (Z.ltb_spec i 0); [lia |].
  destruct (Z.ltb_spec (i + Z.of_nat n) 0); [lia |].
  rewrite nth_error_skipn. f_equal. f_equal. lia.
Qed.

Lemma idx_out (l : list byte) (i : Z) : buf_len l <= i -> idx l i = None.
Proof.
  unfold idx, buf_len. intros H. destruct (Z.ltb_spec i 0); [reflexivity |].
  rewrite (proj2 (nth_error_None l (Z.to_nat i))) by lia. reflexivity.
Qed.

Lemma idx_neg (l : list byte) (i : Z) : i < 0 -> idx l i = None.
Proof. unfold idx. intros H. destruct (Z.ltb_spec i 0); [reflexivity | lia]. Qed.

Lemma idx_repeat (n : nat) (i : Z) :
  0 <= i < Z.of_nat n -> idx (repeat x00 n) i = Some 0.
Proof.
  unfold idx. intros H. destruct (Z.ltb_spec i 0); [lia |].
  rewrite nth_error_repeat by lia. reflexivity.
Qed.

Lemma buf_len_repeat (n : nat) : buf_len (repeat x00 n) = Z.of_nat n.
Proof. unfold buf_len. rewrite repeat_length. reflexivity. Qed.

Lemma buf_len_firstn (n : nat) (l : list byte) : buf_len (firstn n l) = Z.min (Z.of_nat n) (buf_len l).
Proof. unfold buf_len. rewrite length_firstn. lia. Qed.

Lemma buf_len_skipn (n : nat) (l : list byte) : buf_len (skipn n l) = buf_len l - Z.min (Z.of_nat n) (buf_len l).
Proof. unfold buf_len. rewrite length_skipn. lia. Qed.

(** [_check] compares the header with the buffer index by index. *)
Lemma check_from_spec (buffer : list byte) (headers : list Z) (offset : Z)
    (mask : option (list Z)) (index : Z) :
  check_from buffer headers offset mask index = true <->
  (forall i h, nth_error headers i = Some h ->
     match mask with
     | Some m => h = js_and (js_num (idx_num m (index + Z.of_nat i)))
                            (js_num (idx buffer (index + Z.of_nat i + offset)))
     | None => idx buffer (index + Z.of_nat i + offset) = Some h
     end).
Proof.
  revert index. induction headers as [| h0 hs IH]; intros index; cbn [check_from].
  - split; [intros _ i h Hn; destruct i; discriminate | reflexivity].
  - destruct mask as [m |].
    + destruct (Z.eqb_spec h0 (js_and (js_num (idx_num m index)) (js_num (idx buffer (index + offset))))) as [E | E];
        cbn [negb].
      * rewrite IH. split.
        -- intros H [| i] h Hn; cbn in Hn.
           ++ injection Hn as <-. rewrite Z.add_0_r. exact E.
           ++ specialize (H i h Hn). rewrite H. f_equal; f_equal; f_equal; lia.
        -- intros H i h Hn. specialize (H (S i) h Hn). rewrite H. f_equal; f_equal; f_equal; lia.
      * split; [discriminate |]. intros H. exfalso. apply E.
        specialize (H 0%nat h0 eq_refl). rewrite H. f_equal; f_equal; f_equal; lia.
    + unfold js_neq. destruct (idx buffer (index + offset)) as [z |] eqn:Ez.
      * destruct (Z.eqb_spec h0 z) as [E | E]; cbn [negb].
        -- rewrite IH. split.
           ++ intros H [| i] h Hn; cbn in Hn.
              ** injection Hn as <-. rewrite Z.add_0_r, Ez, E. reflexivity.
              ** rewrite <- (H i h Hn). f_equal. lia.
           ++ intros H i h Hn. rewrite <- (H (S i) h Hn). f_equal. lia.
        -- split; [discriminate |]. intros H. exfalso. apply E.
           specialize (H 0%nat h0 eq_refl). rewrite Z.add_0_r, Ez in H. congruence.
      * split; [discriminate |]. intros H. specialize (H 0%nat h0 eq_refl).
        rewrite Z.add_0_r, Ez in H. discriminate.
Qed.

(** ** Peeking into a buffer *)

Lemma subarray_in (u : list byte) (p n : Z) :
  0 <= p -> 0 <= n -> p + n <= buf_len u ->
  subarray u p (p + n) = firstn (Z.to_nat n) (skipn (Z.to_nat p) u).
Proof.
  intros Hp Hn Hl. unfold subarray, slice.
  destruct (Z.ltb_spec p 0); [lia |]. destruct (Z.ltb_spec (p + n) 0); [lia |].
  rewrite (Z.min_l p) by lia. rewrite (Z.min_l (p + n)) by lia.
  rewrite Z.max_r by lia. f_equal. lia.
Qed.

Lemma typed_set_0 (target src : list byte) :
  buf_len src <= buf_len target ->
  typed_set target src 0 = Some (src ++ skipn (length src) target).
Proof.
  intros H. unfold typed_set. destruct (Z.ltb_spec 0 0); [lia |].
  destruct (Z.ltb_spec (buf_len target) (0 + buf_len src)); [lia |].
  cbn [orb firstn Z.to_nat app]. f_equal. f_equal. f_equal. unfold buf_len. lia.
Qed.

(** [peekBuffer(target, {length: L, mayBeLess: true})] at a position inside
    the data: the first [n] bytes of [target] are replaced with the [n]
    bytes that follow the position, [n] being [L] or what is left. *)
Lemma tk_peekBuffer_mbl (t : tokenizer) (target : list byte) (L : Z) :
  0 < L <= buf_len target ->
  0 <= tk_position t <= buf_len (tk_data t) ->
  tk_peekBuffer t target (opts_len L true) =
  let n := Z.min (buf_len (tk_data t) - tk_position t) L in
  inr (n, firstn (Z.to_nat n) (skipn (Z.to_nat (tk_position t)) (tk_data t))
          ++ skipn (Z.to_nat n) target).
Proof.
  intros HL Hp. unfold tk_peekBuffer, normalizeOptions, opts_len. cbn [ro_position ro_length ro_offset ro_mayBeLess
    or_else no_mayBeLess no_offset no_length no_position].
  destruct (Z.eqb_spec L 0); [lia |]. cbn [negb andb].
  rewrite subarray_in by lia. rewrite typed_set_0.
  - f_equal. f_equal. f_equal. f_equal. rewrite length_firstn, length_skipn.
    unfold buf_len in *. lia.
  - rewrite buf_len_firstn, buf_len_skipn. lia.
Qed.

Lemma fromBuffer_position (D : list byte) : tk_position (fromBuffer D) = 0.
Proof. reflexivity. Qed.

(** The sample after [parse]'s first peek. *)
Lemma parse_prologue_run (D b : list byte) (w : bool) :
  parse_prologue (mkP (fromBuffer D) b w) =
  let n := Z.min (buf_len D) 12 in
  Ok n (mkP (fromBuffer D) (firstn (Z.to_nat n) D ++ skipn (Z.to_nat n) (alloc minimumBytes)) w).
Proof.
  unfold parse_prologue, bind, set_buffer, peek_sample. cbn [p_tok p_buffer p_walked].
  rewrite tk_peekBuffer_mbl.
  - cbn [fromBuffer tk_data tk_position]. rewrite Z.sub_0_r. reflexivity.
  - unfold alloc, minimumBytes. rewrite buf_len_repeat. lia.
  - cbn. pose proof (buf_len_nonneg D). lia.
Qed.

(** C3 (amended).  [_check(buffer, headers, {offset, mask})] holds exactly
    when every [headers[i]] equals [mask[i] & buffer[offset + i]] (with a
    mask) or [buffer[offset + i]] (without).  The sample buffer is
    [Buffer.alloc(4100)] and the first peek writes only [min(size, 12)] bytes
    into it: every position beyond the peeked bytes and below 4100 reads as
    0, so a probe does not fail there when its header byte is 0 (and beyond
    4100 an absent byte is [undefined], which [&] turns into 0). *)
Theorem check_probe_sample :
  (forall buffer headers offset mask,
     _check buffer headers offset mask = true <->
     (forall i h, nth_error headers i = Some h ->
        match mask with
        | Some m => h = js_and (js_num (idx_num m (Z.of_nat i)))
                               (js_num (idx buffer (Z.of_nat i + offset)))
        | None => idx buffer (Z.of_nat i + offset) = Some h
        end))
  /\
  (forall D b w, exists s,
     parse_prologue (mkP (fromBuffer D) b w) = Ok (Z.min (buf_len D) 12) s
     /\ forall j, idx (p_buffer s) j =
          if j <? Z.min (buf_len D) 12 then idx D j
          else if (0 <=? j) && (j <? minimumBytes) then Some 0 else None).
Proof.
  split.
  - intros buffer headers offset mask. unfold _check. rewrite check_from_spec.
    split; intros H i h Hn; specialize (H i h Hn); rewrite Z.add_0_l in *; exact H.
  - intros D b w. rewrite parse_prologue_run. cbn zeta.
    eexists. split; [reflexivity |]. intros j. cbn [p_buffer].
    pose proof (buf_len_nonneg D) as HD.
    assert (Hf : buf_len (firstn (Z.to_nat (Z.min (buf_len D) 12)) D) = Z.min (buf_len D) 12).
    { rewrite buf_len_firstn. lia. }
    destruct (Z.ltb_spec j 0) as [Hj | Hj].
    + rewrite !idx_neg by lia. destruct (Z.ltb_spec j (Z.min (buf_len D) 12)); [reflexivity | lia].
    + destruct (Z.ltb_spec j (Z.min (buf_len D) 12)) as [Hlt | Hge].
      * rewrite idx_app_l by lia. apply idx_firstn. lia.
      * rewrite idx_app_r by lia. rewrite idx_skipn by lia. rewrite Hf.
        unfold alloc, minimumBytes.
        destruct (Z.leb_spec 0 j); [| lia]. destruct (Z.ltb_spec j 4100); cbn [andb].
        -- apply idx_repeat. lia.
        -- apply idx_out. rewrite buf_len_repeat. lia.
Qed.

(** C3 (counterexample).  On the one-byte input [47], the first peek writes
    one byte; the probe [check([0x47, 0x00])] still holds, though position 1
    lies beyond the peeked byte. *)
Lemma check_beyond_peek_zero :
  match parse_prologue (mkP (fromBuffer [x47]) [] false) with
  | Ok n s => n = 1 /\ check [71; 0] s = Ok true s
  | _ => False
  end.
Proof. vm_compute. split; reflexivity. Qed.

(** ** C1, C9, C10: the entry points *)

(** C1 (code bug).  [fileTypeFromTokenizer] settles exactly as the promise of
    [parse] settles: the call of the async [parse] never throws, its promise
    is returned without [await], so the [catch (error)] clause never runs
    and a rejection with [EndOfStreamError] reaches the caller. *)
Theorem fileTypeFromTokenizer_propagates (fuel : nat) (t : tokenizer) :
  fileTypeFromTokenizer fuel t = run_parse fuel t.
Proof. reflexivity. Qed.

(** C1 (failing input).  On the three bytes ["ID3"], the ID3 branch skips to
    the end and the sync-safe size read hits the end of the data:
    [fileTypeFromBuffer] rejects with [EndOfStreamError] rather than
    returning [undefined]. *)
Lemma fileTypeFromBuffer_ID3_rejects :
  fileTypeFromBuffer 1 [x49; x44; x33] = Rejected EndOfStreamError.
Proof. vm_compute. reflexivity. Qed.

(** C9.  [fileTypeFromBuffer] returns [undefined] for an input of at most one
    byte (the empty one included), and otherwise settles as
    [fileTypeFromTokenizer(fromBuffer(input))]. *)
Theorem fileTypeFromBuffer_short_or_delegates (fuel : nat) (input : list byte) :
  (buf_len input <= 1 -> fileTypeFromBuffer fuel input = Fulfilled None)
  /\ (2 <= buf_len input -> fileTypeFromBuffer fuel input = fileTypeFromTokenizer fuel (fromBuffer input)).
Proof.
  unfold fileTypeFromBuffer. split; intros H.
  - destruct (Z.ltb_spec 1 (buf_len input)); [lia | reflexivity].
  - destruct (Z.ltb_spec 1 (buf_len input)); [reflexivity | lia].
Qed.

Lemma fileTypeFromBuffer_short_or_delegates_witness :
  fileTypeFromBuffer 3 [] = Fulfilled None
  /\ fileTypeFromBuffer 3 [x42; x4d] = fileTypeFromTokenizer 3 (fromBuffer [x42; x4d]).
Proof.
  split.
  - apply (proj1 (fileTypeFromBuffer_short_or_delegates 3 [])). vm_compute. discriminate.
  - apply (proj2 (fileTypeFromBuffer_short_or_delegates 3 [x42; x4d])). vm_compute. discriminate.
Defined.

(** C10.  [fileTypeFromFile(path)] rejects with a [TypeError] for every path:
    its first step calls [undefined(path)]. *)
Theorem fileTypeFromFile_rejects (fuel : nat) (path : jstr) :
  fileTypeFromFile fuel path = Rejected TypeError
  /\ forall v, fileTypeFromFile fuel path <> Fulfilled v.
Proof. split; [reflexivity | intros v; discriminate]. Qed.

(** ** C8: the TAR checksum *)

Lemma idx_skipn_cons (B : list byte) (k : nat) (b : byte) (r : list byte) :
  skipn k B = b :: r -> idx B (Z.of_nat k) = Some (bz b) /\ skipn (S k) B = r.
Proof.
  revert k. induction B as [| b0 B IH]; intros k H.
  - destruct k; discriminate.
  - destruct k as [| k].
    + cbn in H. injection H as <- <-. split; reflexivity.
    + cbn in H. destruct (IH k H) as [H1 H2]. split; [| exact H2].
      unfold idx in *. destruct (Z.ltb_spec (Z.of_nat (S k)) 0); [lia |].
      destruct (Z.ltb_spec (Z.of_nat k) 0); [lia |].
      rewrite Nat2Z.id in *. exact H1.
Qed.

Lemma sum_bytes_range (B : list byte) (n : nat) (i acc : Z) :
  0 <= i -> i + Z.of_nat n <= buf_len B ->
  sum_bytes B i n (Some acc) = Some (acc + byte_sum (firstn n (skipn (Z.to_nat i) B))).
Proof.
  revert i acc. induction n as [| n IH]; intros i acc Hi Hn.
  - cbn. f_equal. lia.
  - cbn [sum_bytes].
    destruct (skipn (Z.to_nat i) B) as [| b r] eqn:E.
    + exfalso. assert (length (skipn (Z.to_nat i) B) = 0%nat) by (rewrite E; reflexivity).
      rewrite length_skipn in H. unfold buf_len in Hn. lia.
    + destruct (idx_skipn_cons B (Z.to_nat i) b r E) as [H1 H2].
      rewrite Z2Nat.id in H1 by lia. rewrite H1.
      rewrite IH by lia. cbn [firstn byte_sum fold_right].
      replace (Z.to_nat (i + 1)) with (S (Z.to_nat i)) by lia. rewrite H2.
      f_equal. unfold byte_sum. lia.
Qed.

(** C8.  On a buffer of at least 512 bytes, [tarHeaderChecksumMatches(buffer)]
    holds exactly when the checksum field parses (a field that does not parse,
    [NaN], never matches) and its value is [8 * 0x20] plus the unsigned sum
    of bytes 0..148 and bytes 156..512. *)
Theorem tarHeaderChecksumMatches_spec (buffer : list byte) :
  512 <= buf_len buffer ->
  tarHeaderChecksumMatches buffer 0 = tar_checksum_spec buffer.
Proof.
  intros H. unfold tarHeaderChecksumMatches, tar_checksum_spec, tar_checksum_field.
  destruct (parseInt8 _) as [readSum |]; [| reflexivity].
  rewrite sum_bytes_range by (cbn; lia).
  rewrite sum_bytes_range by (cbn; lia).
  unfold slice. cbn [Z.to_nat Z.sub Z.add]. replace (Z.to_nat (0 + 156)) with 156%nat by reflexivity.
  reflexivity.
Qed.

Lemma tarHeaderChecksumMatches_spec_witness :
  512 <= buf_len tar_sample
  /\ tarHeaderChecksumMatches tar_sample 0 = tar_checksum_spec tar_sample
  /\ tar_checksum_spec tar_sample = true.
Proof.
  split; [vm_compute; discriminate |]. split.
  - apply tarHeaderChecksumMatches_spec. vm_compute. discriminate.
  - vm_compute. reflexivity.
Defined.

(* ------------------------------------------------------------------------- *)
(** ** C5: every result lies in the catalogs *)

Section PostRules.
Context {A B : Type}.

Lemma post_ret (P : A -> Prop) (a : A) : P a -> Post P (ret a).
Proof. intros H s. exact H. Qed.

Lemma post_bind (P : B -> Prop) (m : M A) (k : A -> M B) :
  (forall a, Post P (k a)) -> Post P (bind m k).
Proof.
  intros Hk s. unfold bind. destruct (m s) as [a s'| |]; [apply Hk | exact I | exact I].
Qed.

Lemma post_bind_P (Q : A -> Prop) (P : B -> Prop) (m : M A) (k : A -> M B) :
  Post Q m -> (forall a, Q a -> Post P (k a)) -> Post P (bind m k).
Proof.
  intros Hm Hk s. unfold bind. specialize (Hm s).
  destruct (m s) as [a s'| |]; [apply Hk; exact Hm | exact I | exact I].
Qed.

Lemma post_catch (P : A -> Prop) (m : M A) (h : js_error -> M A) :
  Post P m -> (forall e, Post P (h e)) -> Post P (catch m h).
Proof.
  intros Hm Hh s. unfold catch. specialize (Hm s).
  destruct (m s) as [a s'|e s'|]; [exact Hm | apply Hh | exact I].
Qed.

Lemma post_throw (P : A -> Prop) e : Post P (throw e).
Proof. intros s. exact I. Qed.

Lemma post_nofuel (P : A -> Prop) : Post P nofuel.
Proof. intros s. exact I. Qed.

End PostRules.

Lemma ftyp_brand_in_catalogs (b : jstr) : in_catalogs (Some (ftyp_brand b)).
Proof.
  unfold ftyp_brand.
  repeat match goal with |- context [if ?c then _ else _] => destruct c end;
  split; reflexivity.
Qed.

Create HintDb walks discriminated.

(** One step of the calculus: a rule for the head of the computation.  A
    sub-walk is closed by a hypothesis about it, compared syntactically. *)
Ltac post_step :=
  cbv beta zeta;
  lazymatch goal with
  | |- Post _ nofuel => apply post_nofuel
  | |- Post _ (throw _) => apply post_throw
  | |- Post in_catalogs (ret _) =>
      apply post_ret;
      lazymatch goal with
      | |- in_catalogs None => exact I
      | |- in_catalogs (Some (ftyp_brand _)) => apply ftyp_brand_in_catalogs
      | |- in_catalogs (Some (ft _ _)) => split; reflexivity
      | |- in_catalogs ?r =>
          match goal with H : in_catalogs ?r' |- _ => constr_eq r r'; exact H end
      end
  | |- Post in_catalogs (@bind (option ftype) _ _ _) =>
      apply (post_bind_P in_catalogs); [ | intros ? ? ]
  | |- Post _ (bind _ _) => apply post_bind; intros ?
  | |- Post _ (catch _ _) => apply post_catch; [ | intros ? ]
  | |- Post _ (probe _ _ _) => unfold probe
  | |- Post _ (found _) => unfold found
  | |- Post _ none => unfold none
  | |- Post _ (unless_found _ _) => unfold unless_found
  | |- Post _ (tiff_probe _ _ _) => unfold tiff_probe
  | |- Post _ (match ?x with _ => _ end) => destruct x
  | |- Post in_catalogs ?m =>
      first [ match goal with H : Post in_catalogs ?m' |- _ => constr_eq m m'; exact H end
            | solve [ auto with walks ] ]
  end.

Ltac post := repeat post_step.

Lemma readTiffTag_post b : Post in_catalogs (readTiffTag b).
Proof. unfold readTiffTag. post. Qed.
#[local] Hint Extern 1 (Post _ (readTiffTag _)) => apply readTiffTag_post : walks.

Lemma tiff_tags_post k b : Post in_catalogs (tiff_tags k b).
Proof. induction k; cbn [tiff_tags]; post. Qed.
#[local] Hint Extern 1 (Post _ (tiff_tags _ _)) => apply tiff_tags_post : walks.

Lemma readTiffIFD_post b : Post in_catalogs (readTiffIFD b).
Proof. unfold readTiffIFD. post. Qed.
#[local] Hint Extern 1 (Post _ (readTiffIFD _)) => apply readTiffIFD_post : walks.

Lemma readTiffHeader_post b : Post in_catalogs (readTiffHeader b).
Proof. unfold readTiffHeader. post. Qed.
#[local] Hint Extern 1 (Post _ (readTiffHeader _)) => apply readTiffHeader_post : walks.

Lemma png_loop_post f : Post in_catalogs (png_loop f).
Proof. induction f; cbn [png_loop]; post. Qed.
#[local] Hint Extern 1 (Post _ (png_loop _)) => apply png_loop_post : walks.

Lemma png_walk_post f : Post in_catalogs (png_walk f).
Proof. unfold png_walk. post. Qed.
#[local] Hint Extern 1 (Post _ (png_walk _)) => apply png_walk_post : walks.

Lemma zip_loop_post f : Post in_catalogs (zip_loop f).
Proof. induction f; cbn [zip_loop]; post. Qed.
#[local] Hint Extern 1 (Post _ (zip_loop _)) => apply zip_loop_post : walks.

Lemma zip_walk_post f : Post in_catalogs (zip_walk f).
Proof. unfold zip_walk. post. Qed.
#[local] Hint Extern 1 (Post _ (zip_walk _)) => apply zip_walk_post : walks.

Lemma ebml_walk_post f : Post in_catalogs (ebml_walk f).
Proof. unfold ebml_walk. post. Qed.
#[local] Hint Extern 1 (Post _ (ebml_walk _)) => apply ebml_walk_post : walks.

Lemma asf_loop_post f : Post in_catalogs (asf_loop f).
Proof. induction f; cbn [asf_loop]; post. Qed.
#[local] Hint Extern 1 (Post _ (asf_loop _)) => apply asf_loop_post : walks.

Lemma asf_walk_post f : Post in_catalogs (asf_walk f).
Proof. unfold asf_walk. post. Qed.
#[local] Hint Extern 1 (Post _ (asf_walk _)) => apply asf_walk_post : walks.

Lemma ogg_walk_post : Post in_catalogs ogg_walk.
Proof. unfold ogg_walk. post. Qed.
#[local] Hint Extern 1 (Post _ ogg_walk) => apply ogg_walk_post : walks.

Lemma pdf_walk_post : Post in_catalogs pdf_walk.
Proof. unfold pdf_walk. post. Qed.
#[local] Hint Extern 1 (Post _ pdf_walk) => apply pdf_walk_post : walks.

Lemma ar_walk_post : Post in_catalogs ar_walk.
Proof. unfold ar_walk. post. Qed.
#[local] Hint Extern 1 (Post _ ar_walk) => apply ar_walk_post : walks.

Lemma jp2_walk_post : Post in_catalogs jp2_walk.
Proof. unfold jp2_walk. post. Qed.
#[local] Hint Extern 1 (Post _ jp2_walk) => apply jp2_walk_post : walks.

Lemma parse_head_post rec k :
  Post in_catalogs rec -> Post in_catalogs k -> Post in_catalogs (parse_head rec k).
Proof. intros Hr Hk. unfold parse_head. post. Qed.

Lemma parse_zip_ftyp_post f k :
  Post in_catalogs k -> Post in_catalogs (parse_zip_ftyp f k).
Proof. intros Hk. unfold parse_zip_ftyp. post. Qed.

Lemma parse_fonts_ebml_post f k :
  Post in_catalogs k -> Post in_catalogs (parse_fonts_ebml f k).
Proof. intros Hk. unfold parse_fonts_ebml. post. Qed.

Lemma parse_riff_ar_post k :
  Post in_catalogs k -> Post in_catalogs (parse_riff_ar k).
Proof. intros Hk. unfold parse_riff_ar. post. Qed.

Lemma parse_png_cfb_post f k :
  Post in_catalogs k -> Post in_catalogs (parse_png_cfb f k).
Proof. intros Hk. unfold parse_png_cfb. post. Qed.

Lemma parse_tail_post : Post in_catalogs parse_tail.
Proof. unfold parse_tail. post. Qed.

Lemma parse_post f : Post in_catalogs (parse f).
Proof.
  induction f as [|f IH]; cbn [parse]; [apply post_nofuel |].
  apply post_bind; intros _.
  apply parse_head_post; [exact IH |].
  apply parse_zip_ftyp_post, parse_fonts_ebml_post, parse_riff_ar_post,
    parse_png_cfb_post, parse_tail_post.
Qed.

Lemma run_parse_in_catalogs fuel t :
  match run_parse fuel t with Fulfilled r => in_catalogs r | _ => True end.
Proof.
  unfold run_parse. pose proof (parse_post fuel (mkP t [] false)) as H.
  destruct (parse fuel (mkP t [] false)); [exact H | exact I | exact I].
Qed.

(** C5.  Whatever the input and the fuel, a detection result of
    [fileTypeFromBuffer] or [fileTypeFromTokenizer] is [undefined] or an
    [{ext, mime}] with [ext] in [supportedExtensions] and [mime] in
    [supportedMimeTypes]: every literal returned by a branch of [parse] or of
    its walks is in the catalogs. *)
Theorem detection_result_in_catalogs :
  (forall fuel input,
     match fileTypeFromBuffer fuel input with Fulfilled r => in_catalogs r | _ => True end)
  /\ (forall fuel t,
     match fileTypeFromTokenizer fuel t with Fulfilled r => in_catalogs r | _ => True end).
Proof.
  split.
  - intros fuel input. unfold fileTypeFromBuffer.
    destruct (negb (1 <? buf_len input)); [exact I |].
    apply run_parse_in_catalogs.
  - intros fuel t. apply run_parse_in_catalogs.
Qed.

(* ------------------------------------------------------------------------- *)
(** ** C7: the PNG chunk walk *)

Lemma bind_ok {A B} (m : M A) (k : A -> M B) s a s' :
  m s = Ok a s' -> bind m k s = k a s'.
Proof. intros H. unfold bind. rewrite H. reflexivity. Qed.

Lemma bind_err {A B} (m : M A) (k : A -> M B) s e s' :
  m s = Err e s' -> bind m k s = Err e s'.
Proof. intros H. unfold bind. rewrite H. reflexivity. Qed.

Lemma bz_inj (a b : byte) : bz a = bz b -> a = b.
Proof.
  unfold bz. intros H. apply N2Z.inj in H.
  assert (Some a = Some b) as E by (rewrite <- (Byte.of_to_N a), <- (Byte.of_to_N b), H; reflexivity).
  congruence.
Qed.

Lemma jstr_eqb_map_bz (a b : list byte) : jstr_eqb (map bz a) (map bz b) = bytes_eqb a b.
Proof.
  unfold bytes_eqb. destruct (list_eq_dec Byte.byte_eq_dec a b) as [<- | Hne].
  - induction a as [| x a IH]; cbn; [reflexivity |]. rewrite Z.eqb_refl, IH. reflexivity.
  - apply not_true_iff_false. intros H. apply Hne. clear Hne.
    revert b H. induction a as [| x a IH]; intros [| y b] H; cbn in H; try discriminate; [reflexivity |].
    apply andb_prop in H as [H1 H2]. apply Z.eqb_eq, bz_inj in H1. subst. f_equal. apply IH, H2.
Qed.

Lemma str_is_latin1 (ty : list byte) (s : string) :
  lit s = map bz (list_byte_of_string s) ->
  str_is (decode_latin1 ty) s = bytes_eqb ty (list_byte_of_string s).
Proof. intros H. unfold str_is, decode_latin1. rewrite H. apply jstr_eqb_map_bz. Qed.

Lemma INT32_BE_get_i32be (bs : list byte) : length bs = 4%nat -> INT32_BE_get bs = i32be bs.
Proof.
  intros H. destruct bs as [| b0 [| b1 [| b2 [| b3 [| ]]]]]; try discriminate.
  unfold INT32_BE_get, i32be, be_value. cbn [firstn fold_left].
  pose proof (bz_range b0). pose proof (bz_range b1). pose proof (bz_range b2). pose proof (bz_range b3).
  destruct (Z.leb_spec (2 ^ 31) ((((0 * 256 + bz b0) * 256 + bz b1) * 256 + bz b2) * 256 + bz b3));
  destruct (Z.leb_spec 128 (bz b0)); lia.
Qed.

Lemma length_slice (D : list byte) (p n : Z) :
  0 <= p -> 0 <= n -> p + n <= buf_len D -> length (slice D p (p + n)) = Z.to_nat n.
Proof.
  intros Hp Hn H. unfold slice, buf_len in *. rewrite length_firstn, length_skipn. lia.
Qed.

Lemma buf_len_alloc (n : Z) : 0 <= n -> buf_len (alloc n) = n.
Proof. intros H. unfold alloc. rewrite buf_len_repeat. lia. Qed.

(** [readToken] on a buffer tokenizer at position [pos]. *)
Lemma readToken_run (D buf : list byte) (pos n : Z) (w : bool) :
  0 <= pos <= buf_len D -> 0 < n ->
  readToken n (mkP (mkTok D pos (buf_len D)) buf w) =
  if buf_len D <? pos + n then Err EndOfStreamError (mkP (mkTok D pos (buf_len D)) buf w)
  else Ok (slice D pos (pos + n)) (mkP (mkTok D (pos + n) (buf_len D)) buf w).
Proof.
  intros Hp Hn. unfold readToken, bind, get_position, read_new, tk_readBuffer, opts_pos.
  cbn [p_tok p_buffer p_walked tk_position ro_position].
  rewrite Z.ltb_irrefl.
  assert (Ht : (if pos =? 0 then inr (mkTok D pos (buf_len D)) else inr (set_position (mkTok D pos (buf_len D)) pos))
               = @inr (js_error * tokenizer) tokenizer (mkTok D pos (buf_len D)))
    by (destruct (pos =? 0); reflexivity).
  rewrite Ht; clear Ht.
  unfold tk_peekBuffer, normalizeOptions. cbn [ro_position ro_length ro_offset ro_mayBeLess tk_position tk_data
    or_else no_mayBeLess no_offset no_length no_position].
  rewrite Z.ltb_irrefl. rewrite buf_len_alloc by lia. rewrite Z.sub_0_r.
  replace (if pos =? 0 then pos else pos) with pos by (destruct (pos =? 0); reflexivity).
  cbn [no_mayBeLess no_offset no_length no_position].
  destruct (Z.ltb_spec (buf_len D) (pos + n)) as [Hlt | Hge].
  - rewrite (Z.min_l (buf_len D - pos) n) by lia.
    destruct (Z.ltb_spec (buf_len D - pos) n); [| lia]. reflexivity.
  - rewrite (Z.min_r (buf_len D - pos) n) by lia. rewrite Z.ltb_irrefl. cbn [negb andb].
    rewrite subarray_in by lia. rewrite typed_set_0.
    2:{ unfold buf_len at 1. rewrite length_firstn, length_skipn. rewrite buf_len_alloc by lia.
        unfold buf_len in *. lia. }
    cbn [fst snd]. rewrite Z.ltb_irrefl. unfold ret, set_position. cbn [tk_data tk_size].
    replace (length (firstn (Z.to_nat n) (skipn (Z.to_nat pos) D))) with (Z.to_nat n).
    2:{ rewrite length_firstn, length_skipn. unfold buf_len in *. lia. }
    unfold alloc. replace (skipn (Z.to_nat n) (repeat x00 (Z.to_nat n))) with (@nil byte) by (symmetry; apply skipn_all2; rewrite repeat_length; lia). rewrite app_nil_r.
    unfold slice. replace (pos + n - pos) with n by lia. reflexivity.
Qed.

Lemma ignore_run (D buf : list byte) (pos n : Z) (w : bool) :
  ignore n (mkP (mkTok D pos (buf_len D)) buf w) =
  if buf_len D - pos <? n then Ok (buf_len D - pos) (mkP (mkTok D (buf_len D) (buf_len D)) buf w)
  else Ok n (mkP (mkTok D (pos + n) (buf_len D)) buf w).
Proof.
  unfold ignore, tk_ignore, set_position. cbn [p_tok tk_size tk_position tk_data p_buffer p_walked].
  destruct (buf_len D - pos <? n); [| reflexivity]. do 3 f_equal. lia.
Qed.

Lemma png_loop_run (f : nat) (D buf : list byte) (pos : Z) (w : bool) (o : outcome) :
  0 <= pos <= buf_len D -> png_chunks_spec f D pos = Some o ->
  outcome_of (png_loop f (mkP (mkTok D pos (buf_len D)) buf w)) = o.
Proof.
  revert pos. induction f as [| f IH]; intros pos Hp Ho; [injection Ho as <-; reflexivity |].
  cbn [png_loop]. cbn [png_chunks_spec] in Ho. revert Ho.
  destruct (Z.ltb_spec (buf_len D) (pos + 8)) as [H8 | H8]; [discriminate |].
  rewrite (bind_ok _ _ _ (slice D pos (pos + 4)) (mkP (mkTok D (pos + 4) (buf_len D)) buf w)).
  2:{ rewrite readToken_run by lia. destruct (Z.ltb_spec (buf_len D) (pos + 4)); [lia | reflexivity]. }
  rewrite (bind_ok _ _ _ (slice D (pos + 4) (pos + 8)) (mkP (mkTok D (pos + 8) (buf_len D)) buf w)).
  2:{ rewrite readToken_run by lia. destruct (Z.ltb_spec (buf_len D) (pos + 4 + 4)); [lia |].
      replace (pos + 4 + 4) with (pos + 8) by lia. reflexivity. }
  rewrite INT32_BE_get_i32be by (apply length_slice; lia).
  rewrite !str_is_latin1 by reflexivity.
  set (L := i32be (slice D pos (pos + 4))).
  destruct (Z.ltb_spec L 0) as [HL | HL]; [intros Ho; injection Ho as <-; reflexivity |].
  destruct (bytes_eqb _ (list_byte_of_string "IDAT")); [intros Ho; injection Ho as <-; reflexivity |].
  destruct (bytes_eqb _ (list_byte_of_string "acTL")); [intros Ho; injection Ho as <-; reflexivity |].
  destruct (Z.ltb_spec (buf_len D - (pos + 8)) (L + 4)) as [Hc | Hc].
  - rewrite (bind_ok _ _ _ (buf_len D - (pos + 8)) (mkP (mkTok D (buf_len D) (buf_len D)) buf w)).
    2:{ rewrite ignore_run. destruct (Z.ltb_spec (buf_len D - (pos + 8)) (L + 4)); [reflexivity | lia]. }
    unfold pos_plus_lt_size, bind, get_position, get_size, ret. cbn [p_tok tk_position tk_size].
    destruct (Z.ltb_spec (buf_len D + 8) (buf_len D)); [lia |].
    destruct (Z.ltb_spec (pos + 8 + L + 4 + 8) (buf_len D)); [lia |].
    intros Ho; injection Ho as <-; reflexivity.
  - rewrite (bind_ok _ _ _ (L + 4) (mkP (mkTok D (pos + 8 + L + 4) (buf_len D)) buf w)).
    2:{ rewrite ignore_run. destruct (Z.ltb_spec (buf_len D - (pos + 8)) (L + 4)); [lia |].
        do 3 f_equal; lia. }
    unfold pos_plus_lt_size at 1. unfold bind at 1 2 3, get_position, get_size, ret.
    cbn [p_tok tk_position tk_size].
    destruct (Z.ltb_spec (pos + 8 + L + 4 + 8) (buf_len D)); [| intros Ho; injection Ho as <-; reflexivity].
    intros Ho. apply IH; [lia | exact Ho].
Qed.

Lemma idx_sample (D A : list byte) (k : nat) (i : Z) :
  (k <= length D)%nat -> 0 <= i ->
  idx (firstn k D ++ skipn k A) i = if i <? Z.of_nat k then idx D i else idx A i.
Proof.
  intros Hk Hi. assert (Hl : buf_len (firstn k D) = Z.of_nat k).
  { unfold buf_len. rewrite length_firstn. lia. }
  destruct (Z.ltb_spec i (Z.of_nat k)).
  - rewrite idx_app_l by lia. apply idx_firstn. exact H.
  - rewrite idx_app_r by lia. rewrite idx_skipn by lia. f_equal. lia.
Qed.

(** On a sample taken from [png_magic ++ rest], the [WEBP] probe at offset 8
    fails unless [rest] starts with [WEBP]. *)
Lemma png_sample_not_webp (rest : list byte) :
  firstn 4 rest <> list_byte_of_string "WEBP" ->
  _check (firstn (Z.to_nat (Z.min (buf_len (png_magic ++ rest)) 12)) (png_magic ++ rest)
          ++ skipn (Z.to_nat (Z.min (buf_len (png_magic ++ rest)) 12)) (alloc minimumBytes))
         (stringToBytes "WEBP") 8 None = false.
Proof.
  intros Hne. unfold _check.
  destruct (check_from _ _ _ _ _) eqn:E; [exfalso | reflexivity].
  rewrite check_from_spec in E.
  set (k := Z.to_nat (Z.min (buf_len (png_magic ++ rest)) 12)) in E.
  assert (Hk : (k <= length (png_magic ++ rest))%nat).
  { subst k. unfold buf_len. lia. }
  assert (Hr : forall i h, (i < 4)%nat -> nth_error (stringToBytes "WEBP") i = Some h ->
                 idx rest (Z.of_nat i) = Some h).
  { intros i h Hi Hn. pose proof (E i h Hn) as H. rewrite idx_sample in H by (exact Hk || lia).
    destruct (Z.ltb_spec (0 + Z.of_nat i + 8) (Z.of_nat k)).
    - rewrite idx_app_r in H by (cbn; lia). rewrite <- H. f_equal. cbn. lia.
    - unfold alloc, minimumBytes in H. rewrite idx_repeat in H by lia.
      injection H as <-. destruct i as [| [| [| [| i]]]]; cbn in Hn; try discriminate; lia. }
  pose proof (Hr 0%nat 87 ltac:(lia) eq_refl) as H0.
  pose proof (Hr 1%nat 69 ltac:(lia) eq_refl) as H1.
  pose proof (Hr 2%nat 66 ltac:(lia) eq_refl) as H2.
  pose proof (Hr 3%nat 80 ltac:(lia) eq_refl) as H3.
  destruct rest as [| b8 [| b9 [| b10 [| b11 r]]]]; cbn in H0, H1, H2, H3; try discriminate.
  injection H0 as H0. injection H1 as H1. injection H2 as H2. injection H3 as H3.
  apply Hne. cbn.
  rewrite (bz_inj b8 "W"%byte H0), (bz_inj b9 "E"%byte H1), (bz_inj b10 "B"%byte H2),
    (bz_inj b11 "P"%byte H3).
  reflexivity.
Qed.

Ltac run_step :=
  lazymatch goal with
  | |- probe _ _ _ _ = _ => unfold probe at 1
  | |- andM _ _ _ = _ => unfold andM at 1
  | |- orM _ _ _ = _ => unfold orM at 1
  | |- unless_found _ _ _ = _ => unfold unless_found at 1
  | |- tiff_probe _ _ _ _ = _ => unfold tiff_probe at 1
  | |- bind ?m ?k ?s = _ => erewrite (bind_ok m k s) by reflexivity; cbv beta
  | |- (if ?b then _ else _) _ = _ =>
      first [ change b with false | change b with true
            | match goal with H : ?l = _ |- _ => change b with l; rewrite H end ]; cbv beta iota
  end.

Lemma png_dispatch rec f tail t B w :
  _check (png_magic ++ B) (stringToBytes "WEBP") 8 None = false ->
  parse_head rec (parse_zip_ftyp f (parse_fonts_ebml f (parse_riff_ar (parse_png_cfb f tail))))
    (mkP t (png_magic ++ B) w)
  = png_walk f (mkP t (png_magic ++ B) true).
Proof. intros HW. unfold parse_head. repeat run_step. reflexivity. Qed.

(** C7.  On an input [png_magic ++ rest] whose bytes 8..11 are not [WEBP]
    (the earlier [WEBP] probe at offset 8 answers webp on those), detection
    with the PNG walk's fuel [f] gives the outcome of the chunk walk of the
    claim from position 8: png at the first [IDAT], apng at an [acTL] met
    before it, "unknown" on a negative length, otherwise a skip of
    [length + 4] bytes while position + 8 < size, and png when the walk
    stops.  A chunk header cut short by the end of the input is left out
    (C1 covers that end-of-stream case). *)
Theorem png_detection_spec (f : nat) (rest : list byte) (o : outcome) :
  firstn 4 rest <> list_byte_of_string "WEBP" ->
  png_chunks_spec f (png_magic ++ rest) 8 = Some o ->
  fileTypeFromBuffer (S f) (png_magic ++ rest) = o.
Proof.
  intros Hne Ho. pose proof (png_sample_not_webp rest Hne) as HW.
  set (D := png_magic ++ rest) in *.
  assert (HD : buf_len D = 8 + buf_len rest) by (subst D; rewrite buf_len_app; reflexivity).
  pose proof (buf_len_nonneg rest).
  unfold fileTypeFromBuffer. destruct (Z.ltb_spec 1 (buf_len D)); [| lia]. cbn [negb].
  change (fileTypeFromTokenizer (S f) (fromBuffer D)) with (outcome_of (parse (S f) (mkP (fromBuffer D) [] false))).
  cbn [parse].
  rewrite (bind_ok _ _ _ _ _ (parse_prologue_run D [] false)).
  set (k := Z.to_nat (Z.min (buf_len D) 12)) in *.
  assert (Hbuf : firstn k D ++ skipn k (alloc minimumBytes)
                 = png_magic ++ (firstn (k - 8) rest ++ skipn k (alloc minimumBytes))).
  { subst D. rewrite firstn_app, app_assoc. f_equal. f_equal.
    apply firstn_all2. cbn. lia. }
  rewrite Hbuf in HW |- *.
  rewrite png_dispatch by exact HW.
  unfold png_walk. rewrite <- Hbuf.
  rewrite (bind_ok _ _ _ 8 (mkP (mkTok D 8 (buf_len D)) (firstn k D ++ skipn k (alloc minimumBytes)) true)).
  2:{ unfold fromBuffer. rewrite ignore_run. destruct (Z.ltb_spec (buf_len D - 0) 8); [lia | reflexivity]. }
  apply png_loop_run; [lia | exact Ho].
Qed.

Lemma png_detection_spec_witness :
  (firstn 4 png_ihdr_idat <> list_byte_of_string "WEBP"
   /\ png_chunks_spec 2 (png_magic ++ png_ihdr_idat) 8 = Some (Fulfilled (Some (ft "png" "image/png"))))
  /\ fileTypeFromBuffer 3 (png_magic ++ png_ihdr_idat) = Fulfilled (Some (ft "png" "image/png")).
Proof.
  split; [split; [vm_compute; discriminate | vm_compute; reflexivity] |].
  apply png_detection_spec; [vm_compute; discriminate | vm_compute; reflexivity].
Defined.

(** Bytes 8..11 equal to [WEBP] after the PNG signature: the [WEBP] probe of
    [parse_head] answers before the PNG walk is reached, where the chunk walk
    would read the chunk type [IDAT] and answer png. *)
Lemma png_magic_webp_probe :
  fileTypeFromBuffer 1 (png_magic ++ list_byte_of_string "WEBPIDAT")
    = Fulfilled (Some (ft "webp" "image/webp"))
  /\ png_chunks_spec 1 (png_magic ++ list_byte_of_string "WEBPIDAT") 8
    = Some (Fulfilled (Some (ft "png" "image/png"))).
Proof. split; vm_compute; reflexivity. Qed.

(** ** Shifting the input: the BOM branch *)

Section ShiftRules.
Variable pre : list byte.

Lemma shift_ret {A} (a : A) : Shift pre (ret a).
Proof. intros s1 s2 H. split; [reflexivity | exact H]. Qed.

Lemma shift_throw {A} e : Shift pre (@throw A e).
Proof. intros s1 s2 H. split; [reflexivity | exact H]. Qed.

Lemma shift_nofuel {A} : Shift pre (@nofuel A).
Proof. intros s1 s2 H. exact I. Qed.

Lemma shift_bind {A B} (m : M A) (k : A -> M B) :
  Shift pre m -> (forall a, Shift pre (k a)) -> Shift pre (bind m k).
Proof.
  intros Hm Hk s1 s2 H. unfold bind. specialize (Hm s1 s2 H).
  destruct (m s1) as [a1 s1' | e1 s1' |], (m s2) as [a2 s2' | e2 s2' |]; cbn in Hm; try contradiction.
  - destruct Hm as [<- Hs]. apply Hk, Hs.
  - exact Hm.
  - exact I.
Qed.

Lemma shift_bind_post {A B} (Q : A -> Prop) (m : M A) (k : A -> M B) :
  Post Q m -> Shift pre m -> (forall a, Q a -> Shift pre (k a)) -> Shift pre (bind m k).
Proof.
  intros HQ Hm Hk s1 s2 H. unfold bind. specialize (HQ s1). specialize (Hm s1 s2 H).
  destruct (m s1) as [a1 s1' | e1 s1' |], (m s2) as [a2 s2' | e2 s2' |]; cbn in Hm; try contradiction.
  - destruct Hm as [<- Hs]. apply Hk; assumption.
  - exact Hm.
  - exact I.
Qed.

Lemma shift_catch {A} (m : M A) (h : js_error -> M A) :
  Shift pre m -> (forall e, Shift pre (h e)) -> Shift pre (catch m h).
Proof.
  intros Hm Hh s1 s2 H. unfold catch. specialize (Hm s1 s2 H).
  destruct (m s1) as [a1 s1' | e1 s1' |], (m s2) as [a2 s2' | e2 s2' |]; cbn in Hm; try contradiction.
  - exact Hm.
  - destruct Hm as [<- Hs]. apply Hh, Hs.
  - exact I.
Qed.

Lemma shift_get_buffer : Shift pre get_buffer.
Proof. intros s1 s2 H. split; [apply H | exact H]. Qed.

Lemma shift_set_buffer b : Shift pre (set_buffer b).
Proof. intros s1 s2 H. split; [reflexivity |]. split; [reflexivity | apply H]. Qed.

Lemma shift_enter_walk : Shift pre enter_walk.
Proof. intros s1 s2 H. split; [reflexivity |]. split; apply H. Qed.

End ShiftRules.

Section ShiftTok.
Variable pre : list byte.

Lemma subarray_shift (t1 t2 : tokenizer) (b : Z) :
  shifted_tok pre t1 t2 -> 0 <= b <= buf_len (tk_data t2) - tk_position t2 ->
  subarray (tk_data t1) (tk_position t1) (tk_position t1 + b)
  = subarray (tk_data t2) (tk_position t2) (tk_position t2 + b).
Proof.
  intros (Hd & Hp & _ & _ & Hr) Hb. rewrite Hd, Hp.
  pose proof (buf_len_nonneg pre). pose proof (buf_len_app pre (tk_data t2)).
  rewrite !subarray_in by lia. f_equal.
  rewrite skipn_app. rewrite skipn_all2 by (unfold buf_len in *; lia). cbn [app].
  f_equal. unfold buf_len in *. lia.
Qed.

Lemma tk_peekBuffer_shift (t1 t2 : tokenizer) (target : list byte) (o : option read_opts) :
  shifted_tok pre t1 t2 ->
  (forall o', o = Some o' -> ro_position o' = None /\ ro_offset o' = None /\ 0 <= or_else (ro_length o') 0) ->
  tk_peekBuffer t1 target o = tk_peekBuffer t2 target o.
Proof.
  intros HT Ho. pose proof HT as (Hd & Hp & _ & _ & Hr).
  assert (Hrem : buf_len (tk_data t1) - tk_position t1 = buf_len (tk_data t2) - tk_position t2)
    by (rewrite Hd, Hp, buf_len_app; lia).
  pose proof (buf_len_nonneg target) as Ht.
  destruct o as [[pos len off mbl] |].
  - destruct (Ho _ eq_refl) as (Hpos & Hoff & Hlen). cbn in Hpos, Hoff, Hlen. subst pos off.
    unfold tk_peekBuffer, normalizeOptions. cbn [ro_position ro_length ro_offset ro_mayBeLess
      no_mayBeLess no_offset no_length no_position or_else].
    rewrite Hrem.
    assert (HL : 0 <= or_else len (buf_len target - 0)).
    { destruct len as [l |]; cbn in *; [destruct (l =? 0) |]; lia. }
    rewrite subarray_shift with (t2 := t2) by (exact HT || lia). reflexivity.
  - unfold tk_peekBuffer, normalizeOptions. cbn [no_mayBeLess no_offset no_length no_position].
    rewrite Hrem. rewrite subarray_shift with (t2 := t2) by (exact HT || lia). reflexivity.
Qed.


Lemma tk_peekBuffer_count (t : tokenizer) (target tg : list byte) (o : option read_opts) (n : Z) :
  0 <= tk_position t <= buf_len (tk_data t) ->
  (forall o', o = Some o' -> ro_position o' = None /\ ro_offset o' = None /\ 0 <= or_else (ro_length o') 0) ->
  tk_peekBuffer t target o = inr (n, tg) -> 0 <= n <= buf_len (tk_data t) - tk_position t.
Proof.
  intros Hr Ho E. pose proof (buf_len_nonneg target) as Ht.
  destruct o as [[pos len off mbl] |].
  - destruct (Ho _ eq_refl) as (Hpos & Hoff & Hlen). cbn in Hpos, Hoff, Hlen. subst pos off.
    assert (HL : 0 <= or_else len (buf_len target - 0)).
    { destruct len as [l |]; cbn in *; [destruct (l =? 0) |]; lia. }
    revert E. unfold tk_peekBuffer, normalizeOptions. cbn [ro_position ro_length ro_offset ro_mayBeLess
      no_mayBeLess no_offset no_length no_position or_else].
    destruct (_ && _); [discriminate |].
    destruct (typed_set _ _ _); [| discriminate]. intros E. injection E as <- _. lia.
  - revert E. unfold tk_peekBuffer, normalizeOptions. cbn [no_mayBeLess no_offset no_length no_position].
    destruct (_ && _); [discriminate |].
    destruct (typed_set _ _ _); [| discriminate]. intros E. injection E as <- _. lia.
Qed.

Lemma tk_readBuffer_free (t : tokenizer) (target : list byte) (o : option read_opts) :
  (forall o', o = Some o' -> ro_position o' = None) ->
  tk_readBuffer t target o =
  match tk_peekBuffer t target o with
  | inl e => inl (e, t)
  | inr (n, tg) => inr (n, tg, set_position t (tk_position t + n))
  end.
Proof.
  intros Ho. unfold tk_readBuffer.
  destruct o as [o |]; [rewrite (Ho o eq_refl) |]; reflexivity.
Qed.

Lemma shifted_tok_advance (t1 t2 : tokenizer) (n : Z) :
  shifted_tok pre t1 t2 -> 0 <= tk_position t2 + n <= buf_len (tk_data t2) ->
  shifted_tok pre (set_position t1 (tk_position t1 + n)) (set_position t2 (tk_position t2 + n)).
Proof.
  intros (Hd & Hp & Hs1 & Hs2 & Hr) Hn. unfold set_position, shifted_tok. cbn [tk_data tk_position tk_size].
  repeat split; try assumption; lia.
Qed.

End ShiftTok.

Lemma readToken_plain (n : Z) (s : pstate) :
  readToken n s =
  bind (read_new n (Some (mkOpts None None None false)))
       (fun r => if fst r <? n then throw EndOfStreamError else ret (snd r)) s.
Proof.
  unfold readToken. unfold bind at 1. unfold get_position.
  unfold bind, read_new, tk_readBuffer, opts_pos. cbn [ro_position].
  destruct s as [[D p z] b w]. cbn [p_tok tk_position].
  assert (E : tk_peekBuffer (mkTok D p z) (alloc n) (Some (mkOpts (Some p) None None false))
              = tk_peekBuffer (mkTok D p z) (alloc n) (Some (mkOpts None None None false))).
  { unfold tk_peekBuffer, normalizeOptions. cbn [ro_position ro_length ro_offset ro_mayBeLess tk_position or_else].
    rewrite Z.ltb_irrefl. destruct (p =? 0); reflexivity. }
  unfold set_position. cbn [tk_data tk_size tk_position].
  destruct (p =? 0); [| rewrite Z.ltb_irrefl]; rewrite E; reflexivity.
Qed.

Section ShiftOps.
Variable pre : list byte.

Lemma shift_peek_sample (o : option read_opts) :
  (forall o', o = Some o' -> ro_position o' = None /\ ro_offset o' = None /\ 0 <= or_else (ro_length o') 0) ->
  Shift pre (peek_sample o).
Proof.
  intros Ho s1 s2 H. pose proof H as [Hb HT]. unfold peek_sample.
  rewrite Hb, (tk_peekBuffer_shift pre _ _ _ _ HT Ho).
  destruct (tk_peekBuffer _ _ _) as [e | [n b]].
  - split; [reflexivity | exact H].
  - split; [reflexivity |]. split; [reflexivity | exact HT].
Qed.

Lemma shift_peek_new (len : Z) (o : option read_opts) :
  (forall o', o = Some o' -> ro_position o' = None /\ ro_offset o' = None /\ 0 <= or_else (ro_length o') 0) ->
  Shift pre (peek_new len o).
Proof.
  intros Ho s1 s2 H. pose proof H as [Hb HT]. unfold peek_new.
  rewrite (tk_peekBuffer_shift pre _ _ _ _ HT Ho).
  destruct (tk_peekBuffer _ _ _) as [e | [n b]]; split; (reflexivity || exact H).
Qed.

Lemma shift_read_sample (o : option read_opts) :
  (forall o', o = Some o' -> ro_position o' = None /\ ro_offset o' = None /\ 0 <= or_else (ro_length o') 0) ->
  Shift pre (read_sample o).
Proof.
  intros Ho s1 s2 H. pose proof H as [Hb HT]. unfold read_sample.
  rewrite !tk_readBuffer_free by (intros o' E; apply (Ho o' E)).
  rewrite Hb, (tk_peekBuffer_shift pre _ _ _ _ HT Ho).
  destruct (tk_peekBuffer (p_tok s2) _ _) as [e | [n b]] eqn:E.
  - split; [reflexivity |]. split; [reflexivity | exact HT].
  - split; [reflexivity |]. split; [reflexivity |]. cbn [p_tok].
    apply shifted_tok_advance; [exact HT |].
    pose proof HT as (_ & _ & _ & _ & Hr).
    pose proof (tk_peekBuffer_count _ _ _ _ _ Hr Ho E). lia.
Qed.

Lemma shift_read_new (len : Z) (o : option read_opts) :
  (forall o', o = Some o' -> ro_position o' = None /\ ro_offset o' = None /\ 0 <= or_else (ro_length o') 0) ->
  Shift pre (read_new len o).
Proof.
  intros Ho s1 s2 H. pose proof H as [Hb HT]. unfold read_new.
  rewrite !tk_readBuffer_free by (intros o' E; apply (Ho o' E)).
  rewrite (tk_peekBuffer_shift pre _ _ _ _ HT Ho).
  destruct (tk_peekBuffer (p_tok s2) _ _) as [e | [n b]] eqn:E.
  - split; [reflexivity |]. split; [exact Hb | exact HT].
  - split; [reflexivity |]. split; [exact Hb |]. cbn [p_tok].
    apply shifted_tok_advance; [exact HT |].
    pose proof HT as (_ & _ & _ & _ & Hr).
    pose proof (tk_peekBuffer_count _ _ _ _ _ Hr Ho E). lia.
Qed.

Lemma shift_readToken (n : Z) : Shift pre (readToken n).
Proof.
  intros s1 s2 H. rewrite !readToken_plain.
  apply (shift_bind pre); [| intros r; destruct (fst r <? n); [apply shift_throw | apply shift_ret] | exact H].
  apply shift_read_new. intros o' E. injection E as <-. cbn. repeat split. lia.
Qed.

Lemma shift_ignore (n : Z) : 0 <= n -> Shift pre (ignore n).
Proof.
  intros Hn s1 s2 H. pose proof H as [Hb HT]. pose proof HT as (Hd & Hp & Hs1 & Hs2 & Hr).
  unfold ignore, tk_ignore.
  assert (E : tk_size (p_tok s1) - tk_position (p_tok s1) = tk_size (p_tok s2) - tk_position (p_tok s2))
    by (rewrite Hs1, Hs2, Hd, Hp, buf_len_app; lia).
  rewrite E. destruct (Z.ltb_spec (tk_size (p_tok s2) - tk_position (p_tok s2)) n).
  - split; [reflexivity |]. split; [exact Hb |]. cbn [p_tok].
    apply shifted_tok_advance; [exact HT | lia].
  - split; [reflexivity |]. split; [exact Hb |]. cbn [p_tok].
    apply shifted_tok_advance; [exact HT | lia].
Qed.

Lemma shift_pos_plus_lt_size (k : Z) : Shift pre (pos_plus_lt_size k).
Proof.
  intros s1 s2 H. pose proof H as [Hb HT]. pose proof HT as (Hd & Hp & Hs1 & Hs2 & Hr).
  unfold pos_plus_lt_size, bind, get_position, get_size, ret.
  split; [| exact H]. rewrite Hs1, Hs2, Hd, Hp, buf_len_app.
  destruct (Z.ltb_spec (tk_position (p_tok s2) + buf_len pre + k) (buf_len pre + buf_len (tk_data (p_tok s2))));
  destruct (Z.ltb_spec (tk_position (p_tok s2) + k) (buf_len (tk_data (p_tok s2)))); lia.
Qed.

Lemma shift_pos_plus_gt_size (k : Z) : Shift pre (pos_plus_gt_size k).
Proof.
  intros s1 s2 H. pose proof H as [Hb HT]. pose proof HT as (Hd & Hp & Hs1 & Hs2 & Hr).
  unfold pos_plus_gt_size, bind, get_position, get_size, ret.
  split; [| exact H]. rewrite Hs1, Hs2, Hd, Hp, buf_len_app.
  destruct (Z.ltb_spec (buf_len pre + buf_len (tk_data (p_tok s2))) (tk_position (p_tok s2) + buf_len pre + k));
  destruct (Z.ltb_spec (buf_len (tk_data (p_tok s2))) (tk_position (p_tok s2) + k)); lia.
Qed.

End ShiftOps.

Section ShiftSize.
Variable pre : list byte.

(** [peekBuffer(this.buffer, {length: Math.min(L, fileInfo.size), mayBeLess:
    true})]: the two sizes differ by the prefix, but the byte counts agree. *)
Lemma shift_peek_min_size (L : Z) (K : M (option ftype)) :
  0 < L -> Shift pre K ->
  Shift pre (sz <- get_size ;; peek_sample (opts_len (Z.min L sz) true) ;;; K).
Proof.
  intros HL HK s1 s2 H. pose proof H as [Hb HT]. pose proof HT as (Hd & Hp & Hs1 & Hs2 & Hr).
  unfold bind at 1 3, get_size. unfold bind, peek_sample.
  assert (E : tk_peekBuffer (p_tok s1) (p_buffer s1) (opts_len (Z.min L (tk_size (p_tok s1))) true)
              = tk_peekBuffer (p_tok s2) (p_buffer s2) (opts_len (Z.min L (tk_size (p_tok s2))) true)).
  { rewrite Hb. pose proof (buf_len_nonneg (p_buffer s2)) as Ht. pose proof (buf_len_nonneg pre) as Hpre.
    unfold tk_peekBuffer, normalizeOptions, opts_len. cbn [ro_position ro_length ro_offset ro_mayBeLess
      no_mayBeLess no_offset no_length no_position or_else].
    set (D := tk_data (p_tok s2)) in *. set (p := tk_position (p_tok s2)) in *.
    assert (Hrem : buf_len (tk_data (p_tok s1)) - tk_position (p_tok s1) = buf_len D - p)
      by (rewrite Hd, Hp, buf_len_app; lia).
    rewrite Hrem.
    assert (Hn : Z.min (buf_len D - p)
                   (if Z.min L (tk_size (p_tok s1)) =? 0 then buf_len (p_buffer s2) - 0 else Z.min L (tk_size (p_tok s1)))
                 = Z.min (buf_len D - p)
                   (if Z.min L (tk_size (p_tok s2)) =? 0 then buf_len (p_buffer s2) - 0 else Z.min L (tk_size (p_tok s2)))).
    { rewrite Hs1, Hs2, Hd, buf_len_app. fold D.
      destruct (Z.eqb_spec (Z.min L (buf_len pre + buf_len D)) 0);
      destruct (Z.eqb_spec (Z.min L (buf_len D)) 0); lia. }
    rewrite Hn.
    assert (HN : 0 <= (if Z.min L (tk_size (p_tok s2)) =? 0 then buf_len (p_buffer s2) - 0
                       else Z.min L (tk_size (p_tok s2)))).
    { rewrite Hs2. destruct (Z.eqb_spec (Z.min L (buf_len D)) 0); pose proof (buf_len_nonneg D); lia. }
    rewrite (subarray_shift pre (p_tok s1) (p_tok s2)) by (exact HT || (fold D p; lia)).
    reflexivity. }
  rewrite E. destruct (tk_peekBuffer (p_tok s2) _ _) as [e | [n b]].
  - split; [reflexivity | exact H].
  - apply HK. split; [reflexivity | exact HT].
Qed.

End ShiftSize.

Lemma prefix_bytes_zeros (N S : list byte) (k : nat) :
  ~ In x00 N -> prefix_bytes N (S ++ repeat x00 k) = prefix_bytes N S.
Proof.
  revert S. induction N as [| x N IH]; intros S HN; [destruct S; reflexivity |].
  destruct S as [| y S]; cbn [app].
  - destruct k as [| k]; [reflexivity |]. cbn [repeat prefix_bytes].
    destruct (Byte.eqb x x00) eqn:E; [apply Byte.byte_dec_bl in E; subst; exfalso; apply HN; left; reflexivity | reflexivity].
  - cbn [prefix_bytes]. rewrite IH by (intros Hin; apply HN; right; exact Hin). reflexivity.
Qed.

Lemma index_of_from_zeros (S N : list byte) (k : nat) (i : Z) :
  N <> [] -> ~ In x00 N -> index_of_from (S ++ repeat x00 k) N i = index_of_from S N i.
Proof.
  intros Hne HN. revert i. induction S as [| y S IH]; intros i.
  - cbn [app]. destruct N as [| x N']; [congruence |].
    assert (Hx : x <> x00) by (intros ->; apply HN; left; reflexivity).
    revert i. induction k as [| k IHk]; intros i; [reflexivity |].
    cbn [repeat index_of_from prefix_bytes]. destruct (Byte.eqb x x00) eqn:E; [apply Byte.byte_dec_bl in E; congruence |].
    cbn [andb]. rewrite IHk. reflexivity.
  - cbn [app index_of_from]. rewrite <- (prefix_bytes_zeros N (y :: S) k HN). cbn [app].
    rewrite IH. reflexivity.
Qed.

Lemma buf_includes_zeros (S N : list byte) (k : nat) :
  N <> [] -> ~ In x00 N -> buf_includes (S ++ repeat x00 k) N = buf_includes S N.
Proof. intros Hne HN. unfold buf_includes, buf_indexOf. rewrite index_of_from_zeros; auto. Qed.

Lemma skipn_repeat_x00 (k n : nat) : skipn k (repeat x00 n) = repeat x00 (n - k).
Proof.
  revert n. induction k as [| k IH]; intros [| n]; cbn; try reflexivity. apply IH.
Qed.

Lemma read_new_mbl_run (t : tokenizer) (L : Z) :
  0 <= L -> 0 <= tk_position t <= buf_len (tk_data t) ->
  tk_readBuffer t (alloc L) opts_mbl =
  let b := Z.min (buf_len (tk_data t) - tk_position t) L in
  inr (b, subarray (tk_data t) (tk_position t) (tk_position t + b) ++ repeat x00 (Z.to_nat (L - b)),
       set_position t (tk_position t + b)).
Proof.
  intros HL Hr. rewrite tk_readBuffer_free by (intros o E; injection E as <-; reflexivity).
  unfold tk_peekBuffer, normalizeOptions, opts_mbl. cbn [ro_position ro_length ro_offset ro_mayBeLess
    no_mayBeLess no_offset no_length no_position or_else negb andb].
  rewrite buf_len_alloc by exact HL. rewrite Z.sub_0_r.
  rewrite subarray_in by lia. rewrite typed_set_0.
  2:{ rewrite buf_len_firstn, buf_len_skipn, buf_len_alloc by exact HL. lia. }
  cbn zeta. f_equal. f_equal. f_equal.
  f_equal. unfold alloc.
  rewrite length_firstn, length_skipn. rewrite skipn_repeat_x00. f_equal. unfold buf_len in *. lia.
Qed.

Section ShiftPdf.
Variable pre : list byte.

Lemma shift_pdf_walk : Shift pre pdf_walk.
Proof.
  unfold pdf_walk. apply shift_bind; [apply shift_ignore; lia | intros _].
  intros s1 s2 H. pose proof H as [Hb HT]. pose proof HT as (Hd & Hp & Hs1 & Hs2 & Hr).
  pose proof (buf_len_nonneg pre). pose proof (buf_len_app pre (tk_data (p_tok s2))).
  unfold bind at 1 3, get_size. unfold bind at 1 2. unfold read_new.
  pose proof (buf_len_nonneg (tk_data (p_tok s2))).
  rewrite !read_new_mbl_run by (rewrite ?Hs1, ?Hs2, ?Hd, ?Hp; lia).
  cbv zeta.
  assert (Eb : Z.min (buf_len (tk_data (p_tok s1)) - tk_position (p_tok s1)) (Z.min (10 * 1024 * 1024) (tk_size (p_tok s1)))
             = Z.min (buf_len (tk_data (p_tok s2)) - tk_position (p_tok s2)) (Z.min (10 * 1024 * 1024) (tk_size (p_tok s2))))
    by (rewrite Hs1, Hs2, Hd, Hp; lia).
  rewrite Eb.
  rewrite (subarray_shift pre (p_tok s1) (p_tok s2)) by (exact HT || (rewrite Hs2; lia)).
  cbn [snd]. rewrite !buf_includes_zeros.
  2, 3, 4, 5: intros Hin; vm_compute in Hin; [discriminate Hin || (repeat destruct Hin as [Hin | Hin]; (discriminate || contradiction))].
  set (c := buf_includes _ _). destruct c; (split; [reflexivity |]); (split; [exact Hb |]);
    (apply shifted_tok_advance; [exact HT | rewrite Hs2; lia]).
Qed.

End ShiftPdf.

(** ** Non-negative lengths *)

Lemma le_value_nonneg (bs : list byte) : 0 <= le_value bs.
Proof.
  unfold le_value. induction bs as [| b bs IH]; cbn [fold_right]; [lia |]. pose proof (bz_range b). lia.
Qed.

Lemma be_value_nonneg (bs : list byte) : 0 <= be_value bs.
Proof.
  unfold be_value. assert (H : forall acc, 0 <= acc -> 0 <= fold_left (fun acc b => acc * 256 + bz b) bs acc).
  { induction bs as [| b bs IH]; intros acc Ha; cbn; [lia |]. apply IH. pose proof (bz_range b). lia. }
  apply H. lia.
Qed.

Lemma read_le_nonneg (b : list byte) (off n : Z) : 0 <= js_num (read_le b off n).
Proof. unfold read_le. destruct (bytes_at b off n); cbn; [apply le_value_nonneg | lia]. Qed.

Lemma read_be_nonneg (b : list byte) (off n : Z) : 0 <= js_num (read_be b off n).
Proof. unfold read_be. destruct (bytes_at b off n); cbn; [apply be_value_nonneg | lia]. Qed.

Lemma readUIntBE_nonneg (b : list byte) (off n v : Z) : readUIntBE b off n = Some v -> 0 <= v.
Proof.
  unfold readUIntBE, read_be. destruct (_ && _); [| discriminate].
  destruct (bytes_at b off n); cbn; [| discriminate]. intros E; injection E as <-. apply be_value_nonneg.
Qed.

Lemma js_num_idx_range (b : list byte) (i : Z) : 0 <= js_num (idx b i) < 256.
Proof.
  unfold idx. destruct (i <? 0); cbn; [lia |].
  destruct (nth_error b (Z.to_nat i)); cbn; [apply bz_range | lia].
Qed.

Lemma js_or_bound (a b k : Z) :
  0 <= k <= 31 -> 0 <= a < 2 ^ k -> 0 <= b < 2 ^ k -> 0 <= js_or a b < 2 ^ k.
Proof.
  intros Hk Ha Hb. assert (2 ^ k <= 2 ^ 31) by (apply Z.pow_le_mono_r; lia).
  rewrite js_or_small by lia.
  assert (Hl : 0 <= Z.lor a b < 2 ^ k).
  { split; [apply Z.lor_nonneg; lia |].
    destruct (Z.eq_dec (Z.lor a b) 0) as [-> | Hnz]; [lia |].
    assert (Hlog : forall x, 0 <= x < 2 ^ k -> Z.log2 x < k).
    { intros x Hx. destruct (Z.eq_dec x 0) as [-> | Hx0].
      - cbn. destruct (Z.eq_dec k 0) as [-> | ]; [| lia].
        exfalso. apply Hnz. cbn in Ha, Hb. replace a with 0 by lia. replace b with 0 by lia. reflexivity.
      - apply Z.log2_lt_pow2; lia. }
    apply Z.log2_lt_pow2; [pose proof (Z.lor_nonneg a b); lia |].
    rewrite Z.log2_lor by lia. apply Z.max_lub_lt; apply Hlog; lia. }
  rewrite to_int32_small by lia. exact Hl.
Qed.

Lemma uint32SyncSafeToken_get_nonneg (b : list byte) (off : Z) : 0 <= uint32SyncSafeToken_get b off.
Proof.
  unfold uint32SyncSafeToken_get.
  pose proof (js_num_idx_range b (off + 3)). pose proof (js_num_idx_range b (off + 2)).
  pose proof (js_num_idx_range b (off + 1)). pose proof (js_num_idx_range b off).
  assert (Hshl : forall v k, 0 <= v < 256 -> 0 <= k <= 21 -> 0 <= js_shl v k < 2 ^ 29).
  { intros v k Hv Hk. unfold js_shl. rewrite (to_int32_small v) by lia. rewrite Z.mod_small by lia.
    rewrite Z.shiftl_mul_pow2 by lia.
    assert (0 < 2 ^ k <= 2 ^ 21) by (split; [apply Z.pow_pos_nonneg | apply Z.pow_le_mono_r]; lia).
    rewrite to_int32_small; nia. }
  assert (Hand : forall v, 0 <= v < 256 -> 0 <= js_and v 127 < 2 ^ 29).
  { intros v Hv. unfold js_and. rewrite (to_int32_small v) by lia. change (to_int32 127) with 127.
    rewrite land_127. pose proof (Z.mod_pos_bound v (2 ^ 7)).
    rewrite to_int32_small by lia. lia. }
  enough (0 <= js_or (js_or (js_or (js_and (js_num (idx b (off + 3))) 127)
              (js_shl (js_num (idx b (off + 2))) 7)) (js_shl (js_num (idx b (off + 1))) 14))
        (js_shl (js_num (idx b off)) 21) < 2 ^ 29) by lia.
  apply js_or_bound; [lia | | apply Hshl; lia].
  apply js_or_bound; [lia | | apply Hshl; lia].
  apply js_or_bound; [lia | apply Hand; lia | apply Hshl; lia].
Qed.

Lemma lor_lt_pow2 (a b k : Z) :
  0 <= a < 2 ^ k -> 0 <= b < 2 ^ k -> 0 <= Z.lor a b < 2 ^ k.
Proof.
  intros Ha Hb. split; [apply Z.lor_nonneg; lia |].
  destruct (Z.eq_dec (Z.lor a b) 0) as [-> | Hnz]; [lia |].
  assert (Hk : 0 <= k).
  { destruct (Z.ltb_spec k 0) as [Hn | Hn]; [| exact Hn].
    rewrite Z.pow_neg_r in Ha by exact Hn. lia. }
  assert (Hlog : forall x, 0 <= x < 2 ^ k -> Z.log2 x < k).
  { intros x Hx. destruct (Z.eq_dec x 0) as [-> | Hx0].
    - cbn. destruct (Z.eq_dec k 0) as [-> | ]; [| lia].
      exfalso. apply Hnz. cbn in Ha, Hb. replace a with 0 by lia. replace b with 0 by lia. reflexivity.
    - apply Z.log2_lt_pow2; lia. }
  apply Z.log2_lt_pow2; [pose proof (Z.lor_nonneg a b); lia |].
  rewrite Z.log2_lor by lia. apply Z.max_lub_lt; apply Hlog; lia.
Qed.

(** C2 (the code's behaviour).  On any four bytes [b0 b1 b2 b3],
    [uint32SyncSafeToken.get] is [(b3 & 0x7F) | b2 << 7 | b1 << 14 | b0 << 21]:
    only the last byte loses its bit 7, so bit 7 of [b2], [b1] and [b0]
    lands on bits 14, 21 and 28, and the result is only bounded by 2^29.
    When bit 7 of [b0], [b1] and [b2] is clear, it is the 28-bit sync-safe
    value, below 2^28. *)
Theorem uint32SyncSafeToken_get_code (pre rest : list byte) (b0 b1 b2 b3 : byte) :
  let v := uint32SyncSafeToken_get (pre ++ [b0; b1; b2; b3] ++ rest) (Z.of_nat (length pre)) in
  v = Z.lor (Z.lor (Z.lor (bz b3 mod 2 ^ 7) (bz b2 * 2 ^ 7)) (bz b1 * 2 ^ 14)) (bz b0 * 2 ^ 21)
  /\ 0 <= v < 2 ^ 29
  /\ (bz b0 < 128 -> bz b1 < 128 -> bz b2 < 128 -> v = syncsafe_value b0 b1 b2 b3 /\ v < 2 ^ 28).
Proof.
  intros v.
  pose proof (bz_range b0). pose proof (bz_range b1).
  pose proof (bz_range b2). pose proof (bz_range b3).
  pose proof (Z.mod_pos_bound (bz b3) (2 ^ 7) ltac:(lia)) as Hm.
  assert (B1 : 0 <= Z.lor (bz b3 mod 2 ^ 7) (bz b2 * 2 ^ 7) < 2 ^ 29)
    by (apply lor_lt_pow2; cbn in *; lia).
  assert (B2 : 0 <= Z.lor (Z.lor (bz b3 mod 2 ^ 7) (bz b2 * 2 ^ 7)) (bz b1 * 2 ^ 14) < 2 ^ 29)
    by (apply lor_lt_pow2; [exact B1 | cbn in *; lia]).
  assert (B3 : 0 <= Z.lor (Z.lor (Z.lor (bz b3 mod 2 ^ 7) (bz b2 * 2 ^ 7)) (bz b1 * 2 ^ 14))
                          (bz b0 * 2 ^ 21) < 2 ^ 29)
    by (apply lor_lt_pow2; [exact B2 | cbn in *; lia]).
  assert (E : v = Z.lor (Z.lor (Z.lor (bz b3 mod 2 ^ 7) (bz b2 * 2 ^ 7)) (bz b1 * 2 ^ 14)) (bz b0 * 2 ^ 21)).
  { subst v. unfold uint32SyncSafeToken_get.
    rewrite !idx_app, idx_app_0 by lia.
    change (idx ([b0; b1; b2; b3] ++ rest) 0) with (Some (bz b0)).
    change (idx ([b0; b1; b2; b3] ++ rest) 1) with (Some (bz b1)).
    change (idx ([b0; b1; b2; b3] ++ rest) 2) with (Some (bz b2)).
    change (idx ([b0; b1; b2; b3] ++ rest) 3) with (Some (bz b3)).
    cbn [js_num].
    rewrite js_and_byte_127, !js_shl_byte by lia.
    rewrite (js_or_small (bz b3 mod 2 ^ 7) (bz b2 * 2 ^ 7)) by (cbn in *; lia).
    rewrite (to_int32_small (Z.lor _ _)) by (cbn in *; lia).
    rewrite (js_or_small (Z.lor (bz b3 mod 2 ^ 7) (bz b2 * 2 ^ 7)) (bz b1 * 2 ^ 14)) by (cbn in *; lia).
    rewrite (to_int32_small (Z.lor (Z.lor _ _) _)) by (cbn in *; lia).
    rewrite (js_or_small (Z.lor (Z.lor (bz b3 mod 2 ^ 7) (bz b2 * 2 ^ 7)) (bz b1 * 2 ^ 14)) (bz b0 * 2 ^ 21))
      by (cbn in *; lia).
    apply to_int32_small. cbn in *. lia. }
  split; [exact E |]. split; [rewrite E; exact B3 |].
  intros Hc0 Hc1 Hc2. subst v.
  destruct (uint32SyncSafeToken_get_syncsafe pre rest b0 b1 b2 b3 Hc0 Hc1 Hc2) as [Hs Hb].
  rewrite Hs. split; [reflexivity | exact Hb].
Qed.

Lemma uint32SyncSafeToken_get_code_witness :
  let v := uint32SyncSafeToken_get ([] ++ [xff; x00; x80; xff] ++ []) (Z.of_nat (length (@nil byte))) in
  v = Z.lor (Z.lor (Z.lor (bz xff mod 2 ^ 7) (bz x80 * 2 ^ 7)) (bz x00 * 2 ^ 14)) (bz xff * 2 ^ 21)
  /\ 0 <= v < 2 ^ 29
  /\ (bz xff < 128 -> bz x00 < 128 -> bz x80 < 128 -> v = syncsafe_value xff x00 x80 xff /\ v < 2 ^ 28).
Proof. exact (uint32SyncSafeToken_get_code [] [] xff x00 x80 xff). Defined.

Lemma readElement_len_nonneg : Post (fun e => 0 <= snd e) readElement.
Proof.
  unfold readElement. apply post_bind; intros id. apply post_bind; intros lf. cbv zeta.
  destruct (readUIntBE id 0 _); [| apply post_throw].
  lazymatch goal with |- Post _ (match ?x with _ => _ end) => destruct x eqn:E end; [| apply post_throw].
  apply post_ret. cbn [snd]. eapply readUIntBE_nonneg. exact E.
Qed.

(** A read without [mayBeLess] that succeeds moves the position by the
    length read. *)
Lemma read_new_plain_advance (n : Z) (o : option read_opts) (s s' : pstate) (a : Z * list byte) :
  0 <= n -> (o = None \/ o = Some (mkOpts None None None false)) ->
  read_new n o s = Ok a s' -> tk_position (p_tok s') = tk_position (p_tok s) + n.
Proof.
  intros Hn Ho. unfold read_new.
  rewrite tk_readBuffer_free by (destruct Ho as [-> | ->]; [discriminate | intros o' E; injection E as <-; reflexivity]).
  assert (E : tk_peekBuffer (p_tok s) (alloc n) o = tk_peekBuffer (p_tok s) (alloc n) None)
    by (destruct Ho as [-> | ->]; [reflexivity |]; unfold tk_peekBuffer, normalizeOptions;
        cbn [ro_position ro_length ro_offset ro_mayBeLess or_else]; rewrite Z.sub_0_r; reflexivity).
  rewrite E. unfold tk_peekBuffer, normalizeOptions. cbn [no_mayBeLess no_offset no_length no_position negb andb].
  rewrite buf_len_alloc by exact Hn.
  destruct (Z.ltb_spec (Z.min (buf_len (tk_data (p_tok s)) - tk_position (p_tok s)) n) n); [discriminate |].
  destruct (typed_set _ _ _); [| discriminate]. intros E'. injection E' as _ <-. cbn. lia.
Qed.

Lemma readToken_advance (n : Z) (s s' : pstate) (a : list byte) :
  0 <= n -> readToken n s = Ok a s' -> tk_position (p_tok s') = tk_position (p_tok s) + n.
Proof.
  intros Hn. rewrite readToken_plain. unfold bind.
  destruct (read_new n _ s) as [r s1 | |] eqn:E; try discriminate.
  apply read_new_plain_advance in E; [| exact Hn | right; reflexivity].
  destruct (fst r <? n); [discriminate |]. intros E'. injection E' as _ <-. exact E.
Qed.

Section ShiftAsf.
Variable pre : list byte.

Lemma shift_ignore_at (n : Z) (s1 s2 : pstate) :
  shifted pre s1 s2 -> 0 <= tk_position (p_tok s2) + n -> res_shifted pre (ignore n s1) (ignore n s2).
Proof.
  intros H Hn. pose proof H as [Hb HT]. pose proof HT as (Hd & Hp & Hs1 & Hs2 & Hr).
  unfold ignore, tk_ignore.
  assert (E : tk_size (p_tok s1) - tk_position (p_tok s1) = tk_size (p_tok s2) - tk_position (p_tok s2))
    by (rewrite Hs1, Hs2, Hd, Hp, buf_len_app; lia).
  rewrite E. destruct (Z.ltb_spec (tk_size (p_tok s2) - tk_position (p_tok s2)) n).
  - split; [reflexivity |]. split; [exact Hb |]. cbn [p_tok].
    apply shifted_tok_advance; [exact HT | lia].
  - split; [reflexivity |]. split; [exact Hb |]. cbn [p_tok].
    apply shifted_tok_advance; [exact HT | lia].
Qed.

Lemma res_shifted_bind {A B} (m : M A) (k : A -> M B) (s1 s2 : pstate) :
  res_shifted pre (m s1) (m s2) ->
  (forall a s1' s2', m s1 = Ok a s1' -> m s2 = Ok a s2' -> shifted pre s1' s2' ->
     res_shifted pre (k a s1') (k a s2')) ->
  res_shifted pre (bind m k s1) (bind m k s2).
Proof.
  intros Hm Hk. unfold bind.
  destruct (m s1) as [a1 s1' | e1 s1' |] eqn:E1, (m s2) as [a2 s2' | e2 s2' |] eqn:E2;
    cbn in Hm; try contradiction.
  - destruct Hm as [<- Hs]. apply Hk; auto.
  - exact Hm.
  - exact I.
Qed.

Lemma shift_asf_loop (f : nat) : Shift pre (asf_loop f).
Proof.
  induction f as [| f IH]; [apply shift_nofuel |]. cbn [asf_loop].
  intros s1 s2 H.
  apply res_shifted_bind; [apply shift_pos_plus_lt_size; exact H | intros c s1a s2a _ E2 Ha].
  change (pos_plus_lt_size 24 s2) with (Ok (tk_position (p_tok s2) + 24 <? tk_size (p_tok s2)) s2) in E2.
  injection E2 as <- <-.
  destruct (Z.ltb_spec (tk_position (p_tok s2) + 24) (tk_size (p_tok s2))) as [Hlt | _];
    cbn [negb]; [| apply (shift_ret pre None _ _ Ha)].
  apply res_shifted_bind; [apply shift_read_new; [discriminate | exact Ha] | intros g s1b s2b _ E2b Hb'].
  apply read_new_plain_advance in E2b; [| lia | left; reflexivity].
  apply res_shifted_bind; [apply shift_readToken; exact Hb' | intros z s1c s2c _ E2c Hc].
  apply readToken_advance in E2c; [| lia].
  cbv zeta.
  destruct (_check (snd g) _ 0 None).
  - apply shift_bind; [apply shift_read_new; discriminate | intros t |].
    + destruct (_check (snd t) _ 0 None); [apply shift_ret |].
      destruct (_check (snd t) _ 0 None); apply shift_ret.
    + exact Hc.
  - apply res_shifted_bind; [apply shift_ignore_at; [exact Hc |] | intros x s1d s2d _ _ Hd'; apply IH, Hd'].
    unfold UINT64_LE_get. pose proof (le_value_nonneg (firstn 8 z)).
    pose proof Ha as (_ & _ & _ & _ & _ & Hr). lia.
Qed.

End ShiftAsf.

(** ** Every piece of [parse] commutes with the shift *)

Create HintDb shifts discriminated.

Ltac opts_free :=
  intros ? E; unfold opts_len, opts_mbl in E; first [ discriminate E | injection E as <-; cbn; repeat split; lia ].

Ltac nonneg :=
  repeat match goal with
         | H : (_ <? _) = false |- _ => apply Z.ltb_ge in H
         | H : (_ <=? _) = true |- _ => apply Z.leb_le in H
         end;
  first [ lia
        | apply read_le_nonneg | apply read_be_nonneg | apply uint32SyncSafeToken_get_nonneg
        | match goal with |- context [if ?b then read_be else read_le] =>
            destruct b; [apply read_be_nonneg | apply read_le_nonneg] end
        | match goal with |- 0 <= (if ?b then _ else _) =>
            destruct b eqn:?; nonneg end
        | match goal with |- 0 <= buf_len ?l => apply buf_len_nonneg end ].

Ltac shift_step :=
  cbv beta zeta;
  lazymatch goal with
  | |- Shift _ nofuel => apply shift_nofuel
  | |- Shift _ (throw _) => apply shift_throw
  | |- Shift _ (ret _) => apply shift_ret
  | |- Shift _ (bind get_size _) => apply shift_peek_min_size; [lia |]
  | |- Shift _ (bind readElement _) =>
      apply (shift_bind_post _ (fun e => 0 <= snd e)); [apply readElement_len_nonneg | | intros ? ?]
  | |- Shift _ (bind _ _) => apply shift_bind; [ | intros ?]
  | |- Shift _ (catch _ _) => apply shift_catch; [ | intros ?]
  | |- Shift _ (probe _ _ _) => unfold probe
  | |- Shift _ (found _) => unfold found
  | |- Shift _ none => unfold none
  | |- Shift _ (unless_found _ _) => unfold unless_found
  | |- Shift _ (tiff_probe _ _ _) => unfold tiff_probe
  | |- Shift _ (andM _ _) => unfold andM
  | |- Shift _ (orM _ _) => unfold orM
  | |- Shift _ (check _) => unfold check
  | |- Shift _ (check_at _ _) => unfold check_at
  | |- Shift _ (checkString _) => unfold checkString
  | |- Shift _ (checkString_at _ _) => unfold checkString_at
  | |- Shift _ (check_m _ _ _) => unfold check_m
  | |- Shift _ (buffer_at _) => unfold buffer_at
  | |- Shift _ (buffer_in _ _) => unfold buffer_in
  | |- Shift _ asar_probe => unfold asar_probe
  | |- Shift _ (fold_right _ _ _) => cbn [fold_right]
  | |- Shift _ peekNumber_UINT8 => unfold peekNumber_UINT8
  | |- Shift _ readField => unfold readField
  | |- Shift _ (match ?x with _ => _ end) => destruct x eqn:?
  | |- Shift _ get_buffer => apply shift_get_buffer
  | |- Shift _ (set_buffer _) => apply shift_set_buffer
  | |- Shift _ enter_walk => apply shift_enter_walk
  | |- Shift _ (peek_sample _) => apply shift_peek_sample; opts_free
  | |- Shift _ (read_sample _) => apply shift_read_sample; opts_free
  | |- Shift _ (read_new _ _) => apply shift_read_new; opts_free
  | |- Shift _ (peek_new _ _) => apply shift_peek_new; opts_free
  | |- Shift _ (readToken _) => apply shift_readToken
  | |- Shift _ (ignore _) => apply shift_ignore; nonneg
  | |- Shift _ (pos_plus_lt_size _) => apply shift_pos_plus_lt_size
  | |- Shift _ (pos_plus_gt_size _) => apply shift_pos_plus_gt_size
  | |- Shift _ ?m =>
      first [ match goal with H : Shift _ ?m' |- _ => constr_eq m m'; exact H end
            | solve [ auto with shifts ] ]
  end.

Ltac shift := repeat shift_step.

Section ShiftParse.
Variable pre : list byte.

#[local] Hint Extern 1 (Shift _ pdf_walk) => apply shift_pdf_walk : shifts.
#[local] Hint Extern 1 (Shift _ (asf_loop _)) => apply shift_asf_loop : shifts.

Lemma shift_readElement : Shift pre readElement.
Proof. unfold readElement. shift. Qed.
#[local] Hint Extern 1 (Shift _ readElement) => apply shift_readElement : shifts.

Lemma shift_readTiffTag b : Shift pre (readTiffTag b).
Proof. unfold readTiffTag. shift. Qed.
#[local] Hint Extern 1 (Shift _ (readTiffTag _)) => apply shift_readTiffTag : shifts.

Lemma shift_tiff_tags k b : Shift pre (tiff_tags k b).
Proof. induction k; cbn [tiff_tags]; shift. Qed.
#[local] Hint Extern 1 (Shift _ (tiff_tags _ _)) => apply shift_tiff_tags : shifts.

Lemma shift_readTiffIFD b : Shift pre (readTiffIFD b).
Proof. unfold readTiffIFD. shift. Qed.
#[local] Hint Extern 1 (Shift _ (readTiffIFD _)) => apply shift_readTiffIFD : shifts.

Lemma shift_readTiffHeader b : Shift pre (readTiffHeader b).
Proof. unfold readTiffHeader. shift. Qed.
#[local] Hint Extern 1 (Shift _ (readTiffHeader _)) => apply shift_readTiffHeader : shifts.

Lemma shift_png_loop f : Shift pre (png_loop f).
Proof. induction f; cbn [png_loop]; shift. Qed.
#[local] Hint Extern 1 (Shift _ (png_loop _)) => apply shift_png_loop : shifts.

Lemma shift_png_walk f : Shift pre (png_walk f).
Proof. unfold png_walk. shift. Qed.
#[local] Hint Extern 1 (Shift _ (png_walk _)) => apply shift_png_walk : shifts.

Lemma shift_zip_seek f i : Shift pre (zip_seek f i).
Proof. revert i. induction f; intros i; cbn [zip_seek]; shift. Qed.
#[local] Hint Extern 1 (Shift _ (zip_seek _ _)) => apply shift_zip_seek : shifts.

Lemma shift_zip_loop f : Shift pre (zip_loop f).
Proof. induction f; cbn [zip_loop]; shift. Qed.
#[local] Hint Extern 1 (Shift _ (zip_loop _)) => apply shift_zip_loop : shifts.

Lemma shift_zip_walk f : Shift pre (zip_walk f).
Proof. unfold zip_walk. shift. Qed.
#[local] Hint Extern 1 (Shift _ (zip_walk _)) => apply shift_zip_walk : shifts.

Lemma shift_readChildren f c : Shift pre (readChildren f c).
Proof. revert c. induction f; intros c; cbn [readChildren]; shift. Qed.
#[local] Hint Extern 1 (Shift _ (readChildren _ _)) => apply shift_readChildren : shifts.

Lemma shift_ebml_walk f : Shift pre (ebml_walk f).
Proof. unfold ebml_walk. shift. Qed.
#[local] Hint Extern 1 (Shift _ (ebml_walk _)) => apply shift_ebml_walk : shifts.

Lemma shift_asf_walk f : Shift pre (asf_walk f).
Proof. unfold asf_walk. shift. Qed.
#[local] Hint Extern 1 (Shift _ (asf_walk _)) => apply shift_asf_walk : shifts.

Lemma shift_ogg_walk : Shift pre ogg_walk.
Proof. unfold ogg_walk. shift. Qed.
#[local] Hint Extern 1 (Shift _ ogg_walk) => apply shift_ogg_walk : shifts.

Lemma shift_ar_walk : Shift pre ar_walk.
Proof. unfold ar_walk. shift. Qed.
#[local] Hint Extern 1 (Shift _ ar_walk) => apply shift_ar_walk : shifts.

Lemma shift_jp2_walk : Shift pre jp2_walk.
Proof. unfold jp2_walk. shift. Qed.
#[local] Hint Extern 1 (Shift _ jp2_walk) => apply shift_jp2_walk : shifts.

Lemma shift_parse_head rec k : Shift pre rec -> Shift pre k -> Shift pre (parse_head rec k).
Proof. intros Hr Hk. unfold parse_head. shift. Qed.

Lemma shift_parse_zip_ftyp f k : Shift pre k -> Shift pre (parse_zip_ftyp f k).
Proof. intros Hk. unfold parse_zip_ftyp. shift. Qed.

Lemma shift_parse_fonts_ebml f k : Shift pre k -> Shift pre (parse_fonts_ebml f k).
Proof. intros Hk. unfold parse_fonts_ebml. shift. Qed.

Lemma shift_parse_riff_ar k : Shift pre k -> Shift pre (parse_riff_ar k).
Proof. intros Hk. unfold parse_riff_ar. shift. Qed.

Lemma shift_parse_png_cfb f k : Shift pre k -> Shift pre (parse_png_cfb f k).
Proof. intros Hk. unfold parse_png_cfb. shift. Qed.

Lemma shift_parse_tail : Shift pre parse_tail.
Proof. unfold parse_tail. shift. Qed.

(** [parse] allocates its own sample buffer, so the buffers of the two runs
    need not agree at the start. *)
Lemma shift_parse (n : nat) (s1 s2 : pstate) :
  shifted_tok pre (p_tok s1) (p_tok s2) -> res_shifted pre (parse n s1) (parse n s2).
Proof.
  revert s1 s2. induction n as [| f IH]; intros s1 s2 HT; [exact I |]. cbn [parse].
  apply res_shifted_bind.
  - unfold parse_prologue, bind at 1 2, set_buffer.
    apply shift_peek_sample; [opts_free |]. split; [reflexivity | exact HT].
  - intros _ s1' s2' _ _ H'. revert s1' s2' H'.
    apply shift_parse_head; [intros s1' s2' [_ HT']; apply IH, HT' |].
    apply shift_parse_zip_ftyp, shift_parse_fonts_ebml, shift_parse_riff_ar,
      shift_parse_png_cfb, shift_parse_tail.
Qed.

End ShiftParse.

Lemma res_shifted_outcome (pre : list byte) (r1 r2 : res (option ftype)) :
  res_shifted pre r1 r2 -> outcome_of r1 = outcome_of r2.
Proof.
  destruct r1, r2; cbn; try contradiction; intros H; try reflexivity; destruct H as [-> _]; reflexivity.
Qed.

Lemma parse_short_none (n : nat) (X : list byte) :
  (length X <= 1)%nat -> outcome_of (parse (S n) (mkP (fromBuffer X) [] false)) = Fulfilled None.
Proof.
  intros H. destruct X as [| b [| c X]]; [vm_compute; reflexivity | | cbn in H; lia].
  destruct b; vm_compute; reflexivity.
Qed.

Lemma bom_dispatch rec f tail t B w :
  parse_head rec (parse_zip_ftyp f (parse_fonts_ebml f (parse_riff_ar (parse_png_cfb f tail))))
    (mkP t (bom ++ B) w)
  = (ignore 3 ;;; rec) (mkP t (bom ++ B) true).
Proof. unfold parse_head. repeat run_step. reflexivity. Qed.

(** C6. Prepending a UTF-8 byte-order mark [EF BB BF] to any input [X] does
    not change the detection result: the BOM branch of [parse] skips the three
    bytes and re-enters the whole detection, which then reads the rest of the
    input exactly as a run on [X] would. The fuel counts the re-entries of
    [parse], so the run on [bom ++ X] gets one more. *)
Theorem bom_transparent (n : nat) (X : list byte) :
  fileTypeFromBuffer (S (S n)) (bom ++ X) = fileTypeFromBuffer (S n) X.
Proof.
  set (D := bom ++ X).
  assert (HD : buf_len D = 3 + buf_len X) by (subst D; rewrite buf_len_app; reflexivity).
  pose proof (buf_len_nonneg X).
  unfold fileTypeFromBuffer at 1. destruct (Z.ltb_spec 1 (buf_len D)); [| lia]. cbn [negb].
  change (fileTypeFromTokenizer (S (S n)) (fromBuffer D))
    with (outcome_of (parse (S (S n)) (mkP (fromBuffer D) [] false))).
  cbn [parse].
  rewrite (bind_ok _ _ _ _ _ (parse_prologue_run D [] false)).
  set (k := Z.to_nat (Z.min (buf_len D) 12)).
  assert (Hbuf : firstn k D ++ skipn k (alloc minimumBytes)
                 = bom ++ (firstn (k - 3) X ++ skipn k (alloc minimumBytes))).
  { subst D. rewrite firstn_app, app_assoc. f_equal. f_equal.
    apply firstn_all2. cbn. lia. }
  rewrite Hbuf, bom_dispatch, <- Hbuf.
  rewrite (bind_ok _ _ _ 3 (mkP (mkTok D 3 (buf_len D)) (firstn k D ++ skipn k (alloc minimumBytes)) true)).
  2:{ unfold fromBuffer. rewrite ignore_run. destruct (Z.ltb_spec (buf_len D - 0) 3); [lia | reflexivity]. }
  assert (HS : outcome_of (parse (S n) (mkP (mkTok D 3 (buf_len D)) (firstn k D ++ skipn k (alloc minimumBytes)) true))
               = outcome_of (parse (S n) (mkP (fromBuffer X) [] false))).
  { apply (res_shifted_outcome bom), shift_parse. cbn. unfold shifted_tok; cbn.
    repeat split; try reflexivity; lia. }
  change (outcome_of (parse (S n) (mkP (mkTok D 3 (buf_len D)) (firstn k D ++ skipn k (alloc minimumBytes)) true)) = fileTypeFromBuffer (S n) X).
  rewrite HS. unfold fileTypeFromBuffer.
  destruct (Z.ltb_spec 1 (buf_len X)); cbn [negb]; [reflexivity |].
  apply parse_short_none. unfold buf_len in *. lia.
Qed.

(** ** Appending to the input: runs outside the container walks *)

Section KeepsRules.
Context {A B : Type}.

Lemma kw_ret (a : A) : Keeps_walked (ret a).
Proof. intros s H. exact H. Qed.

Lemma kw_throw e : Keeps_walked (A := A) (throw e).
Proof. intros s H. exact H. Qed.

Lemma kw_nofuel : Keeps_walked (A := A) nofuel.
Proof. intros s H. exact I. Qed.

Lemma kw_bind (m : M A) (k : A -> M B) :
  Keeps_walked m -> (forall a, Keeps_walked (k a)) -> Keeps_walked (bind m k).
Proof.
  intros Hm Hk s H. specialize (Hm s H). unfold bind.
  destruct (m s) as [a s'|e s'|]; [apply Hk | |]; assumption.
Qed.

Lemma kw_catch (m : M A) (h : js_error -> M A) :
  Keeps_walked m -> (forall e, Keeps_walked (h e)) -> Keeps_walked (catch m h).
Proof.
  intros Hm Hh s H. specialize (Hm s H). unfold catch.
  destruct (m s) as [a s'|e s'|]; [ | apply Hh |]; assumption.
Qed.

End KeepsRules.

Lemma kw_get_position : Keeps_walked get_position.
Proof. intros s H. exact H. Qed.
Lemma kw_get_size : Keeps_walked get_size.
Proof. intros s H. exact H. Qed.
Lemma kw_get_buffer : Keeps_walked get_buffer.
Proof. intros s H. exact H. Qed.
Lemma kw_set_buffer b : Keeps_walked (set_buffer b).
Proof. intros s H. exact H. Qed.
Lemma kw_enter_walk : Keeps_walked enter_walk.
Proof. intros s H. reflexivity. Qed.
Lemma kw_ignore n : Keeps_walked (ignore n).
Proof. intros s H. unfold ignore. destruct (tk_ignore _ _). exact H. Qed.
Lemma kw_peek_sample o : Keeps_walked (peek_sample o).
Proof. intros s H. unfold peek_sample. destruct (tk_peekBuffer _ _ _) as [|[]]; exact H. Qed.
Lemma kw_read_sample o : Keeps_walked (read_sample o).
Proof. intros s H. unfold read_sample. destruct (tk_readBuffer _ _ _) as [[]|[[]]]; exact H. Qed.
Lemma kw_read_new n o : Keeps_walked (read_new n o).
Proof. intros s H. unfold read_new. destruct (tk_readBuffer _ _ _) as [[]|[[]]]; exact H. Qed.
Lemma kw_peek_new n o : Keeps_walked (peek_new n o).
Proof. intros s H. unfold peek_new. destruct (tk_peekBuffer _ _ _) as [|[]]; exact H. Qed.

Create HintDb keeps discriminated.

Ltac keeps_step :=
  cbv beta zeta;
  lazymatch goal with
  | |- Keeps_walked (bind _ _) => apply kw_bind; [ | intros ?]
  | |- Keeps_walked (catch _ _) => apply kw_catch; [ | intros ?]
  | |- Keeps_walked (match ?x with _ => _ end) => destruct x
  | |- Keeps_walked nofuel => apply kw_nofuel
  | |- Keeps_walked (throw _) => apply kw_throw
  | |- Keeps_walked (ret _) => apply kw_ret
  | |- Keeps_walked get_position => apply kw_get_position
  | |- Keeps_walked get_size => apply kw_get_size
  | |- Keeps_walked get_buffer => apply kw_get_buffer
  | |- Keeps_walked (set_buffer _) => apply kw_set_buffer
  | |- Keeps_walked enter_walk => apply kw_enter_walk
  | |- Keeps_walked (ignore _) => apply kw_ignore
  | |- Keeps_walked (peek_sample _) => apply kw_peek_sample
  | |- Keeps_walked (read_sample _) => apply kw_read_sample
  | |- Keeps_walked (read_new _ _) => apply kw_read_new
  | |- Keeps_walked (peek_new _ _) => apply kw_peek_new
  | |- Keeps_walked (fold_right _ _ _) => cbn [fold_right]
  | |- Keeps_walked ?m =>
      first [ match goal with H : Keeps_walked ?m' |- _ => constr_eq m m'; exact H end
            | solve [ auto with keeps ]
            | progress unfold probe, found, none, unless_found, tiff_probe, andM, orM, check,
                check_at, checkString, checkString_at, check_m, buffer_at, buffer_in,
                asar_probe, peekNumber_UINT8, readField, readToken, pos_plus_lt_size,
                pos_plus_gt_size in * ]
  end.

Ltac keeps := repeat keeps_step.

Lemma kw_pdf_walk : Keeps_walked pdf_walk.
Proof. unfold pdf_walk. keeps. Qed.
#[local] Hint Resolve kw_pdf_walk : keeps.

Lemma kw_asf_loop f : Keeps_walked (asf_loop f).
Proof. induction f; cbn [asf_loop]; keeps. Qed.
#[local] Hint Resolve kw_asf_loop : keeps.

Lemma kw_readElement : Keeps_walked readElement.
Proof. unfold readElement. keeps. Qed.
#[local] Hint Resolve kw_readElement : keeps.

Lemma kw_readTiffTag b : Keeps_walked (readTiffTag b).
Proof. unfold readTiffTag. keeps. Qed.
#[local] Hint Resolve kw_readTiffTag : keeps.

Lemma kw_tiff_tags k b : Keeps_walked (tiff_tags k b).
Proof. induction k; cbn [tiff_tags]; keeps. Qed.
#[local] Hint Resolve kw_tiff_tags : keeps.

Lemma kw_readTiffIFD b : Keeps_walked (readTiffIFD b).
Proof. unfold readTiffIFD. keeps. Qed.
#[local] Hint Resolve kw_readTiffIFD : keeps.

Lemma kw_readTiffHeader b : Keeps_walked (readTiffHeader b).
Proof. unfold readTiffHeader. keeps. Qed.
#[local] Hint Resolve kw_readTiffHeader : keeps.

Lemma kw_png_loop f : Keeps_walked (png_loop f).
Proof. induction f; cbn [png_loop]; keeps. Qed.
#[local] Hint Resolve kw_png_loop : keeps.

Lemma kw_png_walk f : Keeps_walked (png_walk f).
Proof. unfold png_walk. keeps. Qed.
#[local] Hint Resolve kw_png_walk : keeps.

Lemma kw_zip_seek f i : Keeps_walked (zip_seek f i).
Proof. revert i. induction f; intros i; cbn [zip_seek]; keeps. Qed.
#[local] Hint Resolve kw_zip_seek : keeps.

Lemma kw_zip_loop f : Keeps_walked (zip_loop f).
Proof. induction f; cbn [zip_loop]; keeps. Qed.
#[local] Hint Resolve kw_zip_loop : keeps.

Lemma kw_zip_walk f : Keeps_walked (zip_walk f).
Proof. unfold zip_walk. keeps. Qed.
#[local] Hint Resolve kw_zip_walk : keeps.

Lemma kw_readChildren f c : Keeps_walked (readChildren f c).
Proof. revert c. induction f; intros c; cbn [readChildren]; keeps. Qed.
#[local] Hint Resolve kw_readChildren : keeps.

Lemma kw_ebml_walk f : Keeps_walked (ebml_walk f).
Proof. unfold ebml_walk. keeps. Qed.
#[local] Hint Resolve kw_ebml_walk : keeps.

Lemma kw_asf_walk f : Keeps_walked (asf_walk f).
Proof. unfold asf_walk. keeps. Qed.
#[local] Hint Resolve kw_asf_walk : keeps.

Lemma kw_ogg_walk : Keeps_walked ogg_walk.
Proof. unfold ogg_walk. keeps. Qed.
#[local] Hint Resolve kw_ogg_walk : keeps.

Lemma kw_ar_walk : Keeps_walked ar_walk.
Proof. unfold ar_walk. keeps. Qed.
#[local] Hint Resolve kw_ar_walk : keeps.

Lemma kw_jp2_walk : Keeps_walked jp2_walk.
Proof. unfold jp2_walk. keeps. Qed.
#[local] Hint Resolve kw_jp2_walk : keeps.

Lemma kw_parse_tail : Keeps_walked parse_tail.
Proof. unfold parse_tail. keeps. Qed.
#[local] Hint Resolve kw_parse_tail : keeps.

Lemma kw_parse_pipeline rec f k :
  Keeps_walked rec -> Keeps_walked k ->
  Keeps_walked (parse_head rec (parse_zip_ftyp f (parse_fonts_ebml f (parse_riff_ar (parse_png_cfb f k))))).
Proof.
  intros Hr Hk. unfold parse_head, parse_zip_ftyp, parse_fonts_ebml, parse_riff_ar, parse_png_cfb.
  keeps.
Qed.

Lemma kw_parse n : Keeps_walked (parse n).
Proof.
  induction n as [| f IH]; cbn [parse]; [apply kw_nofuel |].
  apply kw_bind; [unfold parse_prologue; keeps | intros _].
  apply kw_parse_pipeline; [exact IH | exact kw_parse_tail].
Qed.

Section ExtRules.
Variable Y : list byte.
Context {A B : Type}.

Lemma ext_ret (a : A) : Extends Y (ret a).
Proof. intros s1 s2 a' s2' H E _. injection E as <- <-. exists s1. split; [reflexivity | exact H]. Qed.

Lemma ext_throw e : Extends Y (A := A) (throw e).
Proof. intros s1 s2 a s2' _ E. discriminate E. Qed.

Lemma ext_nofuel : Extends Y (A := A) nofuel.
Proof. intros s1 s2 a s2' _ E. discriminate E. Qed.

Lemma ext_final (m : M A) : Extends Y m -> Extends_final Y m.
Proof. intros Hm s1 s2 a s2' H E W. destruct (Hm s1 s2 a s2' H E W) as [s1' [E' _]]. eauto. Qed.

Lemma ext_bind (m : M A) (k : A -> M B) :
  Extends Y m -> (forall a, Keeps_walked (k a)) -> (forall a, Extends Y (k a)) ->
  Extends Y (bind m k).
Proof.
  intros Hm Hkw Hk s1 s2 b s2' H E W. unfold bind in E |- *.
  destruct (m s2) as [a s2''| |] eqn:Em; try discriminate E.
  destruct (p_walked s2'') eqn:W''.
  - specialize (Hkw a s2'' W''). rewrite E in Hkw. congruence.
  - destruct (Hm s1 s2 a s2'' H Em W'') as [s1'' [E1 H'']]. rewrite E1.
    exact (Hk a s1'' s2'' b s2' H'' E W).
Qed.

Lemma final_bind (m : M A) (k : A -> M B) :
  Extends Y m -> (forall a, Keeps_walked (k a)) -> (forall a, Extends_final Y (k a)) ->
  Extends_final Y (bind m k).
Proof.
  intros Hm Hkw Hk s1 s2 b s2' H E W. unfold bind in E |- *.
  destruct (m s2) as [a s2''| |] eqn:Em; try discriminate E.
  destruct (p_walked s2'') eqn:W''.
  - specialize (Hkw a s2'' W''). rewrite E in Hkw. congruence.
  - destruct (Hm s1 s2 a s2'' H Em W'') as [s1'' [E1 H'']]. rewrite E1.
    exact (Hk a s1'' s2'' b s2' H'' E W).
Qed.

End ExtRules.

Section ExtOps.
Variable Y : list byte.

Lemma ext_get_buffer : Extends Y get_buffer.
Proof.
  intros s1 s2 a s2' H E _. injection E as <- <-. exists s1.
  split; [unfold get_buffer; f_equal; apply H | exact H].
Qed.

Lemma ext_set_buffer b : Extends Y (set_buffer b).
Proof.
  intros s1 s2 a s2' H E _. injection E as <- <-. eexists. split; [reflexivity |].
  unfold ext_state in *; cbn [p_tok p_buffer p_walked]. intuition.
Qed.

Lemma ext_enter_walk : Extends Y enter_walk.
Proof. intros s1 s2 a s2' _ E W. injection E as _ <-. discriminate W. Qed.

Lemma slice_app_l (D : list byte) (p n : Z) :
  0 <= p -> 0 <= n -> p + n <= buf_len D -> slice (D ++ Y) p (p + n) = slice D p (p + n).
Proof.
  intros Hp Hn H. unfold slice, buf_len in *.
  rewrite skipn_app, firstn_app, length_skipn.
  replace (Z.to_nat (p + n - p) - (length D - Z.to_nat p))%nat with O by lia.
  rewrite firstn_O, app_nil_r. reflexivity.
Qed.

Lemma subarray_app_l (D : list byte) (p n : Z) :
  0 <= p -> 0 <= n -> p + n <= buf_len D -> subarray (D ++ Y) p (p + n) = subarray D p (p + n).
Proof.
  intros Hp Hn H. pose proof (buf_len_app D Y). pose proof (buf_len_nonneg Y).
  rewrite !subarray_in by lia. pose proof (slice_app_l D p n Hp Hn H) as E.
  unfold slice in E. rewrite Z.add_simpl_l in E. exact E.
Qed.

Lemma peek_ext (t1 t2 : tokenizer) (b : list byte) (L : Z) :
  tk_data t1 = tk_data t2 ++ Y -> tk_position t1 = 0 -> tk_position t2 = 0 ->
  0 < L <= buf_len (tk_data t2) ->
  tk_peekBuffer t1 b (opts_len L true) = tk_peekBuffer t2 b (opts_len L true).
Proof.
  intros Hd Hp1 Hp2 HL. pose proof (buf_len_app (tk_data t2) Y). pose proof (buf_len_nonneg Y).
  unfold tk_peekBuffer, normalizeOptions, opts_len, or_else.
  cbn [ro_offset ro_length ro_position ro_mayBeLess no_position no_length no_mayBeLess no_offset].
  rewrite Hp1, Hp2, Hd. destruct (Z.eqb_spec L 0); [lia |].
  rewrite (Z.min_r (buf_len (tk_data t2 ++ Y) - 0) L) by lia.
  rewrite (Z.min_r (buf_len (tk_data t2) - 0) L) by lia.
  rewrite (subarray_app_l (tk_data t2) 0 L) by lia. reflexivity.
Qed.

Lemma ext_peek_sample (L : Z) : 0 < L <= 512 -> Extends Y (peek_sample (opts_len L true)).
Proof.
  intros HL s1 s2 a s2' H E W.
  destruct H as (Hb & Hw1 & Hw2 & Hd & Hp1 & Hp2 & Hz1 & Hz2 & Hn).
  unfold peek_sample in E |- *. rewrite Hb, (peek_ext (p_tok s1) (p_tok s2)) by (auto; lia).
  destruct (tk_peekBuffer (p_tok s2) (p_buffer s2) (opts_len L true)) as [e | [n b]]; [discriminate E |].
  injection E as <- <-. eexists. split; [reflexivity |].
  unfold ext_state; cbn [p_tok p_buffer p_walked]. repeat split; assumption.
Qed.

Lemma final_min_size (L : Z) (K : M (option ftype)) :
  0 < L <= 512 -> Extends_final Y (peek_sample (opts_len L true) ;;; K) ->
  Extends_final Y (sz <- get_size ;; peek_sample (opts_len (Z.min L sz) true) ;;; K).
Proof.
  intros HL HK s1 s2 a s2' H E W.
  assert (Hs : forall s, L <= tk_size (p_tok s) ->
            (sz <- get_size ;; peek_sample (opts_len (Z.min L sz) true) ;;; K) s
            = (peek_sample (opts_len L true) ;;; K) s).
  { intros s Hs. change ((peek_sample (opts_len (Z.min L (tk_size (p_tok s))) true) ;;; K) s
                         = (peek_sample (opts_len L true) ;;; K) s).
    rewrite Z.min_l by lia. reflexivity. }
  pose proof H as (_ & _ & _ & Hd & _ & _ & Hz1 & Hz2 & Hn).
  pose proof (buf_len_app (tk_data (p_tok s2)) Y). pose proof (buf_len_nonneg Y).
  rewrite Hs in E |- * by (rewrite ?Hz1, ?Hz2, ?Hd; lia).
  exact (HK s1 s2 a s2' H E W).
Qed.

End ExtOps.

#[local] Hint Resolve kw_pdf_walk kw_asf_loop kw_readElement kw_readTiffTag kw_tiff_tags
  kw_readTiffIFD kw_readTiffHeader kw_png_loop kw_png_walk kw_zip_seek kw_zip_loop kw_zip_walk
  kw_readChildren kw_ebml_walk kw_asf_walk kw_ogg_walk kw_ar_walk kw_jp2_walk kw_parse_tail kw_parse : keeps.

Lemma ext_walk (Y : list byte) {A} (k : M A) : Keeps_walked k -> Extends Y (enter_walk ;;; k).
Proof.
  intros Hk s1 s2 a s2' _ E W. unfold bind, enter_walk in E.
  specialize (Hk (mkP (p_tok s2) (p_buffer s2) true) eq_refl). rewrite E in Hk. congruence.
Qed.

Lemma final_walk (Y : list byte) {A} (k : M A) : Keeps_walked k -> Extends_final Y (enter_walk ;;; k).
Proof.
  intros Hk s1 s2 a s2' _ E W. unfold bind, enter_walk in E.
  specialize (Hk (mkP (p_tok s2) (p_buffer s2) true) eq_refl). rewrite E in Hk. congruence.
Qed.

Lemma ignore_in (D b : list byte) (p n : Z) (w : bool) :
  0 <= n -> p + n <= buf_len D ->
  ignore n (mkP (mkTok D p (buf_len D)) b w) = Ok n (mkP (mkTok D (p + n) (buf_len D)) b w).
Proof. intros Hn H. rewrite ignore_run. destruct (Z.ltb_spec (buf_len D - p) n); [lia | reflexivity]. Qed.

Lemma readToken_in (D b : list byte) (p n : Z) (w : bool) :
  0 <= p -> 0 < n -> p + n <= buf_len D ->
  readToken n (mkP (mkTok D p (buf_len D)) b w)
  = Ok (slice D p (p + n)) (mkP (mkTok D (p + n) (buf_len D)) b w).
Proof.
  intros Hp Hn H. rewrite readToken_run by lia.
  destruct (Z.ltb_spec (buf_len D) (p + n)); [lia | reflexivity].
Qed.

Lemma read_new_in (D b : list byte) (p n : Z) (w : bool) :
  0 <= p -> 0 < n -> p + n <= buf_len D ->
  read_new n None (mkP (mkTok D p (buf_len D)) b w)
  = Ok (n, slice D p (p + n)) (mkP (mkTok D (p + n) (buf_len D)) b w).
Proof.
  intros Hp Hn H. unfold read_new, tk_readBuffer, tk_peekBuffer, normalizeOptions.
  cbn [p_tok p_buffer p_walked tk_data tk_position no_position no_length no_mayBeLess no_offset].
  rewrite buf_len_alloc by lia. rewrite (Z.min_r (buf_len D - p) n) by lia.
  rewrite Z.ltb_irrefl. cbn [negb andb].
  rewrite subarray_in by lia. rewrite typed_set_0.
  2:{ rewrite buf_len_firstn, buf_len_alloc by lia. lia. }
  assert (Hl : length (firstn (Z.to_nat n) (skipn (Z.to_nat p) D)) = Z.to_nat n).
  { rewrite length_firstn, length_skipn. unfold buf_len in H. lia. }
  rewrite Hl. unfold alloc. rewrite skipn_repeat_x00, Nat.sub_diag, app_nil_r.
  unfold set_position, slice. cbn [tk_data tk_position tk_size]. rewrite Z.add_simpl_l. reflexivity.
Qed.

Ltac tail_unit Y :=
  let D2 := fresh "D2" in
  intros [[? ? ?] ? ?] [[D2 ? ?] ? ?] ? ? H E _;
  destruct H as (Hb & Hw1 & Hw2 & Hd & Hp1 & Hp2 & Hz1 & Hz2 & Hn);
  cbn [p_tok p_buffer p_walked tk_data tk_position tk_size] in *; subst;
  pose proof (buf_len_app D2 Y); pose proof (buf_len_nonneg Y).

Section ExtTail.
Variable Y : list byte.

Ltac tail_ignore D2 E p n :=
  rewrite (bind_ok _ _ _ _ _ (ignore_in D2 _ p n _ ltac:(lia) ltac:(lia))) in E;
  rewrite (bind_ok _ _ _ _ _ (ignore_in (D2 ++ Y) _ p n _ ltac:(lia) ltac:(lia)));
  cbv beta in E |- *.

Ltac tail_token D2 E p n :=
  rewrite (bind_ok _ _ _ _ _ (readToken_in D2 _ p n _ ltac:(lia) ltac:(lia) ltac:(lia))) in E;
  rewrite (bind_ok _ _ _ _ _ (readToken_in (D2 ++ Y) _ p n _ ltac:(lia) ltac:(lia) ltac:(lia)));
  cbv beta in E |- *.

Ltac tail_read D2 E p n :=
  rewrite (bind_ok _ _ _ _ _ (read_new_in D2 _ p n _ ltac:(lia) ltac:(lia) ltac:(lia))) in E;
  rewrite (bind_ok _ _ _ _ _ (read_new_in (D2 ++ Y) _ p n _ ltac:(lia) ltac:(lia) ltac:(lia)));
  cbv beta in E |- *.

Ltac tail_end E :=
  rewrite ?slice_app_l by lia;
  revert E;
  repeat match goal with |- context [if ?c then _ else _] => destruct c end;
  intros E; unfold found, none, ret in *; injection E as <- _; eexists; reflexivity.

Lemma final_ar_walk : Extends_final Y ar_walk.
Proof. tail_unit Y. unfold ar_walk in *. tail_ignore D2 E 0 8. tail_token D2 E (0 + 8) 13. tail_end E. Qed.

Lemma final_ogg_walk : Extends_final Y ogg_walk.
Proof. tail_unit Y. unfold ogg_walk in *. tail_ignore D2 E 0 28. tail_read D2 E (0 + 28) 8. tail_end E. Qed.

Lemma final_jp2_walk : Extends_final Y jp2_walk.
Proof. tail_unit Y. unfold jp2_walk in *. tail_ignore D2 E 0 20. tail_token D2 E (0 + 20) 4. tail_end E. Qed.

End ExtTail.

Ltac ext_step :=
  cbv beta zeta;
  lazymatch goal with
  | |- Extends_final _ (bind get_size _) => apply final_min_size; [lia |]
  | |- Extends_final _ (bind enter_walk _) => apply final_walk; keeps
  | |- Extends _ (bind enter_walk _) => apply ext_walk; keeps
  | |- Extends_final _ (bind _ _) => apply final_bind; [ | intros ?; keeps | intros ?]
  | |- Extends _ (bind _ _) => apply ext_bind; [ | intros ?; keeps | intros ?]
  | |- Extends_final _ ar_walk => apply final_ar_walk
  | |- Extends_final _ ogg_walk => apply final_ogg_walk
  | |- Extends_final _ jp2_walk => apply final_jp2_walk
  | |- Extends_final _ (match ?x with _ => _ end) => destruct x
  | |- Extends _ (match ?x with _ => _ end) => destruct x
  | |- Extends_final _ (ret _) => apply ext_final
  | |- Extends_final _ (throw _) => apply ext_final
  | |- Extends_final _ nofuel => apply ext_final
  | |- Extends _ nofuel => apply ext_nofuel
  | |- Extends _ (throw _) => apply ext_throw
  | |- Extends _ (ret _) => apply ext_ret
  | |- Extends _ get_buffer => apply ext_get_buffer
  | |- Extends _ (set_buffer _) => apply ext_set_buffer
  | |- Extends _ (peek_sample (opts_len _ true)) => apply ext_peek_sample; lia
  | |- Extends _ (fold_right _ _ _) => cbn [fold_right]
  | |- Extends_final _ (fold_right _ _ _) => cbn [fold_right]
  | |- ?P _ ?m =>
      first [ match goal with H : P _ ?m' |- _ => constr_eq m m'; exact H end
            | solve [ auto with exts ]
            | progress unfold probe, found, none, unless_found, tiff_probe, andM, orM, check,
                check_at, checkString, checkString_at, check_m, buffer_at, buffer_in,
                asar_probe ]
  end.

Ltac ext := repeat ext_step.

Create HintDb exts discriminated.

Section ExtParse.
Variable Y : list byte.

Lemma ext_readTiffHeader b : Extends Y (readTiffHeader b).
Proof. unfold readTiffHeader. ext. Qed.
#[local] Hint Resolve ext_readTiffHeader : exts.

Lemma ext_parse_tail : Extends_final Y parse_tail.
Proof. unfold parse_tail. ext. Qed.

Lemma ext_parse_png_cfb f k : Keeps_walked k -> Extends_final Y k -> Extends_final Y (parse_png_cfb f k).
Proof. intros Hkw Hk. unfold parse_png_cfb. ext. Qed.

Lemma ext_parse_riff_ar k : Keeps_walked k -> Extends_final Y k -> Extends_final Y (parse_riff_ar k).
Proof. intros Hkw Hk. unfold parse_riff_ar. ext. Qed.

Lemma ext_parse_fonts_ebml f k : Keeps_walked k -> Extends_final Y k -> Extends_final Y (parse_fonts_ebml f k).
Proof. intros Hkw Hk. unfold parse_fonts_ebml. ext. Qed.

Lemma ext_parse_zip_ftyp f k : Keeps_walked k -> Extends_final Y k -> Extends_final Y (parse_zip_ftyp f k).
Proof. intros Hkw Hk. unfold parse_zip_ftyp. ext. Qed.

Lemma ext_parse_head rec k :
  Keeps_walked rec -> Keeps_walked k -> Extends_final Y k -> Extends_final Y (parse_head rec k).
Proof. intros Hr Hkw Hk. unfold parse_head. ext. Qed.

End ExtParse.

Lemma kw_parse_zip_ftyp f k : Keeps_walked k -> Keeps_walked (parse_zip_ftyp f k).
Proof. intros Hk. unfold parse_zip_ftyp. keeps. Qed.
Lemma kw_parse_fonts_ebml f k : Keeps_walked k -> Keeps_walked (parse_fonts_ebml f k).
Proof. intros Hk. unfold parse_fonts_ebml. keeps. Qed.
Lemma kw_parse_riff_ar k : Keeps_walked k -> Keeps_walked (parse_riff_ar k).
Proof. intros Hk. unfold parse_riff_ar. keeps. Qed.
Lemma kw_parse_png_cfb f k : Keeps_walked k -> Keeps_walked (parse_png_cfb f k).
Proof. intros Hk. unfold parse_png_cfb. keeps. Qed.

Lemma ext_parse (Y : list byte) (n : nat) : Extends_final Y (parse (S n)).
Proof.
  cbn [parse]. apply final_bind.
  - unfold parse_prologue. ext.
  - intros _. apply kw_parse_pipeline; [apply kw_parse | apply kw_parse_tail].
  - intros _.
    pose proof (kw_parse_png_cfb n _ kw_parse_tail) as K1.
    pose proof (kw_parse_riff_ar _ K1) as K2.
    pose proof (kw_parse_fonts_ebml n _ K2) as K3.
    pose proof (kw_parse_zip_ftyp n _ K3) as K4.
    apply ext_parse_head; [apply kw_parse | exact K4 |].
    apply ext_parse_zip_ftyp; [exact K3 |].
    apply ext_parse_fonts_ebml; [exact K2 |].
    apply ext_parse_riff_ar; [exact K1 |].
    apply ext_parse_png_cfb; [apply kw_parse_tail |].
    apply ext_parse_tail.
Qed.

(** C4 (amended). Appending bytes [Y] to an input [X] does not change the
    result when [X] already has the 512 bytes of the largest sample peek and
    the detection on [X] returns a type without entering a container walk
    (the ghost flag [p_walked] stays false): every probe on that path reads
    the same bytes of [X ++ Y] at the same places. *)
Theorem prefix_stable_without_walk (n : nat) (X Y : list byte) (r : ftype) (s' : pstate) :
  512 <= buf_len X ->
  parse (S n) (mkP (fromBuffer X) [] false) = Ok (Some r) s' ->
  p_walked s' = false ->
  fileTypeFromBuffer (S n) (X ++ Y) = fileTypeFromBuffer (S n) X.
Proof.
  intros HL E W.
  assert (Hst : ext_state Y (mkP (fromBuffer (X ++ Y)) [] false) (mkP (fromBuffer X) [] false)).
  { unfold ext_state, fromBuffer. cbn [p_tok p_buffer p_walked tk_data tk_position tk_size].
    repeat split; assumption. }
  destruct (ext_parse Y n _ _ _ _ Hst E W) as [s1' E1].
  pose proof (buf_len_app X Y). pose proof (buf_len_nonneg Y).
  unfold fileTypeFromBuffer.
  destruct (Z.ltb_spec 1 (buf_len (X ++ Y))); [| lia].
  destruct (Z.ltb_spec 1 (buf_len X)); [| lia]. cbn [negb].
  change (fileTypeFromTokenizer (S n) (fromBuffer (X ++ Y)))
    with (outcome_of (parse (S n) (mkP (fromBuffer (X ++ Y)) [] false))).
  change (fileTypeFromTokenizer (S n) (fromBuffer X))
    with (outcome_of (parse (S n) (mkP (fromBuffer X) [] false))).
  rewrite E, E1. reflexivity.
Qed.

(** The amended property at a 512-byte PostScript input. *)
Lemma prefix_stable_without_walk_witness :
  512 <= buf_len ps_sample /\
  fileTypeFromBuffer 1 (ps_sample ++ epsf_rest) = fileTypeFromBuffer 1 ps_sample.
Proof.
  split; [apply Z.leb_le; vm_compute; reflexivity |].
  apply (prefix_stable_without_walk 0 ps_sample epsf_rest (ft "ps" "application/postscript")
           (mkP (fromBuffer ps_sample) (firstn 24 ps_sample ++ skipn 24 (alloc minimumBytes)) false)).
  - apply Z.leb_le; vm_compute; reflexivity.
  - vm_compute; reflexivity.
  - reflexivity.
Defined.

(** C4, counterexample: on ["%!"] the detection returns [ps] by the
    fixed-offset probe [check([0x25, 0x21])] without a container walk, and
    appending ["PS-Adobe-3.0 EPSF-3.0"] changes the result to [eps]. *)
Lemma ps_then_eps :
  (match parse 1 (mkP (fromBuffer ps_short) [] false) with
   | Ok (Some r) s => r = ft "ps" "application/postscript" /\ p_walked s = false
   | _ => False end)
  /\ fileTypeFromBuffer 1 ps_short = Fulfilled (Some (ft "ps" "application/postscript"))
  /\ fileTypeFromBuffer 1 (ps_short ++ epsf_rest) = Fulfilled (Some (ft "eps" "application/eps")).
Proof. vm_compute. repeat split. Qed.


(** ** More of the tokenizer, the numeric tokens, TAR, EBML, and the ASF, ZIP and PDF branches *)

Lemma sum_bytes_none (B : list byte) (i : Z) (n : nat) : sum_bytes B i n None = None.
Proof. revert i. induction n as [| n IH]; intros i; [reflexivity | apply IH]. Qed.

Lemma sum_bytes_hole (B : list byte) (i : Z) (n : nat) (acc : option Z) (k : nat) :
  (k < n)%nat -> idx B (i + Z.of_nat k) = None -> sum_bytes B i n acc = None.
Proof.
  revert i acc k. induction n as [| n IH]; intros i acc k Hk Hi; [lia |].
  cbn [sum_bytes]. destruct k as [| k].
  - rewrite Z.add_0_r in Hi. rewrite Hi. destruct acc; apply sum_bytes_none.
  - apply (IH _ _ k); [lia |]. rewrite <- Hi. f_equal. lia.
Qed.

(** X10. [tarHeaderChecksumMatches(buffer, offset)] is false whenever the
    512-byte header at [offset] is not entirely inside the buffer (a read of
    [undefined] makes the sum [NaN]). *)
Theorem tarHeaderChecksumMatches_out_of_range (buffer : list byte) (offset : Z) :
  offset < 0 \/ buf_len buffer < offset + 512 -> tarHeaderChecksumMatches buffer offset = false.
Proof.
  intros H. unfold tarHeaderChecksumMatches.
  destruct (parseInt8 _); [| reflexivity].
  assert (E : sum_bytes buffer (offset + 156) 356 (sum_bytes buffer offset 148 (Some (8 * 32))) = None).
  { destruct (Z.ltb_spec offset 0) as [Hn | Hn].
    - rewrite (sum_bytes_hole buffer offset 148 _ 0) by (try lia; rewrite idx_neg by lia; reflexivity).
      apply sum_bytes_none.
    - apply (sum_bytes_hole _ _ _ _ 355); [lia |]. apply idx_out. lia. }
  rewrite E. reflexivity.
Qed.

Lemma tarHeaderChecksumMatches_out_of_range_witness :
  (0 < 0 \/ buf_len (firstn 511 tar_sample) < 0 + 512)
  /\ tarHeaderChecksumMatches (firstn 511 tar_sample) 0 = false.
Proof.
  split; [right; vm_compute; reflexivity |].
  apply tarHeaderChecksumMatches_out_of_range. right. vm_compute. reflexivity.
Defined.

Lemma ebml_width_closed (b : byte) :
  ebml_width 9 (bz b) 128 0 + 1 = ebml_field_length b.
Proof. destruct b; vm_compute; reflexivity. Qed.

Lemma ebml_field_length_range (b : byte) : 1 <= ebml_field_length b <= 9.
Proof. destruct b; vm_compute; split; discriminate. Qed.

Lemma skipn_nth_error_cons {X} (l : list X) (k : nat) (x : X) :
  nth_error l k = Some x -> skipn k l = x :: skipn (S k) l.
Proof.
  revert l. induction k as [| k IH]; intros [| y l] E; cbn in *; try discriminate.
  - injection E as ->. reflexivity.
  - apply IH. exact E.
Qed.

Lemma peekNumber_UINT8_run (D buf : list byte) (pos : Z) (w : bool) :
  0 <= pos ->
  peekNumber_UINT8 (mkP (mkTok D pos (buf_len D)) buf w) =
  match idx D pos with
  | Some v => Ok v (mkP (mkTok D pos (buf_len D)) buf w)
  | None => Err EndOfStreamError (mkP (mkTok D pos (buf_len D)) buf w)
  end.
Proof.
  intros Hp. unfold peekNumber_UINT8, bind, peek_new, opts_len.
  unfold tk_peekBuffer, normalizeOptions. cbn [p_tok ro_position ro_length ro_offset ro_mayBeLess tk_position tk_data
    or_else no_mayBeLess no_offset no_length no_position Z.eqb negb andb].
  destruct (Z.ltb_spec pos (buf_len D)) as [Hin | Hout].
  - rewrite (Z.min_r (buf_len D - pos) 1) by lia. rewrite Z.ltb_irrefl. cbn [negb andb].
    rewrite subarray_in by lia. rewrite typed_set_0.
    2:{ rewrite buf_len_firstn, buf_len_skipn. unfold alloc. rewrite buf_len_repeat. lia. }
    cbn [fst snd]. rewrite Z.ltb_irrefl.
    unfold idx. destruct (Z.ltb_spec pos 0); [lia |].
    destruct (nth_error D (Z.to_nat pos)) as [x |] eqn:E.
    + rewrite (skipn_nth_error_cons D (Z.to_nat pos) x E). reflexivity.
    + apply nth_error_None in E. unfold buf_len in Hin. lia.
  - rewrite (Z.min_l (buf_len D - pos) 1) by lia.
    destruct (Z.ltb_spec (buf_len D - pos) 1); [| lia]. cbn [negb andb].
    rewrite idx_out by lia. reflexivity.
Qed.

Lemma read_new_none_run (D buf : list byte) (pos n : Z) (w : bool) :
  0 <= pos <= buf_len D -> 0 < n ->
  read_new n None (mkP (mkTok D pos (buf_len D)) buf w) =
  if buf_len D <? pos + n then Err EndOfStreamError (mkP (mkTok D pos (buf_len D)) buf w)
  else Ok (n, slice D pos (pos + n)) (mkP (mkTok D (pos + n) (buf_len D)) buf w).
Proof.
  intros Hp Hn. unfold read_new, tk_readBuffer, tk_peekBuffer, normalizeOptions.
  cbn [p_tok p_buffer p_walked tk_position tk_data no_mayBeLess no_offset no_length no_position negb andb].
  rewrite buf_len_alloc by lia.
  destruct (Z.ltb_spec (buf_len D) (pos + n)) as [Hlt | Hge].
  - rewrite (Z.min_l (buf_len D - pos) n) by lia.
    destruct (Z.ltb_spec (buf_len D - pos) n); [| lia]. reflexivity.
  - rewrite (Z.min_r (buf_len D - pos) n) by lia. rewrite Z.ltb_irrefl.
    rewrite subarray_in by lia. rewrite typed_set_0.
    2:{ unfold buf_len at 1. rewrite length_firstn, length_skipn. rewrite buf_len_alloc by lia.
        unfold buf_len in *. lia. }
    unfold set_position. cbn [tk_data tk_size tk_position].
    replace (length (firstn (Z.to_nat n) (skipn (Z.to_nat pos) D))) with (Z.to_nat n).
    2:{ rewrite length_firstn, length_skipn. unfold buf_len in *. lia. }
    unfold alloc. replace (skipn (Z.to_nat n) (repeat x00 (Z.to_nat n))) with (@nil byte) by (symmetry; apply skipn_all2; rewrite repeat_length; lia). rewrite app_nil_r.
    unfold slice. replace (pos + n - pos) with n by lia. reflexivity.
Qed.

Lemma readField_run (D buf : list byte) (pos : Z) (w : bool) (b : byte) :
  0 <= pos -> nth_error D (Z.to_nat pos) = Some b ->
  let n := ebml_field_length b in
  readField (mkP (mkTok D pos (buf_len D)) buf w) =
  if buf_len D <? pos + n then Err EndOfStreamError (mkP (mkTok D pos (buf_len D)) buf w)
  else Ok (slice D pos (pos + n)) (mkP (mkTok D (pos + n) (buf_len D)) buf w).
Proof.
  intros Hp Hb n. unfold readField.
  assert (Hl : pos < buf_len D).
  { assert (Z.to_nat pos < length D)%nat by (apply nth_error_Some; congruence). unfold buf_len. lia. }
  rewrite (bind_ok _ _ _ (bz b) (mkP (mkTok D pos (buf_len D)) buf w)).
  2:{ rewrite peekNumber_UINT8_run by exact Hp. unfold idx. destruct (Z.ltb_spec pos 0); [lia |].
      rewrite Hb. reflexivity. }
  rewrite ebml_width_closed. fold n. pose proof (ebml_field_length_range b) as Hr.
  unfold bind at 1. rewrite read_new_none_run by lia.
  destruct (buf_len D <? pos + n); reflexivity.
Qed.

(** X11. [readField()] of the EBML walk reads, from its first byte [b], a
    field of [ebml_field_length b] bytes (one more than the leading zero bits
    of [b], nine for a zero byte) and moves past it; it throws the
    end-of-stream error, without moving, when the field runs past the data. *)
Theorem readField_width (D buf : list byte) (pos : Z) (w : bool) (b : byte) :
  0 <= pos -> nth_error D (Z.to_nat pos) = Some b ->
  let n := ebml_field_length b in
  readField (mkP (mkTok D pos (buf_len D)) buf w) =
  if buf_len D <? pos + n then Err EndOfStreamError (mkP (mkTok D pos (buf_len D)) buf w)
  else Ok (slice D pos (pos + n)) (mkP (mkTok D (pos + n) (buf_len D)) buf w).
Proof. apply readField_run. Qed.

Lemma readField_width_witness :
  (0 <= 0 /\ nth_error [x40; x02; x03] (Z.to_nat 0) = Some x40) /\
  readField (mkP (mkTok [x40; x02; x03] 0 (buf_len [x40; x02; x03])) [] false) =
  (if buf_len [x40; x02; x03] <? 0 + ebml_field_length x40
   then Err EndOfStreamError (mkP (mkTok [x40; x02; x03] 0 (buf_len [x40; x02; x03])) [] false)
   else Ok (slice [x40; x02; x03] 0 (0 + ebml_field_length x40))
           (mkP (mkTok [x40; x02; x03] (0 + ebml_field_length x40) (buf_len [x40; x02; x03])) [] false)).
Proof.
  split; [split; [lia | reflexivity] |].
  apply (readField_width [x40; x02; x03] [] 0 false x40); [lia | reflexivity].
Defined.

Lemma be_value_app (l : list byte) (x : byte) : be_value (l ++ [x]) = be_value l * 256 + bz x.
Proof. unfold be_value. rewrite fold_left_app. reflexivity. Qed.

Lemma be_value_bound (l : list byte) : be_value l < 2 ^ (8 * Z.of_nat (length l)).
Proof.
  induction l as [| x l IH] using rev_ind; [cbn; lia |].
  rewrite be_value_app, length_app. cbn [length].
  pose proof (bz_range x). pose proof (be_value_nonneg l).
  replace (8 * Z.of_nat (length l + 1)) with (8 * Z.of_nat (length l) + 8) by lia.
  rewrite Z.pow_add_r by lia. change (2 ^ 8) with 256. nia.
Qed.

Lemma readUIntBE_bound (b : list byte) (off n v : Z) : readUIntBE b off n = Some v -> 0 <= v < 2 ^ 48.
Proof.
  unfold readUIntBE, read_be, bytes_at.
  destruct (Z.leb_spec 1 n), (Z.leb_spec n 6); cbn [andb]; try discriminate.
  destruct (Z.ltb_spec off 0); [discriminate |]. destruct (Z.ltb_spec (buf_len b) (off + n)); [discriminate |].
  cbn [orb option_map]. intros E. injection E as <-.
  split; [apply be_value_nonneg |].
  eapply Z.lt_le_trans; [apply be_value_bound |].
  replace (off + n) with (off + n) by lia.
  rewrite length_slice by lia. apply Z.pow_le_mono_r; lia.
Qed.

(** X12. An element read by [readElement()] has an id and a length that are
    both below [2^48]: [readUIntBE] reads at most six bytes. *)
Theorem readElement_bounds : Post (fun e => 0 <= fst e < 2 ^ 48 /\ 0 <= snd e < 2 ^ 48) readElement.
Proof.
  unfold readElement. apply post_bind; intros id. apply post_bind; intros lf. cbv zeta.
  destruct (readUIntBE id 0 _) eqn:E1; [| apply post_throw].
  lazymatch goal with |- Post _ (match ?x with _ => _ end) => destruct x eqn:E2 end; [| apply post_throw].
  apply post_ret. cbn [fst snd]. split; eapply readUIntBE_bound; eassumption.
Qed.

Lemma ebml_field_length_wide (b : byte) : bz b < 4 -> 7 <= ebml_field_length b.
Proof. destruct b; unfold ebml_field_length, bz; cbn; lia. Qed.

(** X13. [readElement()] throws a [RangeError] on an id field of seven bytes
    or more (first byte below [4]) that lies inside the data, along with its
    length field: [readUIntBE] accepts at most six bytes. *)
Theorem readElement_wide_id (D buf : list byte) (pos : Z) (w : bool) (b1 b2 : byte) :
  0 <= pos -> nth_error D (Z.to_nat pos) = Some b1 -> bz b1 < 4 ->
  nth_error D (Z.to_nat (pos + ebml_field_length b1)) = Some b2 ->
  pos + ebml_field_length b1 + ebml_field_length b2 <= buf_len D ->
  exists s', readElement (mkP (mkTok D pos (buf_len D)) buf w) = Err RangeError s'.
Proof.
  intros Hp H1 Hw H2 Hl.
  pose proof (ebml_field_length_range b1). pose proof (ebml_field_length_range b2).
  pose proof (ebml_field_length_wide b1 Hw).
  unfold readElement.
  pose proof (readField_run D buf pos w b1 Hp H1) as R1. cbv zeta in R1.
  pose proof (readField_run D buf (pos + ebml_field_length b1) w b2 ltac:(lia) H2) as R2. cbv zeta in R2.
  rewrite (bind_ok _ _ _ (slice D pos (pos + ebml_field_length b1))
             (mkP (mkTok D (pos + ebml_field_length b1) (buf_len D)) buf w)).
  2:{ rewrite R1. destruct (Z.ltb_spec (buf_len D) (pos + ebml_field_length b1)); [lia | reflexivity]. }
  rewrite (bind_ok _ _ _ (slice D (pos + ebml_field_length b1) (pos + ebml_field_length b1 + ebml_field_length b2))
             (mkP (mkTok D (pos + ebml_field_length b1 + ebml_field_length b2) (buf_len D)) buf w)).
  2:{ rewrite R2. destruct (Z.ltb_spec (buf_len D) (pos + ebml_field_length b1 + ebml_field_length b2)); [lia | reflexivity]. }
  cbv zeta.
  assert (Hid : buf_len (slice D pos (pos + ebml_field_length b1)) = ebml_field_length b1).
  { unfold buf_len at 1. rewrite length_slice by lia. lia. }
  rewrite Hid. unfold readUIntBE at 1.
  destruct (Z.leb_spec (ebml_field_length b1) 6); [lia |]. rewrite andb_false_r.
  eexists. reflexivity.
Qed.

Lemma readElement_wide_id_witness :
  (0 <= 0 /\ nth_error ([x01] ++ repeat x00 7 ++ [x81]) (Z.to_nat 0) = Some x01 /\ bz x01 < 4
   /\ nth_error ([x01] ++ repeat x00 7 ++ [x81]) (Z.to_nat (0 + ebml_field_length x01)) = Some x81
   /\ 0 + ebml_field_length x01 + ebml_field_length x81 <= buf_len ([x01] ++ repeat x00 7 ++ [x81])) /\
  exists s', readElement (mkP (mkTok ([x01] ++ repeat x00 7 ++ [x81]) 0 (buf_len ([x01] ++ repeat x00 7 ++ [x81]))) [] false)
             = Err RangeError s'.
Proof.
  split; [vm_compute; repeat split; try discriminate; reflexivity |].
  apply (readElement_wide_id _ [] 0 false x01 x81); vm_compute; try discriminate; reflexivity.
Defined.

Lemma tk_ignore_spec (t : tokenizer) (n : Z) :
  tk_ignore t n =
  (Z.min n (tk_size t - tk_position t),
   set_position t (Z.min (tk_position t + n) (tk_size t))).
Proof.
  unfold tk_ignore. destruct (Z.ltb_spec (tk_size t - tk_position t) n).
  - f_equal; [lia |]. f_equal. lia.
  - f_equal; [lia |]. f_equal. lia.
Qed.

(** X1. [ignore(a)] followed by [ignore(b)], for [a, b >= 0], moves the
    tokenizer exactly as one [ignore(a + b)] and returns the same total: both
    stop at the end of the data when it comes first. *)
Theorem ignore_twice (a b : Z) (s : pstate) :
  0 <= a -> 0 <= b ->
  (x <- ignore a ;; y <- ignore b ;; ret (x + y)) s = ignore (a + b) s.
Proof.
  intros Ha Hb. destruct s as [[D p z] buf w].
  unfold bind, ignore, ret. cbn [p_tok p_buffer p_walked].
  rewrite !tk_ignore_spec. unfold set_position. cbn [tk_size tk_position tk_data p_tok p_buffer p_walked].
  f_equal; [lia |]. do 2 f_equal. lia.
Qed.

Lemma ignore_twice_witness :
  0 <= 3 /\ 0 <= 4 /\
  (x <- ignore 3 ;; y <- ignore 4 ;; ret (x + y)) (mkP (fromBuffer (repeat x00 5)) [] false)
  = ignore 7 (mkP (fromBuffer (repeat x00 5)) [] false).
Proof. split; [lia |]. split; [lia |]. apply ignore_twice; lia. Defined.

(** X2. [readBuffer] with an explicit forward [position] (not [0], not behind
    the current position) and a [length] that runs past the end of the data
    throws the end-of-stream error, after it has already moved the tokenizer
    to [position]. *)
Theorem tk_readBuffer_eos_at_position (t : tokenizer) (target : list byte) (p L : Z) :
  0 <= tk_position t < p -> 0 < L -> buf_len (tk_data t) < p + L ->
  tk_readBuffer t target (Some (mkOpts (Some p) (Some L) None false))
  = inl (EndOfStreamError, set_position t p).
Proof.
  intros Hp HL Hs. unfold tk_readBuffer. cbn [ro_position].
  destruct (Z.eqb_spec p 0); [lia |]. destruct (Z.ltb_spec p (tk_position t)); [lia |].
  unfold tk_peekBuffer, normalizeOptions. cbn [ro_position ro_length ro_offset ro_mayBeLess or_else].
  unfold set_position at 1 2 3 4. cbn [tk_position tk_data].
  rewrite Z.ltb_irrefl. destruct (Z.eqb_spec L 0); [lia |].
  cbn [no_mayBeLess no_offset no_length no_position negb andb].
  destruct (Z.eqb_spec p 0); [lia |].
  destruct (Z.ltb_spec (Z.min (buf_len (tk_data t) - p) L) L); [reflexivity | lia].
Qed.

Lemma tk_readBuffer_eos_at_position_witness :
  (0 <= tk_position (fromBuffer [x01; x02; x03]) < 2 /\ 0 < 4 /\ buf_len (tk_data (fromBuffer [x01; x02; x03])) < 2 + 4)
  /\ tk_readBuffer (fromBuffer [x01; x02; x03]) (repeat x00 4) (Some (mkOpts (Some 2) (Some 4) None false))
     = inl (EndOfStreamError, set_position (fromBuffer [x01; x02; x03]) 2).
Proof.
  split; [vm_compute; repeat split; try discriminate; reflexivity |].
  apply tk_readBuffer_eos_at_position; vm_compute; try split; try discriminate; reflexivity.
Defined.

(** X3. [readBuffer] and [peekBuffer] with a [position] behind the current
    one throw the position error ([options.position] must be equal or
    greater than [tokenizer.position]) and leave the tokenizer where it
    was; a [position] of [0] is no exception. *)
Theorem tk_readBuffer_position_behind (t : tokenizer) (target : list byte) (o : read_opts) (p : Z) :
  ro_position o = Some p -> p < tk_position t ->
  tk_readBuffer t target (Some o) = inl (PositionError, t)
  /\ tk_peekBuffer t target (Some o) = inl PositionError.
Proof.
  intros Ho Hp.
  assert (Hpk : tk_peekBuffer t target (Some o) = inl PositionError).
  { unfold tk_peekBuffer, normalizeOptions. rewrite Ho.
    destruct (Z.ltb_spec p (tk_position t)); [reflexivity | lia]. }
  split; [| exact Hpk].
  unfold tk_readBuffer. rewrite Ho.
  destruct (Z.eqb_spec p 0).
  - rewrite Hpk. reflexivity.
  - destruct (Z.ltb_spec p (tk_position t)); [reflexivity | lia].
Qed.

Lemma tk_readBuffer_position_behind_witness :
  ro_position (mkOpts (Some 0) None None false) = Some 0 /\ 0 < tk_position (mkTok [x01; x02] 1 2) /\
  tk_readBuffer (mkTok [x01; x02] 1 2) [x00] (Some (mkOpts (Some 0) None None false))
    = inl (PositionError, mkTok [x01; x02] 1 2)
  /\ tk_peekBuffer (mkTok [x01; x02] 1 2) [x00] (Some (mkOpts (Some 0) None None false)) = inl PositionError.
Proof.
  split; [reflexivity |]. split; [vm_compute; reflexivity |].
  apply (tk_readBuffer_position_behind _ _ _ 0); [reflexivity | vm_compute; reflexivity].
Defined.

Lemma firstn_add_skipn {X} (a b : nat) (l : list X) :
  firstn (a + b) l = firstn a l ++ firstn b (skipn a l).
Proof.
  revert l. induction a as [| a IH]; intros l; [reflexivity |].
  destruct l as [| x l]; cbn; [destruct b; reflexivity |]. f_equal. apply IH.
Qed.

Lemma slice_concat (D : list byte) (p a b : Z) :
  0 <= p -> 0 <= a -> 0 <= b ->
  slice D p (p + a) ++ slice D (p + a) (p + a + b) = slice D p (p + a + b).
Proof.
  intros Hp Ha Hb. unfold slice.
  replace (p + a - p) with a by lia. replace (p + a + b - (p + a)) with b by lia.
  replace (p + a + b - p) with (a + b) by lia.
  rewrite (Z2Nat.inj_add a b) by lia. rewrite firstn_add_skipn. f_equal.
  rewrite skipn_skipn. f_equal. f_equal. lia.
Qed.

(** X4. On a buffer tokenizer, reading [a] bytes and then [b] bytes gives the
    same bytes and the same final position as reading [a + b] bytes at once
    when they fit; when they do not fit, both throw the end-of-stream error. *)
Theorem readToken_concat (D buf : list byte) (pos a b : Z) (w : bool) :
  0 <= pos <= buf_len D -> 0 < a -> 0 < b ->
  let s := mkP (mkTok D pos (buf_len D)) buf w in
  (pos + a + b <= buf_len D ->
     (x <- readToken a ;; y <- readToken b ;; ret (x ++ y)) s = readToken (a + b) s)
  /\ (buf_len D < pos + a + b ->
     exists s1 s2, (x <- readToken a ;; y <- readToken b ;; ret (x ++ y)) s = Err EndOfStreamError s1
                   /\ readToken (a + b) s = Err EndOfStreamError s2).
Proof.
  intros Hp Ha Hb s. subst s. split.
  - intros Hl. rewrite (readToken_run D buf pos (a + b) w) by lia.
    destruct (Z.ltb_spec (buf_len D) (pos + (a + b))); [lia |].
    rewrite (bind_ok _ _ _ (slice D pos (pos + a)) (mkP (mkTok D (pos + a) (buf_len D)) buf w)).
    2:{ rewrite readToken_run by lia. destruct (Z.ltb_spec (buf_len D) (pos + a)); [lia | reflexivity]. }
    rewrite (bind_ok _ _ _ (slice D (pos + a) (pos + a + b)) (mkP (mkTok D (pos + a + b) (buf_len D)) buf w)).
    2:{ rewrite readToken_run by lia. destruct (Z.ltb_spec (buf_len D) (pos + a + b)); [lia | reflexivity]. }
    unfold ret. rewrite slice_concat by lia. f_equal; [f_equal | f_equal; f_equal]; lia.
  - intros Hl. rewrite (readToken_run D buf pos (a + b) w) by lia.
    destruct (Z.ltb_spec (buf_len D) (pos + (a + b))); [| lia].
    destruct (Z.ltb_spec (buf_len D) (pos + a)).
    + eexists. eexists. split; [| reflexivity].
      apply bind_err. rewrite readToken_run by lia.
      destruct (Z.ltb_spec (buf_len D) (pos + a)); [reflexivity | lia].
    + rewrite (bind_ok _ _ _ (slice D pos (pos + a)) (mkP (mkTok D (pos + a) (buf_len D)) buf w)).
      2:{ rewrite readToken_run by lia. destruct (Z.ltb_spec (buf_len D) (pos + a)); [lia | reflexivity]. }
      eexists. eexists. split; [| reflexivity].
      apply bind_err. rewrite readToken_run by lia.
      destruct (Z.ltb_spec (buf_len D) (pos + a + b)); [reflexivity | lia].
Qed.

Lemma readToken_concat_witness :
  (0 <= 1 <= buf_len [x01; x02; x03; x04] /\ 0 < 1 /\ 0 < 2) /\
  (x <- readToken 1 ;; y <- readToken 2 ;; ret (x ++ y)) (mkP (mkTok [x01; x02; x03; x04] 1 (buf_len [x01; x02; x03; x04])) [] false)
  = readToken 3 (mkP (mkTok [x01; x02; x03; x04] 1 (buf_len [x01; x02; x03; x04])) [] false).
Proof.
  split; [vm_compute; repeat split; try discriminate; reflexivity |].
  apply (readToken_concat [x01; x02; x03; x04] [] 1 1 2 false); vm_compute; try split; try discriminate; reflexivity.
Defined.

Lemma peekToken_run (D buf : list byte) (pos n : Z) (w : bool) :
  0 <= pos <= buf_len D -> 0 < n ->
  peekToken n (mkP (mkTok D pos (buf_len D)) buf w) =
  if buf_len D <? pos + n then Err EndOfStreamError (mkP (mkTok D pos (buf_len D)) buf w)
  else Ok (slice D pos (pos + n)) (mkP (mkTok D pos (buf_len D)) buf w).
Proof.
  intros Hp Hn. unfold peekToken, bind, get_position, peek_new, opts_pos.
  cbn [p_tok p_buffer p_walked tk_position].
  unfold tk_peekBuffer, normalizeOptions. cbn [ro_position ro_length ro_offset ro_mayBeLess tk_position tk_data
    or_else no_mayBeLess no_offset no_length no_position].
  rewrite Z.ltb_irrefl. rewrite buf_len_alloc by lia. rewrite Z.sub_0_r.
  replace (if pos =? 0 then pos else pos) with pos by (destruct (pos =? 0); reflexivity).
  cbn [no_mayBeLess no_offset no_length no_position].
  destruct (Z.ltb_spec (buf_len D) (pos + n)) as [Hlt | Hge].
  - rewrite (Z.min_l (buf_len D - pos) n) by lia.
    destruct (Z.ltb_spec (buf_len D - pos) n); [| lia]. reflexivity.
  - rewrite (Z.min_r (buf_len D - pos) n) by lia. rewrite Z.ltb_irrefl. cbn [negb andb].
    rewrite subarray_in by lia. rewrite typed_set_0.
    2:{ unfold buf_len at 1. rewrite length_firstn, length_skipn. rewrite buf_len_alloc by lia.
        unfold buf_len in *. lia. }
    cbn [fst snd]. rewrite Z.ltb_irrefl. unfold ret.
    replace (length (firstn (Z.to_nat n) (skipn (Z.to_nat pos) D))) with (Z.to_nat n).
    2:{ rewrite length_firstn, length_skipn. unfold buf_len in *. lia. }
    unfold alloc. replace (skipn (Z.to_nat n) (repeat x00 (Z.to_nat n))) with (@nil byte) by (symmetry; apply skipn_all2; rewrite repeat_length; lia). rewrite app_nil_r.
    unfold slice. replace (pos + n - pos) with n by lia. reflexivity.
Qed.

(** X5. [peekToken] gives what [readToken] gives (the same bytes or the same
    error) but leaves the tokenizer at its position. *)
Theorem peekToken_is_readToken_in_place (D buf : list byte) (pos n : Z) (w : bool) :
  0 <= pos <= buf_len D -> 0 < n ->
  let s := mkP (mkTok D pos (buf_len D)) buf w in
  peekToken n s = match readToken n s with
                  | Ok v _ => Ok v s
                  | Err e _ => Err e s
                  | NoFuel => NoFuel
                  end.
Proof.
  intros Hp Hn s. subst s. rewrite peekToken_run, readToken_run by lia.
  destruct (buf_len D <? pos + n); reflexivity.
Qed.

Lemma peekToken_is_readToken_in_place_witness :
  (0 <= 1 <= buf_len [x01; x02; x03] /\ 0 < 2) /\
  peekToken 2 (mkP (mkTok [x01; x02; x03] 1 (buf_len [x01; x02; x03])) [] false)
  = match readToken 2 (mkP (mkTok [x01; x02; x03] 1 (buf_len [x01; x02; x03])) [] false) with
    | Ok v _ => Ok v (mkP (mkTok [x01; x02; x03] 1 (buf_len [x01; x02; x03])) [] false)
    | Err e _ => Err e (mkP (mkTok [x01; x02; x03] 1 (buf_len [x01; x02; x03])) [] false)
    | NoFuel => NoFuel
    end.
Proof.
  split; [vm_compute; repeat split; try discriminate; reflexivity |].
  apply (peekToken_is_readToken_in_place [x01; x02; x03] [] 1 2 false); vm_compute; try split; try discriminate; reflexivity.
Defined.

(** X6. [peekNumber(UINT8)] answers the byte at the current position without
    moving, and throws the end-of-stream error at the end of the data. *)
Theorem peekNumber_UINT8_spec (D buf : list byte) (pos : Z) (w : bool) :
  0 <= pos ->
  let s := mkP (mkTok D pos (buf_len D)) buf w in
  peekNumber_UINT8 s = match idx D pos with
                       | Some v => Ok v s
                       | None => Err EndOfStreamError s
                       end.
Proof. apply peekNumber_UINT8_run. Qed.

Lemma peekNumber_UINT8_spec_witness :
  0 <= 1 /\
  peekNumber_UINT8 (mkP (mkTok [x01; x02] 1 (buf_len [x01; x02])) [] false)
  = match idx [x01; x02] 1 with
    | Some v => Ok v (mkP (mkTok [x01; x02] 1 (buf_len [x01; x02])) [] false)
    | None => Err EndOfStreamError (mkP (mkTok [x01; x02] 1 (buf_len [x01; x02])) [] false)
    end.
Proof. split; [lia |]. apply (peekNumber_UINT8_spec [x01; x02] [] 1 false). lia. Defined.

Lemma bz_byte_of_Z (z : Z) : bz (byte_of_Z z) = z mod 256.
Proof.
  unfold byte_of_Z, bz. pose proof (Z.mod_pos_bound z 256 ltac:(lia)) as Hr.
  destruct (Byte.of_N (Z.to_N (z mod 256))) as [b |] eqn:E.
  - apply Byte.to_of_N in E. rewrite E. lia.
  - apply Byte.of_N_None_iff in E. lia.
Qed.

Lemma length_le_bytes (n : nat) (v : Z) : length (le_bytes n v) = n.
Proof. revert v. induction n as [| n IH]; intros v; cbn; [reflexivity | rewrite IH; reflexivity]. Qed.

Lemma le_value_le_bytes (n : nat) (v : Z) : le_value (le_bytes n v) = v mod 2 ^ (8 * Z.of_nat n).
Proof.
  revert v. induction n as [| n IH]; intros v.
  - cbn. rewrite Z.mod_1_r. reflexivity.
  - cbn [le_bytes]. unfold le_value. cbn [fold_right]. fold (le_value (le_bytes n (v / 256))).
    rewrite IH, bz_byte_of_Z.
    replace (2 ^ (8 * Z.of_nat (S n))) with (256 * 2 ^ (8 * Z.of_nat n)).
    + rewrite Z.rem_mul_r; [reflexivity | lia | ]. apply Z.pow_pos_nonneg; lia.
    + rewrite Nat2Z.inj_succ, Z.mul_succ_r, Z.pow_add_r by lia. lia.
Qed.

Lemma be_value_rev (l : list byte) : be_value (rev l) = le_value l.
Proof.
  unfold be_value, le_value. rewrite <- fold_left_rev_right, rev_involutive.
  induction l as [| b l IH]; cbn [fold_right]; [reflexivity | rewrite IH; lia].
Qed.

Lemma dv_set_spec (array : list byte) (offset size v : Z) (le : bool) :
  0 <= offset -> 0 <= size -> offset + size <= buf_len array ->
  dv_set array offset size v le =
  Some (firstn (Z.to_nat offset) array ++ (if le then le_bytes (Z.to_nat size) v else rev (le_bytes (Z.to_nat size) v))
        ++ skipn (Z.to_nat (offset + size)) array).
Proof.
  intros Ho Hs Hl. unfold dv_set.
  destruct (Z.ltb_spec offset 0); [lia |]. destruct (Z.ltb_spec (buf_len array) (offset + size)); [lia |].
  reflexivity.
Qed.

Lemma bytes_at_splice (array raw : list byte) (offset size : Z) :
  0 <= offset -> 0 <= size -> offset + size <= buf_len array -> length raw = Z.to_nat size ->
  bytes_at (firstn (Z.to_nat offset) array ++ raw ++ skipn (Z.to_nat (offset + size)) array) offset size
  = Some raw.
Proof.
  intros Ho Hs Hl Hr. unfold bytes_at.
  assert (Hlen : buf_len (firstn (Z.to_nat offset) array ++ raw ++ skipn (Z.to_nat (offset + size)) array) = buf_len array).
  { rewrite !buf_len_app, buf_len_firstn, buf_len_skipn. unfold buf_len at 2. rewrite Hr. lia. }
  rewrite Hlen. destruct (Z.ltb_spec offset 0); [lia |]. destruct (Z.ltb_spec (buf_len array) (offset + size)); [lia |].
  cbn [orb]. f_equal. unfold slice. replace (offset + size - offset) with size by lia.
  rewrite skipn_app. rewrite length_firstn.
  replace (Z.to_nat offset - Init.Nat.min (Z.to_nat offset) (length array))%nat with 0%nat
    by (unfold buf_len in Hl; lia).
  rewrite skipn_all2 by (rewrite length_firstn; unfold buf_len in Hl; lia).
  cbn [app skipn]. rewrite firstn_app, Hr, Nat.sub_diag. cbn [firstn]. rewrite app_nil_r.
  apply firstn_all2. lia.
Qed.

Lemma dv_roundtrip (array : list byte) (offset n : Z) (v : Z) (le : bool) :
  0 <= offset -> 0 <= n -> offset + n <= buf_len array ->
  exists a', dv_set array offset n v le = Some a' /\ buf_len a' = buf_len array
    /\ dv_getUint a' offset n le = Some (v mod 2 ^ (8 * n)).
Proof.
  intros Ho Hn Hl. rewrite dv_set_spec by assumption.
  eexists. split; [reflexivity |]. split.
  - rewrite !buf_len_app, buf_len_firstn, buf_len_skipn. unfold buf_len at 2.
    destruct le; rewrite ?length_rev, length_le_bytes; lia.
  - unfold dv_getUint, read_le, read_be. destruct le.
    + rewrite bytes_at_splice by (try assumption; apply length_le_bytes).
      cbn [option_map]. rewrite le_value_le_bytes. do 3 f_equal. lia.
    + rewrite bytes_at_splice by (try assumption; rewrite length_rev; apply length_le_bytes).
      cbn [option_map]. rewrite be_value_rev, le_value_le_bytes. do 3 f_equal. lia.
Qed.

Lemma mod_mod_pow (v : Z) (k : Z) : 0 <= k -> (v mod 2 ^ k) mod 2 ^ k = v mod 2 ^ k.
Proof. intros Hk. apply Z.mod_mod. apply Z.pow_nonzero; lia. Qed.

(** X7. For the unsigned tokens [UINT8], [UINT16_LE], [UINT16_BE],
    [UINT32_LE], [UINT32_BE] and [UINT64_LE], [put(array, offset, value)]
    into an array with room for the token returns [offset + len], keeps the
    array's length, and [get(array, offset)] then reads back [value] modulo
    [2^(8 len)]. *)
Theorem unsigned_tokens_roundtrip (array : list byte) (offset value : Z) :
  0 <= offset ->
  (offset + 1 <= buf_len array -> exists a', UINT8_put array offset value = Some (a', offset + 1)
     /\ buf_len a' = buf_len array /\ UINT8_get_at a' offset = Some (value mod 2 ^ 8))
  /\ (offset + 2 <= buf_len array -> exists a', UINT16_LE_put array offset value = Some (a', offset + 2)
     /\ buf_len a' = buf_len array /\ UINT16_LE_get_at a' offset = Some (value mod 2 ^ 16))
  /\ (offset + 2 <= buf_len array -> exists a', UINT16_BE_put array offset value = Some (a', offset + 2)
     /\ buf_len a' = buf_len array /\ UINT16_BE_get_at a' offset = Some (value mod 2 ^ 16))
  /\ (offset + 4 <= buf_len array -> exists a', UINT32_LE_put array offset value = Some (a', offset + 4)
     /\ buf_len a' = buf_len array /\ UINT32_LE_get_at a' offset = Some (value mod 2 ^ 32))
  /\ (offset + 4 <= buf_len array -> exists a', UINT32_BE_put array offset value = Some (a', offset + 4)
     /\ buf_len a' = buf_len array /\ UINT32_BE_get_at a' offset = Some (value mod 2 ^ 32))
  /\ (offset + 8 <= buf_len array -> exists a', UINT64_LE_put array offset value = Some (a', offset + 8)
     /\ buf_len a' = buf_len array /\ UINT64_LE_get_at a' offset = Some (value mod 2 ^ 64)).
Proof.
  intros Ho.
  repeat split; intros Hl;
  [ destruct (dv_roundtrip array offset 1 (value mod 2 ^ 8) false) as (a' & E & Hlen & G)
  | destruct (dv_roundtrip array offset 2 (value mod 2 ^ 16) true) as (a' & E & Hlen & G)
  | destruct (dv_roundtrip array offset 2 (value mod 2 ^ 16) false) as (a' & E & Hlen & G)
  | destruct (dv_roundtrip array offset 4 (value mod 2 ^ 32) true) as (a' & E & Hlen & G)
  | destruct (dv_roundtrip array offset 4 (value mod 2 ^ 32) false) as (a' & E & Hlen & G)
  | destruct (dv_roundtrip array offset 8 (value mod 2 ^ 64) true) as (a' & E & Hlen & G) ];
  try lia;
  exists a';
  [ unfold UINT8_put, UINT8_get_at | unfold UINT16_LE_put, UINT16_LE_get_at
  | unfold UINT16_BE_put, UINT16_BE_get_at | unfold UINT32_LE_put, UINT32_LE_get_at
  | unfold UINT32_BE_put, UINT32_BE_get_at | unfold UINT64_LE_put, UINT64_LE_get_at ];
  rewrite E; (split; [reflexivity |]); (split; [exact Hlen |]); rewrite G;
  cbn [Z.mul]; rewrite mod_mod_pow by lia; reflexivity.
Qed.

Lemma unsigned_tokens_roundtrip_witness :
  0 <= 1 /\
  (exists a', UINT16_BE_put [x00; x00; x00; x00] 1 70000 = Some (a', 1 + 2)
     /\ buf_len a' = buf_len [x00; x00; x00; x00] /\ UINT16_BE_get_at a' 1 = Some (70000 mod 2 ^ 16)).
Proof.
  split; [lia |].
  apply (unsigned_tokens_roundtrip [x00; x00; x00; x00] 1 70000 ltac:(lia)). vm_compute. discriminate.
Defined.

Lemma to_int32_mod (v : Z) : to_int32 v mod 2 ^ 32 = v mod 2 ^ 32.
Proof.
  unfold to_int32. pose proof (Z.mod_pos_bound v (2 ^ 32) ltac:(lia)).
  destruct (Z.leb_spec (2 ^ 31) (v mod 2 ^ 32)).
  - replace (v mod 2 ^ 32 - 2 ^ 32) with (v mod 2 ^ 32 + (-1) * 2 ^ 32) by lia.
    rewrite Z.mod_add by lia. apply Z.mod_mod. lia.
  - apply Z.mod_mod. lia.
Qed.

(** X8. [INT32_BE.put] then [INT32_BE.get] at the same offset reads back
    [ToInt32(value)], the signed 32-bit value of [value]. *)
Theorem INT32_BE_roundtrip (array : list byte) (offset value : Z) :
  0 <= offset -> offset + 4 <= buf_len array ->
  exists a', INT32_BE_put array offset value = Some (a', offset + 4)
    /\ buf_len a' = buf_len array /\ INT32_BE_get_at a' offset = Some (to_int32 value).
Proof.
  intros Ho Hl. destruct (dv_roundtrip array offset 4 (to_int32 value) false) as (a' & E & Hlen & G); try lia.
  exists a'. unfold INT32_BE_put, INT32_BE_get_at. rewrite E. split; [reflexivity |]. split; [exact Hlen |].
  unfold dv_getUint in G. unfold dv_getInt32. rewrite G. cbn [option_map Z.mul]. f_equal.
  rewrite to_int32_mod. reflexivity.
Qed.

Lemma INT32_BE_roundtrip_witness :
  (0 <= 0 /\ 0 + 4 <= buf_len [x00; x00; x00; x00]) /\
  (exists a', INT32_BE_put [x00; x00; x00; x00] 0 (-5) = Some (a', 0 + 4)
    /\ buf_len a' = buf_len [x00; x00; x00; x00] /\ INT32_BE_get_at a' 0 = Some (to_int32 (-5))).
Proof.
  split; [vm_compute; split; discriminate |].
  apply INT32_BE_roundtrip; vm_compute; discriminate.
Defined.

Lemma asf_dispatch rec f tail t B w :
  parse_head rec (parse_zip_ftyp f (parse_fonts_ebml f (parse_riff_ar (parse_png_cfb f tail))))
    (mkP t (asf_magic ++ B) w)
  = asf_walk f (mkP t (asf_magic ++ B) true).
Proof. unfold parse_head. repeat run_step. reflexivity. Qed.

Lemma asf_loop_stuck (f : nat) (D buf : list byte) (w : bool) :
  54 < buf_len D -> slice D 46 54 = repeat x00 8 ->
  _check (slice D 30 46) asf_stream_properties_guid 0 None = false ->
  asf_loop f (mkP (mkTok D 30 (buf_len D)) buf w) = NoFuel.
Proof.
  intros Hl Hz Hg. induction f as [| f IH]; [reflexivity |]. cbn [asf_loop].
  rewrite (bind_ok _ _ _ true (mkP (mkTok D 30 (buf_len D)) buf w)).
  2:{ unfold pos_plus_lt_size, get_position, get_size, bind, ret. cbn.
      destruct (Z.ltb_spec 54 (buf_len D)); [reflexivity | lia]. }
  cbn [negb].
  rewrite (bind_ok _ _ _ (16, slice D 30 46) (mkP (mkTok D 46 (buf_len D)) buf w)).
  2:{ rewrite read_new_none_run by lia. destruct (Z.ltb_spec (buf_len D) (30 + 16)); [lia | reflexivity]. }
  rewrite (bind_ok _ _ _ (slice D 46 54) (mkP (mkTok D 54 (buf_len D)) buf w)).
  2:{ rewrite readToken_run by lia. destruct (Z.ltb_spec (buf_len D) (46 + 8)); [lia | reflexivity]. }
  cbn [snd]. unfold asf_stream_properties_guid in Hg. rewrite Hg, Hz.
  rewrite (bind_ok _ _ _ (-24) (mkP (mkTok D 30 (buf_len D)) buf w)).
  2:{ rewrite ignore_run. change (UINT64_LE_get (repeat x00 8)) with 0.
      destruct (Z.ltb_spec (buf_len D - 54) (0 - 24)); [lia | reflexivity]. }
  exact IH.
Qed.

(** X14. An ASF input whose first header object after the 30-byte header is
    not the stream-properties object and declares a size of [0] never
    settles: [payload = 0 - 24] makes [ignore(payload)] move the position
    back to [30], where the loop reads the same object again, with no
    bound on the number of rounds. *)
Theorem asf_zero_size_object_pending (n : nat) (rest : list byte) :
  let D := asf_magic ++ rest in
  54 < buf_len D -> slice D 46 54 = repeat x00 8 ->
  _check (slice D 30 46) asf_stream_properties_guid 0 None = false ->
  fileTypeFromBuffer n D = Pending.
Proof.
  intros D Hl Hz Hg.
  unfold fileTypeFromBuffer. destruct (Z.ltb_spec 1 (buf_len D)); [| lia]. cbn [negb].
  destruct n as [| f]; [reflexivity |].
  change (fileTypeFromTokenizer (S f) (fromBuffer D)) with (outcome_of (parse (S f) (mkP (fromBuffer D) [] false))).
  cbn [parse].
  rewrite (bind_ok _ _ _ _ _ (parse_prologue_run D [] false)).
  set (k := Z.to_nat (Z.min (buf_len D) 12)) in *.
  assert (Hbuf : firstn k D ++ skipn k (alloc minimumBytes)
                 = asf_magic ++ (firstn (k - 10) rest ++ skipn k (alloc minimumBytes))).
  { subst D. rewrite firstn_app, app_assoc. f_equal. f_equal.
    apply firstn_all2. cbn. lia. }
  rewrite Hbuf. rewrite asf_dispatch. rewrite <- Hbuf.
  unfold asf_walk.
  rewrite (bind_ok _ _ _ 30 (mkP (mkTok D 30 (buf_len D)) (firstn k D ++ skipn k (alloc minimumBytes)) true)).
  2:{ unfold fromBuffer. rewrite ignore_run. destruct (Z.ltb_spec (buf_len D - 0) 30); [lia | reflexivity]. }
  unfold bind at 1. rewrite asf_loop_stuck by assumption. reflexivity.
Qed.

Lemma asf_zero_size_object_pending_witness :
  let D := asf_magic ++ repeat x00 50 in
  (54 < buf_len D /\ slice D 46 54 = repeat x00 8 /\
   _check (slice D 30 46) asf_stream_properties_guid 0 None = false)
  /\ fileTypeFromBuffer 1000 D = Pending.
Proof.
  split; [vm_compute; split; [reflexivity | split; reflexivity] |].
  apply asf_zero_size_object_pending; vm_compute; reflexivity.
Defined.

Lemma zip_dispatch rec f tail t B w :
  _check (zip_magic ++ B) (stringToBytes "WEBP") 8 None = false ->
  parse_head rec (parse_zip_ftyp f (parse_fonts_ebml f (parse_riff_ar (parse_png_cfb f tail))))
    (mkP t (zip_magic ++ B) w)
  = zip_walk f (mkP t (zip_magic ++ B) true).
Proof. intros HW. unfold parse_head. repeat run_step. reflexivity. Qed.

Lemma zip_webp_dispatch rec f tail t B w :
  _check (zip_magic ++ B) (stringToBytes "WEBP") 8 None = true ->
  parse_head rec (parse_zip_ftyp f (parse_fonts_ebml f (parse_riff_ar (parse_png_cfb f tail))))
    (mkP t (zip_magic ++ B) w)
  = found (ft "webp" "image/webp") (mkP t (zip_magic ++ B) w).
Proof. intros HW. unfold parse_head. repeat run_step. reflexivity. Qed.

Lemma zip_walk_defined (f : nat) : Post (fun r => r <> None) (zip_walk f).
Proof.
  unfold zip_walk. apply post_bind. intros [r |]; apply post_ret; discriminate.
Qed.

(** X15. An input starting with the ZIP local file header signature
    [50 4B 03 04] is never detected as [undefined]: the ZIP walk catches the
    end-of-stream error and falls back to [zip]. *)
Theorem zip_signature_never_undefined (n : nat) (rest : list byte) :
  fileTypeFromBuffer n (zip_magic ++ rest) <> Fulfilled None.
Proof.
  set (D := zip_magic ++ rest).
  assert (HD : buf_len D = 4 + buf_len rest) by (subst D; rewrite buf_len_app; reflexivity).
  pose proof (buf_len_nonneg rest).
  unfold fileTypeFromBuffer. destruct (Z.ltb_spec 1 (buf_len D)); [| lia]. cbn [negb].
  destruct n as [| f]; [discriminate |].
  change (fileTypeFromTokenizer (S f) (fromBuffer D)) with (outcome_of (parse (S f) (mkP (fromBuffer D) [] false))).
  cbn [parse].
  rewrite (bind_ok _ _ _ _ _ (parse_prologue_run D [] false)).
  set (k := Z.to_nat (Z.min (buf_len D) 12)) in *.
  assert (Hbuf : firstn k D ++ skipn k (alloc minimumBytes)
                 = zip_magic ++ (firstn (k - 4) rest ++ skipn k (alloc minimumBytes))).
  { subst D. rewrite firstn_app, app_assoc. f_equal. f_equal.
    apply firstn_all2. cbn. lia. }
  rewrite Hbuf.
  set (B := firstn (k - 4) rest ++ skipn k (alloc minimumBytes)).
  destruct (_check (zip_magic ++ B) (stringToBytes "WEBP") 8 None) eqn:HW.
  - rewrite zip_webp_dispatch by exact HW. discriminate.
  - rewrite zip_dispatch by exact HW.
    pose proof (zip_walk_defined f (mkP (fromBuffer D) (zip_magic ++ B) true)) as HP.
    destruct (zip_walk f _) as [r s'| e s' |]; cbn; [| discriminate | discriminate].
    intros E. injection E as ->. exact (HP eq_refl).
Qed.

Lemma sample_check_absent (D h : list byte) (off : nat) :
  ~ In x00 h -> firstn (length h) (skipn off D) <> h ->
  let k := Z.to_nat (Z.min (buf_len D) 12) in
  _check (firstn k D ++ skipn k (alloc minimumBytes)) (map bz h) (Z.of_nat off) None = false.
Proof.
  intros Hz Hne k. destruct (_check _ _ _ _) eqn:E; [exfalso | reflexivity].
  unfold _check in E. pose proof (proj1 (check_from_spec _ _ _ None 0) E) as E2. clear E. rename E2 into E. cbv beta iota in E.
  apply Hne. apply nth_error_ext. intros i.
  destruct (Nat.ltb_spec i (length h)) as [Hi | Hi].
  - destruct (nth_error h i) as [hi |] eqn:Eh.
    2:{ apply nth_error_None in Eh. lia. }
    specialize (E i (bz hi)). rewrite nth_error_map, Eh in E. specialize (E eq_refl).
    rewrite idx_sample in E by (subst k; unfold buf_len; lia).
    rewrite nth_error_firstn. destruct (Nat.ltb_spec i (length h)); [| lia].
    rewrite nth_error_skipn.
    destruct (Z.ltb_spec (0 + Z.of_nat i + Z.of_nat off) (Z.of_nat k)).
    + unfold idx in E. destruct (Z.ltb_spec (0 + Z.of_nat i + Z.of_nat off) 0); [discriminate |].
      replace (Z.to_nat (0 + Z.of_nat i + Z.of_nat off)) with (off + i)%nat in E by lia.
      destruct (nth_error D (off + i)) as [x |]; cbn in E; [| discriminate].
      injection E as E. rewrite (bz_inj x hi E). reflexivity.
    + exfalso. destruct (Z.ltb_spec (0 + Z.of_nat i + Z.of_nat off) 4100).
      * unfold alloc, minimumBytes in E. rewrite idx_repeat in E by lia.
        injection E as E. apply Hz. rewrite (bz_inj x00 hi E). eapply nth_error_In. exact Eh.
      * rewrite idx_out in E; [discriminate |]. unfold alloc, minimumBytes. rewrite buf_len_repeat. lia.
  - rewrite (proj2 (nth_error_None h i)) by lia. apply nth_error_None.
    rewrite length_firstn. lia.
Qed.

Lemma pdf_dispatch rec f tail t B w :
  _check (pdf_magic ++ B) (stringToBytes "WEBP") 8 None = false ->
  _check (pdf_magic ++ B) (stringToBytes "ftyp") 4 None = false ->
  parse_head rec (parse_zip_ftyp f (parse_fonts_ebml f (parse_riff_ar (parse_png_cfb f tail))))
    (mkP t (pdf_magic ++ B) w)
  = pdf_walk (mkP t (pdf_magic ++ B) true).
Proof.
  intros HW HF. unfold parse_head. repeat run_step.
  unfold parse_zip_ftyp. repeat run_step.
  rewrite (bind_ok _ _ _ false (mkP t (pdf_magic ++ B) w)).
  2:{ unfold andM, checkString_at, check_m, bind, get_buffer, ret. cbn [p_buffer]. rewrite HF. reflexivity. }
  cbv beta iota. repeat run_step. unfold parse_fonts_ebml. repeat run_step. reflexivity.
Qed.

Lemma firstn_min_length {X} (m : nat) (l : list X) :
  firstn (Nat.min (length l) m) l = firstn m l.
Proof.
  destruct (Nat.le_ge_cases (length l) m).
  - rewrite Nat.min_l by exact H. rewrite firstn_all, firstn_all2 by exact H. reflexivity.
  - rewrite Nat.min_r by exact H. reflexivity.
Qed.

Lemma pdf_walk_run (D buf : list byte) (w : bool) :
  pdf_walk (mkP (fromBuffer D) buf w) =
  Ok (Some (if buf_includes (firstn (Z.to_nat (10 * 1024 * 1024)) (skipn 1350 D)) (map byte_of_Z (lit "AIPrivateData"))
            then ft "ai" "application/postscript" else ft "pdf" "application/pdf"))
     (mkP (mkTok D (Z.min (buf_len D) (1350 + 10 * 1024 * 1024)) (buf_len D)) buf w).
Proof.
  pose proof (buf_len_nonneg D) as H0.
  set (p := Z.min 1350 (buf_len D)).
  unfold pdf_walk.
  rewrite (bind_ok _ _ _ p (mkP (mkTok D p (buf_len D)) buf w)).
  2:{ unfold fromBuffer. rewrite ignore_run. subst p.
      destruct (Z.ltb_spec (buf_len D - 0) 1350).
      - rewrite Z.min_r by lia. repeat f_equal; lia.
      - rewrite Z.min_l by lia. reflexivity. }
  rewrite (bind_ok _ _ _ (buf_len D) (mkP (mkTok D p (buf_len D)) buf w)) by reflexivity.
  set (L := Z.min (10 * 1024 * 1024) (buf_len D)).
  set (b := Z.min (buf_len D - p) L).
  rewrite (bind_ok _ _ _ (b, subarray D p (p + b) ++ repeat x00 (Z.to_nat (L - b)))
             (mkP (mkTok D (p + b) (buf_len D)) buf w)).
  2:{ unfold read_new. cbn [p_tok p_buffer p_walked].
      rewrite read_new_mbl_run by (cbn; lia). reflexivity. }
  cbn [snd]. rewrite buf_includes_zeros.
  2:{ vm_compute. discriminate. }
  2:{ vm_compute. intros H. repeat (destruct H as [H | H]; [discriminate |]). exact H. }
  rewrite subarray_in by lia.
  replace (firstn (Z.to_nat b) (skipn (Z.to_nat p) D)) with (firstn (Z.to_nat (10 * 1024 * 1024)) (skipn 1350 D)).
  2:{ subst b L p. destruct (Z.le_gt_cases (buf_len D) 1350).
      - rewrite (Z.min_r 1350) by lia. rewrite Z.sub_diag. rewrite (Z.min_l 0) by lia. cbn [Z.to_nat firstn].
        rewrite skipn_all2 by (unfold buf_len in H; lia). rewrite firstn_nil. reflexivity.
      - rewrite (Z.min_l 1350) by lia. rewrite <- (firstn_min_length (Z.to_nat (10 * 1024 * 1024)) (skipn 1350 D)).
        rewrite length_skipn. f_equal. unfold buf_len in *. lia. }
  assert (Hend : p + b = Z.min (buf_len D) (1350 + 10 * 1024 * 1024)).
  { subst b L p. lia. }
  destruct (buf_includes _ _); unfold found, ret; rewrite Hend; reflexivity.
Qed.

(** X16. An input starting with [%PDF], whose bytes 4..7 are not [ftyp] and
    bytes 8..11 not [WEBP] (the probes that come first), is detected as [ai]
    when the bytes from offset 1350, at most 10 MiB of them, contain
    [AIPrivateData], and as [pdf] otherwise. *)
Theorem pdf_detection (n : nat) (rest : list byte) :
  firstn 4 rest <> list_byte_of_string "ftyp" ->
  firstn 4 (skipn 4 rest) <> list_byte_of_string "WEBP" ->
  fileTypeFromBuffer (S n) (pdf_magic ++ rest) =
  Fulfilled (Some (if buf_includes (firstn (Z.to_nat (10 * 1024 * 1024)) (skipn 1350 (pdf_magic ++ rest)))
                                   (map byte_of_Z (lit "AIPrivateData"))
                   then ft "ai" "application/postscript" else ft "pdf" "application/pdf")).
Proof.
  intros HF HW.
  set (D := pdf_magic ++ rest) in *.
  assert (HD : buf_len D = 4 + buf_len rest) by (subst D; rewrite buf_len_app; reflexivity).
  pose proof (buf_len_nonneg rest) as Hr.
  pose proof (sample_check_absent D (list_byte_of_string "ftyp") 4) as CF.
  pose proof (sample_check_absent D (list_byte_of_string "WEBP") 8) as CW.
  change (map bz (list_byte_of_string "ftyp")) with (stringToBytes "ftyp") in CF.
  change (map bz (list_byte_of_string "WEBP")) with (stringToBytes "WEBP") in CW.
  cbv zeta in CF, CW. change (Z.of_nat 4) with 4 in CF. change (Z.of_nat 8) with 8 in CW.
  specialize (CF ltac:(vm_compute; intros H; repeat (destruct H as [H | H]; [discriminate |]); exact H)).
  specialize (CW ltac:(vm_compute; intros H; repeat (destruct H as [H | H]; [discriminate |]); exact H)).
  specialize (CF ltac:(subst D; exact HF)).
  specialize (CW ltac:(subst D; exact HW)).
  unfold fileTypeFromBuffer. destruct (Z.ltb_spec 1 (buf_len D)); [| lia]. cbn [negb].
  change (fileTypeFromTokenizer (S n) (fromBuffer D)) with (outcome_of (parse (S n) (mkP (fromBuffer D) [] false))).
  cbn [parse].
  rewrite (bind_ok _ _ _ _ _ (parse_prologue_run D [] false)).
  set (k := Z.to_nat (Z.min (buf_len D) 12)) in *.
  assert (Hbuf : firstn k D ++ skipn k (alloc minimumBytes)
                 = pdf_magic ++ (firstn (k - 4) rest ++ skipn k (alloc minimumBytes))).
  { subst D. rewrite firstn_app, app_assoc. f_equal. f_equal.
    apply firstn_all2. cbn. lia. }
  rewrite Hbuf in CF, CW |- *.
  rewrite pdf_dispatch by assumption. rewrite <- Hbuf.
  rewrite pdf_walk_run. reflexivity.
Qed.

Lemma pdf_detection_witness :
  (firstn 4 pdf_ai_sample <> list_byte_of_string "ftyp"
   /\ firstn 4 (skipn 4 pdf_ai_sample) <> list_byte_of_string "WEBP")
  /\ fileTypeFromBuffer 1 (pdf_magic ++ pdf_ai_sample) =
     Fulfilled (Some (if buf_includes (firstn (Z.to_nat (10 * 1024 * 1024)) (skipn 1350 (pdf_magic ++ pdf_ai_sample)))
                                      (map byte_of_Z (lit "AIPrivateData"))
                      then ft "ai" "application/postscript" else ft "pdf" "application/pdf")).
Proof.
  split; [split; vm_compute; discriminate |].
  apply pdf_detection; vm_compute; discriminate.
Defined.
